(** * PrecisionFDA AI Agent: the response annotator and the polling client

    A shallow embedding of the two pieces of logic of [server.js]:
    - the text pipeline [sanitizeAssistantResponse] with its passes
      [unifyConsecutiveReferences] and [linkReferences], and
    - the request chain of [createThreadWithMessage] together with its
      caller [sendMessage].

    JavaScript strings are sequences of UTF-16 code units, and the regular
    expressions of the source carry no [u] flag, so every pattern works on
    code units.  A string is therefore a [list N]. *)

From Stdlib Require Import String Ascii.
From stdpp Require Import base decidable option numbers list sorting gmap pretty.

Set Default Proof Using "Type".
Local Open Scope N_scope.

(** ** Strings *)

Definition jsstring := list N.

(** An ASCII literal of the source, as code units. *)
Fixpoint lit (s : string) : jsstring :=
  match s with
  | EmptyString => []
  | String a s' => N_of_ascii a :: lit s'
  end.

(** The three non-ASCII characters of the marker syntax. *)
Definition LBRACKET : N := 12304. (* U+3010 *)
Definition RBRACKET : N := 12305. (* U+3011 *)
Definition DAGGER : N := 8224.    (* U+2020 *)

Definition DQUOTE : N := 34.
Definition NEWLINE : N := 10.

(** [\s] and [trim] share one set: the WhiteSpace and LineTerminator
    code points of ECMAScript. *)
Definition is_space (c : N) : bool :=
  (c =? 9) || (c =? 10) || (c =? 11) || (c =? 12) || (c =? 13) || (c =? 32)
  || (c =? 160) || (c =? 5760) || ((8192 <=? c) && (c <=? 8202))
  || (c =? 8232) || (c =? 8233) || (c =? 8239) || (c =? 8287)
  || (c =? 12288) || (c =? 65279).

Definition is_digit (c : N) : bool := (48 <=? c) && (c <=? 57).

(** Canonicalize of a pattern compiled with [i] and without [u]: a code
    unit compares through its upper case, and a code unit of 128 or more
    is never identified with an ASCII one.  All patterns of the source are
    ASCII, so comparing through the ASCII upper case is exact. *)
Definition upcase (c : N) : N :=
  if (97 <=? c) && (c <=? 122) then c - 32 else c.

Definition eq_ci (p c : N) : bool := upcase p =? upcase c.

(** [strip_prefix eqc p text]: the rest of [text] after the literal [p],
    compared unit by unit with [eqc]. *)
Fixpoint strip_prefix (eqc : N → N → bool) (p text : jsstring) : option jsstring :=
  match p with
  | [] => Some text
  | a :: p' =>
    match text with
    | [] => None
    | c :: text' => if eqc a c then strip_prefix eqc p' text' else None
    end
  end.

(** Longest prefix whose units satisfy [f] (a greedy [x*] or [x+]). *)
Fixpoint span (f : N → bool) (text : jsstring) : jsstring * jsstring :=
  match text with
  | [] => ([], [])
  | c :: text' =>
    if f c then let '(a, b) := span f text' in (c :: a, b) else ([], text)
  end.

(** [String.prototype.trim]. *)
Definition trim_start (text : jsstring) : jsstring := (span is_space text).2.
Definition trim (text : jsstring) : jsstring :=
  reverse (trim_start (reverse (trim_start text))).

(** Decimal rendering of an integer, as a template literal and [join] do
    it. *)
Definition decimal (n : Z) : jsstring := lit (pretty n).

(** [Array.prototype.join]. *)
Fixpoint join (sep : jsstring) (parts : list jsstring) : jsstring :=
  match parts with
  | [] => []
  | [p] => p
  | p :: rest => p ++ sep ++ join sep rest
  end.

(** ** [String.prototype.replace] with a global pattern

    A pattern is given by its anchored matcher: [find_at text] tries the
    pattern at the head of [text] and answers the payload handed to the
    replacer together with the number of code units consumed.  The search
    is the one of the language: candidates are tried left to right, a hit
    moves [lastIndex] past the consumed units, and the hits are replaced in
    that order.  [skip] counts the units still covered by the last hit.
    Every pattern of the source consumes at least one code unit, so the
    end of the text is never a candidate. *)

Inductive piece (X : Type) : Type :=
| Keep (c : N)
| Hit (x : X).
Arguments Keep {X} c.
Arguments Hit {X} x.

Section Replace.
Context {X : Type}.
Variable find_at : jsstring → option (X * nat).

Fixpoint pieces (text : jsstring) (skip : nat) : list (piece X) :=
  match text with
  | [] => []
  | c :: rest =>
    match skip with
    | S k => pieces rest k
    | O =>
      match find_at text with
      | Some (x, O) => Hit x :: Keep c :: pieces rest 0
      | Some (x, S k) => Hit x :: pieces rest k
      | None => Keep c :: pieces rest 0
      end
    end
  end.

(** The replacer is called once per hit, in order; it may read and
    update a state of type [St] (the global of the source). *)
Context {St : Type}.
Variable replacer : X → St → jsstring * St.

Fixpoint substitute (ps : list (piece X)) (st : St) : jsstring * St :=
  match ps with
  | [] => ([], st)
  | Keep c :: ps' =>
    let '(out, st') := substitute ps' st in (c :: out, st')
  | Hit x :: ps' =>
    let '(new, st1) := replacer x st in
    let '(out, st2) := substitute ps' st1 in
    (new ++ out, st2)
  end.

Definition replace_all (text : jsstring) (st : St) : jsstring * St :=
  substitute (pieces text 0) st.
End Replace.

(** A replacement given as a string with [$1], or the empty string: no
    state is involved. *)
Definition replace_pure (find_at : jsstring → option (jsstring * nat))
    (f : jsstring → jsstring) (text : jsstring) : jsstring :=
  (replace_all find_at (λ x (_ : unit), (f x, tt)) text tt).1.

(** ** Backtracking matchers

    A matcher is written in continuation-passing style, as the pattern
    semantics of the language is: [k] matches what follows in the pattern
    and answers the number of code units consumed from its position to the
    end of the match; a greedy quantifier first tries to take one more
    unit and falls back on the continuation when the rest fails. *)

Definition cont := jsstring → option nat.

Definition re_end : cont := λ _, Some O.

(** One code unit satisfying [f]. *)
Definition re_chr (f : N → bool) (k : cont) : cont := λ text,
  match text with
  | [] => None
  | c :: t => if f c then S <$> k t else None
  end.

(** A literal, compared with [eqc]. *)
Fixpoint re_lit (eqc : N → N → bool) (p : jsstring) (k : cont) : cont :=
  match p with
  | [] => k
  | a :: p' => re_chr (eqc a) (re_lit eqc p' k)
  end.

(** Greedy [x*] over a class of code units. *)
Fixpoint re_star (f : N → bool) (k : cont) (text : jsstring) : option nat :=
  match text with
  | [] => k []
  | c :: t =>
    if f c then
      match re_star f k t with
      | Some n => Some (S n)
      | None => k text
      end
    else k text
  end.

(** Greedy [x+]. *)
Definition re_plus (f : N → bool) (k : cont) : cont := re_chr f (re_star f k).

(** Ordered alternation [a|b]. *)
Definition re_alt (a b : cont → cont) (k : cont) : cont := λ text,
  match a k text with
  | Some n => Some n
  | None => b k text
  end.

(** Greedy [(?:a)?]. *)
Definition re_opt (a : cont → cont) (k : cont) : cont := re_alt a (λ k, k) k.

(** The payload of a pattern without inner captures is the matched text
    ([$&], which is also [$1] when one group wraps the whole pattern). *)
Definition whole (m : cont) (text : jsstring) : option (jsstring * nat) :=
  n ← m text; Some (take n text, n).

(** ** Reference markers *)

(** The tail [†source】] of a marker. *)
Definition MARKER_TAIL : jsstring := DAGGER :: lit "source" ++ [RBRACKET].

Definition not_dagger (c : N) : bool := negb (c =? DAGGER).

(** [/【([^†]+)†source】/] tried at the head of the text: the reference
    code and the length of the marker.  [[^†]+] is greedy and cannot cross
    a dagger, so it stops exactly at the first one. *)
Definition match_marker (text : jsstring) : option (jsstring * nat) :=
  match text with
  | [] => None
  | c :: t =>
    if c =? LBRACKET then
      let '(code, rest) := span not_dagger t in
      match code with
      | [] => None
      | _ :: _ =>
        match strip_prefix N.eqb MARKER_TAIL rest with
        | Some _ => Some (code, (length code + 9)%nat)
        | None => None
        end
      end
    else None
  end.

(** Number of code units covered by the greedy repetition
    [(?:【[^†]+†source】)+] at the head of the text (0: no marker there). *)
Fixpoint run_length (text : jsstring) (skip : nat) : nat :=
  match text with
  | [] => O
  | _ :: rest =>
    match skip with
    | S k => S (run_length rest k)
    | O =>
      match match_marker text with
      | Some (_, n) => S (run_length rest (Nat.pred n))
      | None => O
      end
    end
  end.

(** [/(?:【[^†]+†source】)+/] at the head of the text: [fullMatch]. *)
Definition re_run (text : jsstring) : option nat :=
  match run_length text 0 with
  | O => None
  | n => Some n
  end.

Definition match_run : jsstring → option (jsstring * nat) := whole re_run.

(** The [while ((subMatch = refRegex.exec(fullMatch)) !== null)] loop
    visits the successive hits of the marker pattern: [subMatch[1]] takes
    these values. *)
Definition hits {X} (ps : list (piece X)) : list X :=
  omap (λ p, match p with Hit x => Some x | Keep _ => None end) ps.

Definition exec_all (fullMatch : jsstring) : list jsstring :=
  hits (pieces match_marker fullMatch 0).

(** ** The reference table *)

Definition FALLBACK : jsstring := lit "FDA Guidance".

(** Own properties of the object literal [referenceDetailsMap]. *)
Definition referenceDetailsMap : gmap jsstring jsstring :=
  list_to_map
    [ (lit "4:8",  lit "Page 12, Section 4.8");
      (lit "4:14", lit "Page 18, Section 2");
      (lit "4:19", lit "Page 20, Appendix B");
      (lit "4:4",  lit "Page 7, Section 1.3");
      (lit "4:7",  lit "Page 10, Section 2.1");
      (lit "4:13", lit "Page 16, Section 3.3");
      (lit "4:20", lit "Page 22, Nanomaterials Guidance");
      (lit "4:21", lit "Page 24, GMP Guidelines");
      (lit "4:5",  lit "Page 8, Contact Details") ].

(** [referenceDetailsMap] is an ordinary object: a key that is not an own
    property is looked up on [Object.prototype], whose properties are
    these.  Each holds a distinct object (eleven functions and, under
    [__proto__], the prototype itself), all of them truthy. *)
Definition object_prototype_keys : list jsstring :=
  map lit
    [ "constructor"; "hasOwnProperty"; "isPrototypeOf";
      "propertyIsEnumerable"; "toLocaleString"; "toString"; "valueOf";
      "__proto__"; "__defineGetter__"; "__defineSetter__";
      "__lookupGetter__"; "__lookupSetter__" ]%string.

(** What [collectedReferences] can hold: a string, or the object found on
    the prototype under a name.  [includes] and [indexOf] compare strings
    by content and objects by identity, which is equality here. *)
Inductive detail : Type :=
| Text (s : jsstring)
| Inherited (name : jsstring).

Global Instance detail_eq_dec : EqDecision detail.
Proof. solve_decision. Defined.

(** [referenceDetailsMap[refCode] || "FDA Guidance"]. *)
Definition lookup_detail (refCode : jsstring) : detail :=
  match referenceDetailsMap !! refCode with
  | Some [] => Text FALLBACK
  | Some s => Text s
  | None =>
    if decide (refCode ∈ object_prototype_keys) then Inherited refCode
    else Text FALLBACK
  end.

(** [Array.prototype.indexOf]: -1 when absent. *)
Definition indexOf {A} `{EqDecision A} (x : A) (l : list A) : Z :=
  match list_find (λ y, y = x) l with
  | Some (i, _) => Z.of_nat i
  | None => (-1)%Z
  end.

(** Body of the [while] loop, on the pair of [collectedReferences] and
    [refIndices]. *)
Definition cite (st : list detail * list Z) (refCode : jsstring)
    : list detail * list Z :=
  let '(collected, refIndices) := st in
  let detail := lookup_detail refCode in
  let collected :=
    if decide (detail ∈ collected) then collected else collected ++ [detail] in
  let index := (indexOf detail collected + 1)%Z in
  let refIndices :=
    if decide (index ∈ refIndices) then refIndices else refIndices ++ [index] in
  (collected, refIndices).

(** [refIndices.sort((a, b) => a - b)] *)
Definition sort_ascending (l : list Z) : list Z := merge_sort Z.le l.

Definition superscript (refIndices : list Z) : jsstring :=
  match refIndices with
  | [i] => lit "<sup>[" ++ decimal i ++ lit "]</sup>"
  | _ => lit "<sup>[" ++ join (lit ",") (map decimal refIndices) ++ lit "]</sup>"
  end.

(** The replacer of [unifyConsecutiveReferences]. *)
Definition unify_replacer (fullMatch : jsstring) (collected : list detail)
    : jsstring * list detail :=
  let '(collected', refIndices) := foldl cite (collected, []) (exec_all fullMatch) in
  (superscript (sort_ascending refIndices), collected').

Definition unifyConsecutiveReferences (text : jsstring) (collected : list detail)
    : jsstring * list detail :=
  replace_all match_run unify_replacer text collected.

Definition marker (code : jsstring) : jsstring :=
  LBRACKET :: code ++ MARKER_TAIL.

Example unify_two_adjacent :
  unifyConsecutiveReferences (lit "a" ++ marker (lit "4:8") ++ marker (lit "4:14") ++ lit "b") []
  = (lit "a<sup>[1,2]</sup>b",
     [Text (lit "Page 12, Section 4.8"); Text (lit "Page 18, Section 2")]).
Proof. vm_compute. reflexivity. Qed.

(** ** The passes of [sanitizeAssistantResponse] *)

Definition is_chr (a : N) (c : N) : bool := c =? a.
Definition is_not (a : N) (c : N) : bool := negb (c =? a).

Definition HASH : N := 35.
Definition STAR : N := 42.
Definition LSQUARE : N := 91.
Definition RSQUARE : N := 93.
Definition DASH : N := 45.
Definition COMMA : N := 44.
Definition RPAREN : N := 41.

(** [/#+\s?/] *)
Definition re_heading : cont :=
  re_plus (is_chr HASH) (re_opt (re_chr is_space) re_end).

(** [/\*\*/] *)
Definition re_bold : cont := re_lit N.eqb [STAR; STAR] re_end.

(** [/\[[^\]]*\]/] *)
Definition re_bracketed : cont :=
  re_chr (is_chr LSQUARE) (re_star (is_not RSQUARE) (re_chr (is_chr RSQUARE) re_end)).

(** [/(phrase)/gi] for a literal phrase. *)
Definition re_phrase (phrase : string) : cont := re_lit eq_ci (lit phrase) re_end.

Definition strip (m : cont) (text : jsstring) : jsstring :=
  replace_pure (whole m) (λ _, []) text.

(** [text.replace(/(phrase)/gi, '<strong>$1</strong>')] *)
Definition embolden (phrase : string) (text : jsstring) : jsstring :=
  replace_pure (whole (re_phrase phrase))
    (λ m, lit "<strong>" ++ m ++ lit "</strong>") text.

(** [/((?:Refer to|See|For)[^-]+ - Page \d+(?:,\s*Section [^)\n]+)?)/gi] *)
Definition re_link : cont :=
  re_alt (re_lit eq_ci (lit "Refer to"))
    (re_alt (re_lit eq_ci (lit "See")) (re_lit eq_ci (lit "For")))
    (re_plus (is_not DASH)
      (re_lit eq_ci (lit " - Page ")
        (re_plus is_digit
          (re_opt
            (λ k, re_chr (is_chr COMMA)
                    (re_star is_space
                      (re_lit eq_ci (lit "Section ")
                        (re_plus (λ c, negb ((c =? RPAREN) || (c =? NEWLINE))) k))))
            re_end)))).

Definition PRIMARY_COLOR : jsstring := lit "#1B74BB".

(** The replacement template of [linkReferences], with [$1] filled in. *)
Definition link_anchor (m : jsstring) : jsstring :=
  lit "<a href=" ++ [DQUOTE]
  ++ lit "https://drive.google.com/file/d/1OGt3QP7K94-P6sJFO61NodgHknDiHsXa/edit"
  ++ [DQUOTE; NEWLINE]
  ++ lit "        target=" ++ [DQUOTE] ++ lit "_blank" ++ [DQUOTE; NEWLINE]
  ++ lit "        style=" ++ [DQUOTE] ++ lit "text-decoration: none; color: "
  ++ PRIMARY_COLOR ++ lit ";" ++ [DQUOTE] ++ lit ">" ++ [NEWLINE]
  ++ lit "      " ++ m ++ [NEWLINE]
  ++ lit "    </a>".

Definition linkReferences (text : jsstring) : jsstring :=
  replace_pure (whole re_link) link_anchor text.

(** The text as it reaches the unification pass: markdown stripped,
    section headers emboldened. *)
Definition prepare (text : jsstring) : jsstring :=
  let text := strip re_heading text in
  let text := strip re_bold text in
  let text := strip re_bracketed text in
  let text := embolden "Question Asked" text in
  let text := embolden "Extracted Insight" text in
  let text := embolden "Document Section/Page" text in
  let text := embolden "Confidence Score" text in
  let text := embolden "Additional Notes" text in
  text.

(** [sanitizeAssistantResponse]: the global [collectedReferences] is
    threaded through; the first statement resets it. *)
Definition sanitizeAssistantResponse (text : jsstring) (collectedReferences : list detail)
    : jsstring * list detail :=
  let collectedReferences : list detail := [] in
  let text := prepare text in
  let '(text, collectedReferences) :=
    unifyConsecutiveReferences text collectedReferences in
  let text := linkReferences text in
  (trim text, collectedReferences).

Example sanitize_sample :
  sanitizeAssistantResponse
    (lit "## Question Asked" ++ [NEWLINE] ++ lit "**Labels** [x] must list "
     ++ marker (lit "4:8") ++ marker (lit "9:9") ++ lit ". See the rules - Page 12, Section 4.8) ")
    [Text (lit "stale")]
  = (lit "<strong>Question Asked</strong>" ++ [NEWLINE] ++ lit "Labels  must list <sup>[1,2]</sup>. "
     ++ link_anchor (lit "See the rules - Page 12, Section 4.8") ++ lit ")",
     [Text (lit "Page 12, Section 4.8"); Text FALLBACK]).
Proof. vm_compute. reflexivity. Qed.

(** * Properties of the search engine *)

#[local] Arguments N.eqb : simpl never.
#[local] Arguments N.leb : simpl never.
#[local] Arguments lit : simpl never.
#[local] Arguments MARKER_TAIL : simpl never.
#[local] Arguments match_marker : simpl never.

Section ReplaceFacts.
Context {X St : Type}.
Implicit Types (find_at : jsstring → option (X * nat)).

(** Units covered by the last hit are skipped. *)
Lemma pieces_skip find_at (a rest : jsstring) :
  pieces find_at (a ++ rest) (length a) = pieces find_at rest 0.
Proof. induction a as [|c a IH]; simpl; [done | apply IH]. Qed.

Lemma pieces_miss find_at c (text : jsstring) :
  find_at (c :: text) = None →
  pieces find_at (c :: text) 0 = Keep c :: pieces find_at text 0.
Proof. intros E. simpl. by rewrite E. Qed.

Lemma pieces_hit find_at (m rest : jsstring) x c :
  find_at (c :: m ++ rest) = Some (x, S (length m)) →
  pieces find_at (c :: m ++ rest) 0 = Hit x :: pieces find_at rest 0.
Proof. intros E. simpl. rewrite E. f_equal. apply pieces_skip. Qed.

Lemma substitute_app (r : X → St → jsstring * St) ps1 ps2 st :
  substitute r (ps1 ++ ps2) st =
  let '(o1, st1) := substitute r ps1 st in
  let '(o2, st2) := substitute r ps2 st1 in
  (o1 ++ o2, st2).
Proof.
  revert st. induction ps1 as [|[c|x] ps1 IH]; intros st; simpl.
  - by destruct (substitute r ps2 st).
  - rewrite IH. destruct (substitute r ps1 st) as [o1 st1].
    by destruct (substitute r ps2 st1).
  - destruct (r x st) as [new st1]. rewrite IH.
    destruct (substitute r ps1 st1) as [o1 st2].
    destruct (substitute r ps2 st2). by rewrite (assoc app).
Qed.

Lemma substitute_keep (r : X → St → jsstring * St) (text : jsstring) st :
  substitute r (Keep <$> text) st = (text, st).
Proof. induction text as [|c t IH]; csimpl; [done | by rewrite IH]. Qed.
End ReplaceFacts.

(** [occurs m text]: the pattern matches somewhere in the text. *)
Fixpoint occurs (m : cont) (text : jsstring) : bool :=
  match m text with
  | Some _ => true
  | None =>
    match text with
    | [] => false
    | _ :: t => occurs m t
    end
  end.

Lemma occurs_false_head m text : occurs m text = false → m text = None.
Proof. destruct text; simpl; by destruct (m _). Qed.

Lemma occurs_false_tail m c text : occurs m (c :: text) = false → occurs m text = false.
Proof. simpl. by destruct (m (c :: text)). Qed.

Lemma occurs_false_app_r m a text : occurs m (a ++ text) = false → occurs m text = false.
Proof. induction a as [|c a IH]; simpl; [done|]. destruct (m _); [done | apply IH]. Qed.

Lemma whole_None m text : m text = None → whole m text = None.
Proof. unfold whole. by intros ->. Qed.

Lemma pieces_unmatched (m : cont) text :
  occurs m text = false → pieces (whole m) text 0 = Keep <$> text.
Proof.
  induction text as [|c t IH]; intros H; [done|].
  rewrite pieces_miss.
  - csimpl. f_equal. apply IH. by eapply occurs_false_tail.
  - apply whole_None. by apply occurs_false_head.
Qed.

(** Without a match, [replace] returns its argument. *)
Lemma replace_all_unmatched {St} (m : cont) (r : jsstring → St → jsstring * St) text st :
  occurs m text = false → replace_all (whole m) r text st = (text, st).
Proof.
  intros H. unfold replace_all. rewrite pieces_unmatched by done.
  apply substitute_keep.
Qed.

Lemma replace_pure_unmatched (m : cont) f text :
  occurs m text = false → replace_pure (whole m) f text = text.
Proof. intros H. unfold replace_pure. by rewrite replace_all_unmatched. Qed.

(** * Properties of the marker patterns *)

Lemma span_stop f (a : jsstring) c r :
  Forall (λ x, f x = true) a → f c = false → span f (a ++ c :: r) = (a, c :: r).
Proof.
  intros Ha Hc. induction Ha as [|x a Hx _ IH]; simpl.
  - by rewrite Hc.
  - by rewrite Hx, IH.
Qed.

Lemma span_all f (a : jsstring) :
  Forall (λ x, f x = true) a → span f a = (a, []).
Proof. induction 1 as [|x a Hx _ IH]; simpl; [done | by rewrite Hx, IH]. Qed.

Lemma strip_prefix_app (p rest : jsstring) : strip_prefix N.eqb p (p ++ rest) = Some rest.
Proof. induction p as [|a p IH]; simpl; [done | by rewrite N.eqb_refl]. Qed.

(** A reference code as the pattern [[^†]+] accepts it. *)
Definition valid_code (code : jsstring) : Prop := code ≠ [] ∧ DAGGER ∉ code.

Lemma not_dagger_Forall (code : jsstring) :
  DAGGER ∉ code → Forall (λ x, not_dagger x = true) code.
Proof.
  intros H. apply Forall_forall. intros x Hx. unfold not_dagger.
  apply negb_true_iff, N.eqb_neq. by intros ->.
Qed.

Lemma length_marker code : length (marker code) = (length code + 9)%nat.
Proof. unfold marker. simpl. rewrite length_app. simpl. lia. Qed.

Lemma match_marker_marker code rest :
  valid_code code →
  match_marker (marker code ++ rest) = Some (code, (length code + 9)%nat).
Proof.
  intros [Hne Hd]. unfold marker, match_marker.
  rewrite <-app_comm_cons, <-(assoc app), N.eqb_refl.
  change (MARKER_TAIL ++ rest) with (DAGGER :: (lit "source" ++ [RBRACKET]) ++ rest).
  rewrite span_stop; [|by apply not_dagger_Forall|done].
  destruct code as [|c code]; [done|].
  change (DAGGER :: (lit "source" ++ [RBRACKET]) ++ rest) with (MARKER_TAIL ++ rest).
  by rewrite strip_prefix_app.
Qed.

Lemma run_length_skip (a rest : jsstring) :
  run_length (a ++ rest) (length a) = (length a + run_length rest 0)%nat.
Proof. induction a as [|c a IH]; simpl; [done | by rewrite IH]. Qed.

Definition markers (codes : list jsstring) : jsstring := mjoin (marker <$> codes).

Lemma markers_cons code codes : markers (code :: codes) = marker code ++ markers codes.
Proof. done. Qed.

Lemma run_length_None text : match_marker text = None → run_length text 0 = O.
Proof. destruct text; simpl; [done|]. by intros ->. Qed.

Lemma run_length_markers codes post :
  Forall valid_code codes → match_marker post = None →
  run_length (markers codes ++ post) 0 = length (markers codes).
Proof.
  intros Hv Hpost. induction Hv as [|code codes Hc _ IH].
  - by apply run_length_None.
  - rewrite markers_cons, <-(assoc app).
    pose proof (match_marker_marker code (markers codes ++ post) Hc) as E.
    pose proof (length_marker code) as L.
    unfold marker in *. rewrite <-app_comm_cons in *.
    cbn [run_length]. rewrite E.
    assert (Nat.pred (length code + 9) = length (code ++ MARKER_TAIL)) as -> by (simpl in L; lia).
    rewrite run_length_skip, IH. rewrite !length_app. simpl. rewrite ?length_app.
    change (length MARKER_TAIL) with 8%nat. lia.
Qed.

Lemma markers_nonempty codes : codes ≠ [] → markers codes ≠ [].
Proof. by destruct codes. Qed.

(** A maximal run is one hit of the outer pattern. *)
Lemma match_run_markers codes post :
  codes ≠ [] → Forall valid_code codes → match_marker post = None →
  match_run (markers codes ++ post) = Some (markers codes, length (markers codes)).
Proof.
  intros Hne Hv Hpost. unfold match_run, whole, re_run.
  rewrite run_length_markers by done.
  pose proof (markers_nonempty codes Hne).
  destruct (markers codes) as [|c m] eqn:E; [done|].
  simpl. by rewrite take_app_length.
Qed.

Lemma pieces_run codes post :
  codes ≠ [] → Forall valid_code codes → match_marker post = None →
  pieces match_run (markers codes ++ post) 0
  = Hit (markers codes) :: pieces match_run post 0.
Proof.
  intros Hne Hv Hpost.
  pose proof (match_run_markers codes post Hne Hv Hpost) as E.
  pose proof (markers_nonempty codes Hne).
  destruct (markers codes) as [|c m]; [done|].
  by apply pieces_hit.
Qed.

(** No marker starts inside [pre] when [rest] follows it. *)
Fixpoint quiet (pre rest : jsstring) : bool :=
  match pre with
  | [] => true
  | _ :: p =>
    match match_marker (pre ++ rest) with
    | Some _ => false
    | None => quiet p rest
    end
  end.

Lemma match_run_None text : match_marker text = None → match_run text = None.
Proof.
  intros H. unfold match_run, whole, re_run. by rewrite run_length_None.
Qed.

Lemma pieces_quiet pre rest :
  quiet pre rest = true →
  pieces match_run (pre ++ rest) 0 = (Keep <$> pre) ++ pieces match_run rest 0.
Proof.
  induction pre as [|c p IH]; [done|]. intros H. cbn [quiet] in H.
  rewrite <-app_comm_cons in H.
  destruct (match_marker (c :: p ++ rest)) eqn:E; [done|].
  rewrite <-app_comm_cons, pieces_miss by by apply match_run_None.
  csimpl. f_equal. by apply IH.
Qed.

Lemma hits_hit {X} (x : X) ps : hits (Hit x :: ps) = x :: hits ps.
Proof. done. Qed.

Lemma hits_keep {X} c (ps : list (piece X)) : hits (Keep c :: ps) = hits ps.
Proof. done. Qed.

Lemma hits_app {X} (ps1 ps2 : list (piece X)) : hits (ps1 ++ ps2) = hits ps1 ++ hits ps2.
Proof. unfold hits. apply omap_app. Qed.

(** The inner loop reads back the codes of a run. *)
Lemma exec_all_markers codes :
  Forall valid_code codes → exec_all (markers codes) = codes.
Proof.
  unfold exec_all. induction 1 as [|code codes Hc _ IH]; [done|].
  rewrite markers_cons.
  pose proof (match_marker_marker code (markers codes) Hc) as E.
  unfold marker in *. rewrite <-app_comm_cons, <-(assoc app) in E |- *.
  rewrite (assoc app code) in E |- *.
  rewrite (pieces_hit _ _ _ code).
  - by rewrite hits_hit, IH.
  - rewrite E. do 2 f_equal. rewrite length_app. simpl. lia.
Qed.

(** * Numbering of citations *)

(** The words of the specification: a citation is appended when it is
    newly seen, its footnote number is its 1-based position in
    [collectedReferences], and a run shows its numbers deduplicated and
    sorted. *)
Definition note (collected : list detail) (d : detail) : list detail :=
  if decide (d ∈ collected) then collected else collected ++ [d].

Definition collect (collected : list detail) (ds : list detail) : list detail :=
  foldl note collected ds.

Definition number (collected : list detail) (d : detail) : Z :=
  (indexOf d collected + 1)%Z.

Definition footnote (collected : list detail) (ds : list detail) : jsstring :=
  lit "<sup>[" ++
  join (lit ",") (decimal <$> sort_ascending (remove_dups (number collected <$> ds)))
  ++ lit "]</sup>".

Definition push_new (l : list Z) (i : Z) : list Z :=
  if decide (i ∈ l) then l else l ++ [i].

Lemma note_prefix c d : c `prefix_of` note c d.
Proof. unfold note. case_decide; [done | by apply prefix_app_r]. Qed.

Lemma collect_prefix c ds : c `prefix_of` collect c ds.
Proof.
  revert c. induction ds as [|d ds IH]; intros c; [done|].
  etrans; [apply (note_prefix c d) | apply IH].
Qed.

Lemma elem_of_note c d : d ∈ note c d.
Proof. unfold note. case_decide; [done|]. apply elem_of_app. right. by left. Qed.

Lemma elem_of_note_iff c d x : x ∈ note c d ↔ x ∈ c ∨ x = d.
Proof.
  unfold note. case_decide.
  - split; [tauto|]. intros [?| ->]; done.
  - rewrite elem_of_app, list_elem_of_singleton. done.
Qed.

Lemma elem_of_collect c ds x : x ∈ collect c ds ↔ x ∈ c ∨ x ∈ ds.
Proof.
  revert c. induction ds as [|d ds IH]; intros c; simpl.
  - rewrite elem_of_nil. tauto.
  - rewrite IH, elem_of_note_iff, elem_of_cons. tauto.
Qed.

Lemma NoDup_note c d : NoDup c → NoDup (note c d).
Proof.
  intros H. unfold note. case_decide; [done|].
  apply NoDup_app. split_and!; [done| |apply NoDup_singleton].
  intros x Hx ->%list_elem_of_singleton. done.
Qed.

Lemma NoDup_collect c ds : NoDup c → NoDup (collect c ds).
Proof.
  revert c. induction ds as [|d ds IH]; intros c H; [done|].
  by apply IH, NoDup_note.
Qed.

(** A position never changes once the citation is collected. *)
Lemma indexOf_prefix (d : detail) c c' :
  d ∈ c → c `prefix_of` c' → indexOf d c' = indexOf d c.
Proof.
  intros Hd [k ->]. unfold indexOf.
  destruct (list_find_elem_of (λ y, y = d) c d Hd eq_refl) as [[i x] E].
  by rewrite (list_find_app_l _ _ _ _ _ E), E.
Qed.

Lemma number_prefix d c c' : d ∈ c → c `prefix_of` c' → number c' d = number c d.
Proof. intros. unfold number. by rewrite (indexOf_prefix d c c'). Qed.

(** The number is the 1-based position. *)
Lemma number_lookup c d : d ∈ c → ∃ i : nat, number c d = (Z.of_nat i + 1)%Z ∧ c !! i = Some d.
Proof.
  intros Hd. unfold number, indexOf.
  destruct (list_find_elem_of (λ y, y = d) c d Hd eq_refl) as [[i x] E].
  rewrite E. apply list_find_Some in E as (Hi & -> & _). eauto.
Qed.

Lemma cite_eq c refIndices code :
  cite (c, refIndices) code =
  (note c (lookup_detail code),
   push_new refIndices (number (note c (lookup_detail code)) (lookup_detail code))).
Proof. done. Qed.

Lemma foldl_cite c refIndices codes :
  foldl cite (c, refIndices) codes =
  (collect c (lookup_detail <$> codes),
   foldl push_new refIndices
     (number (collect c (lookup_detail <$> codes)) <$> (lookup_detail <$> codes))).
Proof.
  revert c refIndices. induction codes as [|code codes IH]; intros c refIndices; [done|].
  cbn [foldl]. rewrite cite_eq, IH. csimpl. unfold collect at 1 3. cbn [foldl].
  do 3 f_equal. symmetry. apply number_prefix; [apply elem_of_note | apply collect_prefix].
Qed.

Lemma elem_of_push_new l i x : x ∈ push_new l i ↔ x ∈ l ∨ x = i.
Proof.
  unfold push_new. case_decide; [split; [tauto|]; intros [?| ->]; done|].
  by rewrite elem_of_app, list_elem_of_singleton.
Qed.

Lemma NoDup_push_new l i : NoDup l → NoDup (push_new l i).
Proof.
  intros H. unfold push_new. case_decide; [done|].
  apply NoDup_app. split_and!; [done| |apply NoDup_singleton].
  intros x Hx ->%list_elem_of_singleton. done.
Qed.

Lemma foldl_push_new l acc :
  NoDup acc →
  NoDup (foldl push_new acc l) ∧ ∀ x, x ∈ foldl push_new acc l ↔ x ∈ acc ∨ x ∈ l.
Proof.
  revert acc. induction l as [|i l IH]; intros acc H; simpl.
  - split; [done|]. intros x. rewrite elem_of_nil. tauto.
  - destruct (IH (push_new acc i) (NoDup_push_new _ _ H)) as [? Hx]. split; [done|].
    intros x. rewrite Hx, elem_of_push_new, elem_of_cons. tauto.
Qed.

(** Which duplicate is dropped does not matter once the numbers are sorted. *)
Lemma sort_push_new l :
  sort_ascending (foldl push_new [] l) = sort_ascending (remove_dups l).
Proof.
  unfold sort_ascending.
  destruct (foldl_push_new l [] (NoDup_nil_2)) as [Hnd Hel].
  apply (Sorted_unique Z.le); [apply Sorted_merge_sort, _ ..|].
  rewrite !merge_sort_Permutation.
  apply NoDup_Permutation; [done | apply NoDup_remove_dups|].
  intros x. rewrite Hel, elem_of_remove_dups, elem_of_nil. tauto.
Qed.

Lemma superscript_join l :
  superscript l = lit "<sup>[" ++ join (lit ",") (decimal <$> l) ++ lit "]</sup>".
Proof. by destruct l as [|i [|j l]]. Qed.

(** The replacer computes the footnote of the specification. *)
Lemma unify_replacer_spec fullMatch c :
  unify_replacer fullMatch c =
  let ds := lookup_detail <$> exec_all fullMatch in
  (footnote (collect c ds) ds, collect c ds).
Proof.
  unfold unify_replacer. rewrite foldl_cite. cbn zeta.
  by rewrite superscript_join, sort_push_new.
Qed.

(** * The unification pass as a whole *)

(** All citations of a text, in reading order. *)
Definition cited (ps : list (piece jsstring)) : list detail :=
  lookup_detail <$> mjoin (exec_all <$> hits ps).

(** The text with every run replaced by its footnote, numbered against one
    fixed state of [collectedReferences]. *)
Definition numbered (final : list detail) (ps : list (piece jsstring)) : jsstring :=
  mjoin ((λ p, match p with
               | Keep c => [c]
               | Hit fullMatch => footnote final (lookup_detail <$> exec_all fullMatch)
               end) <$> ps).

Lemma numbered_keep final c ps : numbered final (Keep c :: ps) = c :: numbered final ps.
Proof. done. Qed.

Lemma numbered_hit final fullMatch ps :
  numbered final (Hit fullMatch :: ps)
  = footnote final (lookup_detail <$> exec_all fullMatch) ++ numbered final ps.
Proof. done. Qed.

Lemma cited_keep c ps : cited (Keep c :: ps) = cited ps.
Proof. done. Qed.

Lemma cited_hit fullMatch ps :
  cited (Hit fullMatch :: ps) = (lookup_detail <$> exec_all fullMatch) ++ cited ps.
Proof. unfold cited. rewrite hits_hit. csimpl. by rewrite fmap_app. Qed.

Lemma collect_app c ds1 ds2 : collect c (ds1 ++ ds2) = collect (collect c ds1) ds2.
Proof. apply foldl_app. Qed.

Lemma footnote_prefix c c' ds :
  (∀ d, d ∈ ds → d ∈ c) → c `prefix_of` c' → footnote c' ds = footnote c ds.
Proof.
  intros Hin Hpre. unfold footnote.
  assert (number c' <$> ds = number c <$> ds) as ->; [|done].
  apply list_fmap_ext. intros i d Hd%list_elem_of_lookup_2.
  apply number_prefix; auto.
Qed.

Lemma substitute_unify ps c :
  substitute unify_replacer ps c
  = (numbered (collect c (cited ps)) ps, collect c (cited ps)).
Proof.
  revert c. induction ps as [|[k|fullMatch] ps IH]; intros c.
  - done.
  - cbn [substitute]. by rewrite IH, cited_keep, numbered_keep.
  - cbn [substitute]. rewrite unify_replacer_spec. cbn zeta. cbv beta iota.
    rewrite IH, cited_hit, collect_app, numbered_hit. do 2 f_equal.
    symmetry. apply footnote_prefix; [|apply collect_prefix].
    intros d Hd. apply elem_of_collect. by right.
Qed.

Lemma unify_numbered text c :
  unifyConsecutiveReferences text c =
  let ps := pieces match_run text 0 in
  (numbered (collect c (cited ps)) ps, collect c (cited ps)).
Proof. apply substitute_unify. Qed.

(** One maximal run, with what precedes it. *)
Lemma unify_run pre codes post collected :
  codes ≠ [] → Forall valid_code codes →
  quiet pre (markers codes ++ post) = true → match_marker post = None →
  unifyConsecutiveReferences (pre ++ markers codes ++ post) collected =
  let ds := lookup_detail <$> codes in
  let '(out, final) := unifyConsecutiveReferences post (collect collected ds) in
  (pre ++ footnote (collect collected ds) ds ++ out, final).
Proof.
  intros Hne Hv Hq Hpost. cbn zeta. unfold unifyConsecutiveReferences, replace_all.
  rewrite pieces_quiet, pieces_run by done.
  rewrite substitute_app, substitute_keep. cbn [substitute].
  rewrite unify_replacer_spec, exec_all_markers by done. cbn zeta. cbv beta iota.
  by destruct (substitute _ _ _).
Qed.

Lemma sorted_numbers (l : list Z) :
  StronglySorted Z.lt (sort_ascending (remove_dups l)).
Proof.
  unfold sort_ascending.
  assert (StronglySorted Z.le (merge_sort Z.le (remove_dups l))) as Hs
    by (apply StronglySorted_merge_sort; apply _).
  assert (NoDup (merge_sort Z.le (remove_dups l))) as Hnd
    by (rewrite merge_sort_Permutation; apply NoDup_remove_dups).
  induction Hs as [|x k Hk IH Hx]; [constructor|].
  apply NoDup_cons in Hnd as [Hxk Hnd]. constructor; [by apply IH|].
  apply Forall_forall. intros y Hy.
  pose proof (proj1 (Forall_forall _ _) Hx y Hy).
  assert (x ≠ y) by (by intros ->). lia.
Qed.

Lemma elem_of_sorted_numbers (l : list Z) n :
  n ∈ sort_ascending (remove_dups l) ↔ n ∈ l.
Proof.
  unfold sort_ascending. by rewrite merge_sort_Permutation, elem_of_remove_dups.
Qed.

Global Instance valid_code_dec code : Decision (valid_code code).
Proof. unfold valid_code. apply _. Defined.

(** C2: after [sanitizeAssistantResponse], whatever the text and whatever
    the global held before, [collectedReferences] has no duplicate and is
    the list of the citations of the text in order of first appearance;
    every superscript block shows, for each of its citations, the 1-based
    position of that citation in this final list.  The number of a
    citation is thus the same at each of its occurrences, in one run or in
    several. *)
Theorem C2_first_seen_numbering (text : jsstring) (before : list detail) :
  let ps := pieces match_run (prepare text) 0 in
  let out := (sanitizeAssistantResponse text before).1 in
  let final := (sanitizeAssistantResponse text before).2 in
  NoDup final
  ∧ final = collect [] (cited ps)
  ∧ out = trim (linkReferences (numbered final ps))
  ∧ ∀ d, d ∈ cited ps →
      ∃ i : nat, number final d = (Z.of_nat i + 1)%Z ∧ final !! i = Some d.
Proof.
  cbn zeta. unfold sanitizeAssistantResponse.
  rewrite unify_numbered. cbn zeta. cbn [fst snd]. split_and!.
  - apply NoDup_collect, NoDup_nil_2.
  - done.
  - done.
  - intros d Hd. apply number_lookup, elem_of_collect. by right.
Qed.

(** C4: the code [constructor] is not a key of the reference table, yet
    the lookup finds the property that every object inherits and the
    fallback text is not used; two such codes get two different numbers. *)
Theorem C4_inherited_property_is_not_fallback :
  referenceDetailsMap !! lit "constructor" = None
  ∧ lookup_detail (lit "constructor") ≠ Text FALLBACK
  ∧ sanitizeAssistantResponse (marker (lit "constructor")) []
    = (lit "<sup>[1]</sup>", [Inherited (lit "constructor")])
  ∧ sanitizeAssistantResponse
      (marker (lit "constructor") ++ lit " and " ++ marker (lit "toString")) []
    = (lit "<sup>[1]</sup> and <sup>[2]</sup>",
       [Inherited (lit "constructor"); Inherited (lit "toString")]).
Proof. split_and!; [by vm_compute | by vm_compute | by vm_compute..]. Qed.

(** Outside the inherited names, an unknown code does resolve to the
    fallback text. *)
Lemma lookup_detail_unknown code :
  referenceDetailsMap !! code = None → code ∉ object_prototype_keys →
  lookup_detail code = Text FALLBACK.
Proof.
  intros E H. unfold lookup_detail.
  destruct (referenceDetailsMap !! code); [done|]. by case_decide.
Qed.

(** * Texts the passes leave alone *)

Definition has_markdown (text : jsstring) : bool :=
  occurs re_heading text || occurs re_bold text || occurs re_bracketed text.

Definition has_marker (text : jsstring) : bool := occurs re_run text.

Definition has_section_header (text : jsstring) : bool :=
  occurs (re_phrase "Question Asked") text
  || occurs (re_phrase "Extracted Insight") text
  || occurs (re_phrase "Document Section/Page") text
  || occurs (re_phrase "Confidence Score") text
  || occurs (re_phrase "Additional Notes") text.

Definition has_linkable_phrase (text : jsstring) : bool := occurs re_link text.

Lemma strip_unmatched m text : occurs m text = false → strip m text = text.
Proof. intros H. unfold strip. by apply replace_pure_unmatched. Qed.

Lemma embolden_unmatched phrase text :
  occurs (re_phrase phrase) text = false → embolden phrase text = text.
Proof. intros H. unfold embolden. by apply replace_pure_unmatched. Qed.

Lemma prepare_plain text :
  has_markdown text = false → has_section_header text = false → prepare text = text.
Proof.
  unfold has_markdown, has_section_header.
  intros [[H1 H2]%orb_false_elim H3]%orb_false_elim.
  intros [[[[P1 P2]%orb_false_elim P3]%orb_false_elim P4]%orb_false_elim P5]%orb_false_elim.
  unfold prepare.
  rewrite (strip_unmatched re_heading text H1).
  rewrite (strip_unmatched re_bold text H2).
  rewrite (strip_unmatched re_bracketed text H3).
  rewrite (embolden_unmatched _ text P1).
  rewrite (embolden_unmatched _ text P2).
  rewrite (embolden_unmatched _ text P3).
  rewrite (embolden_unmatched _ text P4).
  by rewrite (embolden_unmatched _ text P5).
Qed.

Lemma unify_unmatched text c :
  has_marker text = false → unifyConsecutiveReferences text c = (text, c).
Proof.
  intros H. unfold unifyConsecutiveReferences, match_run.
  by apply replace_all_unmatched.
Qed.

Lemma linkReferences_unmatched text :
  has_linkable_phrase text = false → linkReferences text = text.
Proof. intros H. unfold linkReferences. by apply replace_pure_unmatched. Qed.

(** ** A match survives when text is appended *)

Definition mono (k : cont) : Prop := ∀ s e, is_Some (k s) → is_Some (k (s ++ e)).

Lemma mono_end : mono re_end.
Proof. by intros s e _. Qed.

Lemma mono_chr f k : mono k → mono (re_chr f k).
Proof.
  intros Hk [|c s] e; [by intros [? ?]|].
  rewrite <-app_comm_cons. unfold re_chr. destruct (f c); [|done].
  rewrite !fmap_is_Some. apply Hk.
Qed.

Lemma mono_lit eqc p k : mono k → mono (re_lit eqc p k).
Proof. intros Hk. induction p as [|a p IH]; [done|]. by apply mono_chr. Qed.

Lemma re_star_fallback f k text : is_Some (k text) → is_Some (re_star f k text).
Proof.
  intros H. destruct text as [|c t]; [done|]. cbn [re_star].
  destruct (f c); [|done]. by destruct (re_star f k t).
Qed.

Lemma mono_star f k : mono k → mono (re_star f k).
Proof.
  intros Hk s. induction s as [|c s IH]; intros e H.
  - apply re_star_fallback. by apply (Hk []).
  - rewrite <-app_comm_cons. cbn [re_star] in *. destruct (f c).
    + destruct (re_star f k s) eqn:E.
      * destruct (IH e) as [n' ->]; [by eexists|]. by eexists.
      * destruct (re_star f k (s ++ e)); [by eexists|]. by apply (Hk (c :: s)).
    + by apply (Hk (c :: s)).
Qed.

Lemma mono_plus f k : mono k → mono (re_plus f k).
Proof. intros. by apply mono_chr, mono_star. Qed.

Lemma mono_alt (a b : cont → cont) k : mono (a k) → mono (b k) → mono (re_alt a b k).
Proof.
  intros Ha Hb s e. unfold re_alt. destruct (a k s) eqn:E.
  - intros _. destruct (Ha s e) as [n' ->]; [by eexists|]. by eexists.
  - intros H. destruct (a k (s ++ e)); [by eexists|]. by apply Hb.
Qed.

Lemma mono_opt (a : cont → cont) k : mono (a k) → mono k → mono (re_opt a k).
Proof. intros. by apply mono_alt. Qed.

Lemma mono_heading : mono re_heading.
Proof. apply mono_plus, mono_opt; [apply mono_chr|]; apply mono_end. Qed.

Lemma mono_bold : mono re_bold.
Proof. apply mono_lit, mono_end. Qed.

Lemma mono_bracketed : mono re_bracketed.
Proof. apply mono_chr, mono_star, mono_chr, mono_end. Qed.

Lemma mono_phrase phrase : mono (re_phrase phrase).
Proof. apply mono_lit, mono_end. Qed.

Lemma mono_link : mono re_link.
Proof.
  assert (mono (re_plus (is_not DASH)
      (re_lit eq_ci (lit " - Page ")
        (re_plus is_digit
          (re_opt
            (λ k, re_chr (is_chr COMMA)
                    (re_star is_space
                      (re_lit eq_ci (lit "Section ")
                        (re_plus (λ c, negb ((c =? RPAREN) || (c =? NEWLINE))) k))))
            re_end))))) as Hrest.
  { apply mono_plus, mono_lit, mono_plus, mono_opt; [|apply mono_end].
    apply mono_chr, mono_star, mono_lit, mono_plus, mono_end. }
  unfold re_link. apply mono_alt; [by apply mono_lit|].
  apply mono_alt; by apply mono_lit.
Qed.

Lemma span_eq f (text a b : jsstring) : span f text = (a, b) → text = a ++ b.
Proof.
  revert a b. induction text as [|c t IH]; intros a b; cbn [span].
  - by intros [= <- <-].
  - destruct (f c); [|by intros [= <- <-]].
    destruct (span f t) as [a' b']. intros [= <- <-]. by rewrite (IH a' b').
Qed.

Lemma span_fst_Forall f (text a b : jsstring) :
  span f text = (a, b) → Forall (λ x, f x = true) a.
Proof.
  revert a b. induction text as [|c t IH]; intros a b; cbn [span].
  - intros [= <- <-]. constructor.
  - destruct (f c) eqn:E; [|intros [= <- <-]; constructor].
    destruct (span f t) as [a' b']. intros [= <- <-]. constructor; eauto.
Qed.

Lemma strip_prefix_extend eqc p (text e r : jsstring) :
  strip_prefix eqc p text = Some r → strip_prefix eqc p (text ++ e) = Some (r ++ e).
Proof.
  revert text. induction p as [|a p IH]; intros text; cbn [strip_prefix].
  - by intros [= ->].
  - destruct text as [|c t]; [done|]. rewrite <-app_comm_cons.
    destruct (eqc a c); [apply IH | done].
Qed.

Lemma match_marker_Some_inv text code n :
  match_marker text = Some (code, n) →
  ∃ tail, text = LBRACKET :: code ++ DAGGER :: tail ∧ code ≠ []
          ∧ Forall (λ x, not_dagger x = true) code
          ∧ is_Some (strip_prefix N.eqb MARKER_TAIL (DAGGER :: tail)).
Proof.
  unfold match_marker. destruct text as [|c t]; [done|].
  destruct (c =? LBRACKET) eqn:Ec; [|done]. apply N.eqb_eq in Ec as ->.
  destruct (span not_dagger t) as [a rest] eqn:Es.
  destruct a as [|x a]; [done|].
  destruct (strip_prefix N.eqb MARKER_TAIL rest) as [r|] eqn:Et; [|done].
  intros [= <- <-].
  assert (∃ tail, rest = DAGGER :: tail) as [tail ->].
  { unfold MARKER_TAIL in Et. cbn [strip_prefix] in Et.
    destruct rest as [|d rest]; [done|].
    destruct (DAGGER =? d) eqn:Ed; [|done]. apply N.eqb_eq in Ed as <-. eauto. }
  exists tail. split_and!; [|done| |by rewrite Et].
  - f_equal. by apply span_eq in Es.
  - by apply span_fst_Forall in Es.
Qed.

Lemma mono_marker s e :
  is_Some (match_marker s) → is_Some (match_marker (s ++ e)).
Proof.
  intros [[code n] H].
  apply match_marker_Some_inv in H as (tail & -> & Hne & Hcode & [r Hr]).
  unfold match_marker. rewrite <-app_comm_cons, N.eqb_refl.
  rewrite <-(assoc app), <-app_comm_cons, span_stop by done.
  destruct code as [|x code]; [done|].
  rewrite app_comm_cons, (strip_prefix_extend _ _ _ e r) by done. by eexists.
Qed.

Lemma re_run_Some text : is_Some (re_run text) ↔ is_Some (match_marker text).
Proof.
  unfold re_run. destruct text as [|c t]; cbn [run_length].
  - split; intros [? ?]; done.
  - destruct (match_marker (c :: t)) as [[code n]|]; split; intros [? ?]; try done;
      by eexists.
Qed.

Lemma mono_run : mono re_run.
Proof. intros s e. rewrite !re_run_Some. apply mono_marker. Qed.

Lemma occurs_false_app_l m (s e : jsstring) :
  mono m → occurs m (s ++ e) = false → occurs m s = false.
Proof.
  intros Hm. induction s as [|c s IH]; intros H.
  - cbn [occurs]. destruct (m []) eqn:E; [|done].
    apply occurs_false_head in H. destruct (Hm [] e) as [n' E']; [by eexists|].
    congruence.
  - cbn [occurs]. destruct (m (c :: s)) eqn:E.
    + apply occurs_false_head in H. destruct (Hm (c :: s) e) as [n' E']; [by eexists|].
      congruence.
    + apply IH. by eapply occurs_false_tail.
Qed.

(** ** [trim] keeps a part of the text *)

Lemma trim_start_suffix text : ∃ ws, text = ws ++ trim_start text.
Proof.
  unfold trim_start. destruct (span is_space text) as [a b] eqn:E.
  exists a. by apply span_eq in E.
Qed.

Lemma trim_infix text : ∃ ws1 ws2, text = ws1 ++ trim text ++ ws2.
Proof.
  destruct (trim_start_suffix text) as [ws1 E1].
  destruct (trim_start_suffix (reverse (trim_start text))) as [ws2 E2].
  exists ws1, (reverse ws2). unfold trim. rewrite <-reverse_app, <-E2, reverse_involutive.
  done.
Qed.

Lemma occurs_false_trim m text :
  mono m → occurs m text = false → occurs m (trim text) = false.
Proof.
  intros Hm H. destruct (trim_infix text) as (ws1 & ws2 & E).
  rewrite E in H. apply occurs_false_app_r in H. by apply occurs_false_app_l in H.
Qed.

Lemma span_is_space_idem text :
  trim_start (trim_start text) = trim_start text.
Proof.
  unfold trim_start. induction text as [|c t IH]; [done|].
  cbn [span]. destruct (is_space c) eqn:E.
  - destruct (span is_space t) as [a b]. apply IH.
  - cbn [snd span]. by rewrite E.
Qed.

Definition starts_clean (text : jsstring) : Prop :=
  match text with
  | [] => True
  | c :: _ => is_space c = false
  end.

Lemma starts_clean_trim_start text : starts_clean (trim_start text).
Proof.
  unfold trim_start. induction text as [|c t IH]; [done|].
  cbn [span]. destruct (is_space c) eqn:E.
  - by destruct (span is_space t) as [a b].
  - done.
Qed.

Lemma trim_start_clean text : starts_clean text → trim_start text = text.
Proof.
  unfold trim_start. destruct text as [|c t]; [done|].
  cbn [starts_clean span]. by intros ->.
Qed.

Lemma starts_clean_app_l (p q : jsstring) : starts_clean (p ++ q) → starts_clean p.
Proof. by destruct p. Qed.

Lemma trim_idempotent text : trim (trim text) = trim text.
Proof.
  unfold trim.
  set (u := trim_start text). set (v := trim_start (reverse u)).
  assert (starts_clean (reverse v)) as Hv.
  { destruct (trim_start_suffix (reverse u)) as [ws E]. fold v in E.
    apply (starts_clean_app_l _ (reverse ws)).
    rewrite <-reverse_app, <-E, reverse_involutive. apply starts_clean_trim_start. }
  rewrite (trim_start_clean _ Hv), reverse_involutive.
  unfold v. by rewrite span_is_space_idem.
Qed.

(** * Texts without markers, and plain texts *)

(** Without a marker in the prepared text nothing is collected and no
    footnote appears. *)
Lemma sanitize_no_marker text before :
  has_marker (prepare text) = false →
  sanitizeAssistantResponse text before = (trim (linkReferences (prepare text)), []).
Proof.
  intros H. unfold sanitizeAssistantResponse. by rewrite unify_unmatched.
Qed.

(** A text in which no pass finds anything. *)
Definition is_plain (text : jsstring) : bool :=
  negb (has_markdown text || has_marker text
        || has_section_header text || has_linkable_phrase text).

Lemma is_plain_inv text :
  is_plain text = true →
  has_markdown text = false ∧ has_marker text = false
  ∧ has_section_header text = false ∧ has_linkable_phrase text = false.
Proof.
  unfold is_plain. rewrite negb_true_iff, !orb_false_iff. tauto.
Qed.

Lemma sanitize_plain text before :
  is_plain text = true → sanitizeAssistantResponse text before = (trim text, []).
Proof.
  intros (Hmd & Hmk & Hsh & Hlk)%is_plain_inv.
  rewrite sanitize_no_marker; rewrite prepare_plain by done; [|done].
  by rewrite linkReferences_unmatched.
Qed.

Lemma is_plain_trim text : is_plain text = true → is_plain (trim text) = true.
Proof.
  intros (Hmd & Hmk & Hsh & Hlk)%is_plain_inv.
  unfold is_plain, has_markdown, has_marker, has_section_header,
    has_linkable_phrase in *.
  apply orb_false_elim in Hmd as [[H1 H2]%orb_false_elim H3].
  apply orb_false_elim in Hsh as [Hsh P5].
  apply orb_false_elim in Hsh as [Hsh P4].
  apply orb_false_elim in Hsh as [Hsh P3].
  apply orb_false_elim in Hsh as [P1 P2].
  rewrite (occurs_false_trim _ text mono_heading H1).
  rewrite (occurs_false_trim _ text mono_bold H2).
  rewrite (occurs_false_trim _ text mono_bracketed H3).
  rewrite (occurs_false_trim _ text mono_run Hmk).
  rewrite (occurs_false_trim _ text (mono_phrase _) P1).
  rewrite (occurs_false_trim _ text (mono_phrase _) P2).
  rewrite (occurs_false_trim _ text (mono_phrase _) P3).
  rewrite (occurs_false_trim _ text (mono_phrase _) P4).
  rewrite (occurs_false_trim _ text (mono_phrase _) P5).
  by rewrite (occurs_false_trim _ text mono_link Hlk).
Qed.

(** The claim fails on a text that only holds a section header: the second
    pass wraps the header a second time. *)
Lemma C3_counterexample :
  has_markdown (lit "Question Asked") = false
  ∧ has_marker (lit "Question Asked") = false
  ∧ (sanitizeAssistantResponse (lit "Question Asked") []).1
    = lit "<strong>Question Asked</strong>"
  ∧ (sanitizeAssistantResponse
       (sanitizeAssistantResponse (lit "Question Asked") []).1 []).1
    = lit "<strong><strong>Question Asked</strong></strong>"
  ∧ (sanitizeAssistantResponse
       (sanitizeAssistantResponse (lit "Question Asked") []).1 []).1
    ≠ (sanitizeAssistantResponse (lit "Question Asked") []).1.
Proof. split_and!; by vm_compute. Qed.

(** C3 (amended): [sanitizeAssistantResponse] is idempotent on a text with
    no markdown marker, no reference marker, no section header phrase and
    no linkable phrase: the second application returns the string and the
    empty reference list of the first, which is the trimmed text. *)
Theorem C3_idempotent_on_plain_text (text : jsstring) (before before' : list detail) :
  is_plain text = true →
  sanitizeAssistantResponse (sanitizeAssistantResponse text before).1 before'
  = sanitizeAssistantResponse text before
  ∧ sanitizeAssistantResponse text before = (trim text, []).
Proof.
  intros H. rewrite (sanitize_plain text) by done. split; [|done]. cbn [fst].
  rewrite sanitize_plain by by apply is_plain_trim.
  by rewrite trim_idempotent.
Qed.

Lemma C3_idempotent_on_plain_text_witness :
  sanitizeAssistantResponse
    (sanitizeAssistantResponse (lit "  Rinse-off products need a warning. ") []).1 []
  = (lit "Rinse-off products need a warning.", []).
Proof.
  refine (eq_trans (proj1 (C3_idempotent_on_plain_text
    (lit "  Rinse-off products need a warning. ") [] [] _)) _).
  - vm_compute. reflexivity.
  - vm_compute. reflexivity.
Defined.

(** The claim fails on a text that holds no marker but in which removing
    the bold signs produces one. *)
Lemma C9_counterexample :
  has_marker (LBRACKET :: lit "4:8" ++ [DAGGER] ++ lit "sou**rce" ++ [RBRACKET]) = false
  ∧ sanitizeAssistantResponse
      (LBRACKET :: lit "4:8" ++ [DAGGER] ++ lit "sou**rce" ++ [RBRACKET]) []
    = (lit "<sup>[1]</sup>", [Text (lit "Page 12, Section 4.8")]).
Proof. split; by vm_compute. Qed.

(** C9 (amended): when the text has no reference marker once the markdown
    signs are removed and the section headers emboldened, the result is
    that prepared text with its phrases linked and its ends trimmed (the
    unification pass changes nothing, so no superscript is introduced) and
    [collectedReferences] is empty after the call. *)
Theorem C9_no_marker_no_footnote (text : jsstring) (before : list detail) :
  has_marker (prepare text) = false →
  sanitizeAssistantResponse text before = (trim (linkReferences (prepare text)), [])
  ∧ unifyConsecutiveReferences (prepare text) [] = (prepare text, []).
Proof.
  intros H. split; [by apply sanitize_no_marker | by apply unify_unmatched].
Qed.

Lemma C9_no_marker_no_footnote_witness :
  sanitizeAssistantResponse
    (lit "# Confidence score: **high** [draft] ") [Text (lit "Page 18, Section 2")]
  = (lit "<strong>Confidence score</strong>: high", []).
Proof.
  refine (eq_trans (proj1 (C9_no_marker_no_footnote
    (lit "# Confidence score: **high** [draft] ") [Text (lit "Page 18, Section 2")] _)) _).
  - vm_compute. reflexivity.
  - vm_compute. reflexivity.
Defined.

(** * A text without dagger has no marker after preparation *)

Lemma pieces_whole_within m text k :
  Forall (λ p, match p with
               | Keep c => c ∈ text
               | Hit x => x ⊆ text
               end) (pieces (whole m) text k).
Proof.
  revert k. induction text as [|c rest IH]; intros k; [constructor|].
  assert (∀ k', Forall (λ p, match p with
                             | Keep c0 => c0 ∈ c :: rest
                             | Hit x => x ⊆ c :: rest
                             end) (pieces (whole m) rest k')) as IH'.
  { intros k'. eapply Forall_impl; [apply IH|].
    intros [c0|x]; [by right | intros Hx y Hy; right; by apply Hx]. }
  cbn [pieces]. destruct k as [|k]; [|apply IH'].
  unfold whole at 1. destruct (m (c :: rest)) as [n|]; cbn.
  - assert (take n (c :: rest) ⊆ c :: rest) as Ht by apply subseteq_take.
    destruct n as [|n]; constructor; auto.
    constructor; [by left | apply IH'].
  - constructor; [by left | apply IH'].
Qed.

Lemma elem_of_substitute_pure (f : jsstring → jsstring) ps x :
  x ∈ (substitute (λ h (_ : unit), (f h, tt)) ps tt).1 →
  Exists (λ p, match p with
               | Keep c => x = c
               | Hit h => x ∈ f h
               end) ps.
Proof.
  induction ps as [|[c|h] ps IH]; cbn [substitute].
  - by intros ?%elem_of_nil.
  - destruct (substitute _ ps tt) as [out []]. cbn [fst] in *.
    intros [->|?]%elem_of_cons; [by left | right; auto].
  - destruct (substitute _ ps tt) as [out []]. cbn [fst] in *.
    intros [?|?]%elem_of_app; [by left | right; auto].
Qed.

Lemma elem_of_replace_pure m f text x :
  x ∈ replace_pure (whole m) f text →
  x ∈ text ∨ ∃ h, h ⊆ text ∧ x ∈ f h.
Proof.
  intros H%elem_of_substitute_pure.
  apply Exists_exists in H as (p & Hp & Hx).
  pose proof (proj1 (Forall_forall _ _) (pieces_whole_within m text 0) p Hp) as Hin.
  destruct p as [c|h]; [left; by subst | right; eauto].
Qed.

Lemma elem_of_strip m text x : x ∈ strip m text → x ∈ text.
Proof.
  intros [?|(h & _ & ?%elem_of_nil)]%elem_of_replace_pure; done.
Qed.

Lemma elem_of_embolden phrase text x :
  x ∈ embolden phrase text → x ∈ text ∨ x ∈ lit "<strong>" ∨ x ∈ lit "</strong>".
Proof.
  intros [?|(h & Hh & Hx)]%elem_of_replace_pure; [by left|].
  rewrite !elem_of_app in Hx. destruct Hx as [?|[?|?]]; auto.
Qed.

Lemma dagger_not_in_prepare text : DAGGER ∉ text → DAGGER ∉ prepare text.
Proof.
  intros H Hin. unfold prepare in Hin.
  repeat (apply elem_of_embolden in Hin as [Hin|[Hin|Hin]];
          [|by vm_compute in Hin; repeat (apply elem_of_cons in Hin as [?|Hin]; [done|]);
               apply elem_of_nil in Hin..]).
  by do 3 apply elem_of_strip in Hin.
Qed.

Lemma occurs_marker_dagger text : has_marker text = true → DAGGER ∈ text.
Proof.
  unfold has_marker. induction text as [|c t IH]; cbn [occurs].
  - by destruct (re_run []) eqn:E.
  - destruct (re_run (c :: t)) eqn:E; [intros _|intros ?; right; auto].
    destruct (proj1 (re_run_Some (c :: t))) as [[code k] Hm]; [by eexists|].
    apply match_marker_Some_inv in Hm as (tail & -> & _).
    right. apply elem_of_app. right. by left.
Qed.

(** In particular a text without the character [†] reaches the
    unification pass without marker. *)
Lemma dagger_free_no_marker text :
  DAGGER ∉ text → has_marker (prepare text) = false.
Proof.
  intros H. apply not_true_is_false. intros Hm%occurs_marker_dagger.
  by apply (dagger_not_in_prepare text).
Qed.

(** * Runs of markers through the whole annotator *)

(** The text a piece stands for. *)
Definition piece_text (p : piece jsstring) : jsstring :=
  match p with
  | Keep c => [c]
  | Hit x => x
  end.

(** The text a list of pieces stands for. *)
Definition pieces_text (ps : list (piece jsstring)) : jsstring :=
  mjoin (piece_text <$> ps).

(** The pieces of a search cover the text, in order and without overlap. *)
Lemma pieces_cover (m : cont) (text : jsstring) (skip : nat) :
  pieces_text (pieces (whole m) text skip) = drop skip text.
Proof.
  unfold pieces_text. revert skip. induction text as [|c rest IH]; intros skip.
  - by destruct skip.
  - cbn [pieces]. destruct skip as [|k]; [|by rewrite IH].
    unfold whole at 1. destruct (m (c :: rest)) as [[|n]|]; cbn [mbind option_bind].
    + csimpl. by rewrite IH.
    + csimpl. rewrite IH. by rewrite take_drop.
    + csimpl. by rewrite IH.
Qed.

Lemma pieces_text_app ps1 ps2 :
  pieces_text (ps1 ++ ps2) = pieces_text ps1 ++ pieces_text ps2.
Proof.
  unfold pieces_text. induction ps1 as [|p ps1 IH]; csimpl; [done|].
  by rewrite IH, (assoc app).
Qed.

Lemma pieces_text_hit x ps : pieces_text (Hit x :: ps) = x ++ pieces_text ps.
Proof. done. Qed.

(** A hit of a search is a match of the pattern at the place where it
    stands. *)
Lemma pieces_hit_inv (m : cont) (text : jsstring) (skip : nat) ps1 x ps2 :
  pieces (whole m) text skip = ps1 ++ Hit x :: ps2 →
  whole m (x ++ pieces_text ps2) = Some (x, length x) ∨
  ∃ n, m (x ++ pieces_text ps2) = Some n ∧ (length (x ++ pieces_text ps2) < n)%nat.
Proof.
  revert skip ps1. induction text as [|c rest IH]; intros skip ps1.
  { destruct skip, ps1; done. }
  cbn [pieces]. destruct skip as [|k]; [|apply IH].
  assert (∀ y n ps, whole m (c :: rest) = Some (y, n) →
            pieces_text ps = drop n (c :: rest) →
            whole m (y ++ pieces_text ps) = Some (y, length y) ∨
            ∃ n', m (y ++ pieces_text ps) = Some n'
                  ∧ (length (y ++ pieces_text ps) < n')%nat) as Hhere.
  { intros y n ps Hw Hps. unfold whole in Hw |- *.
    destruct (m (c :: rest)) as [n'|] eqn:Hm; [|done].
    cbn [mbind option_bind] in Hw. injection Hw as <- <-.
    rewrite Hps, take_drop, Hm. cbn [mbind option_bind].
    destruct (decide (n' ≤ length (c :: rest))%nat) as [Hle|Hgt].
    - left. by rewrite length_take_le.
    - right. exists n'. split; [done | lia]. }
  destruct (whole m (c :: rest)) as [[y [|n]]|] eqn:Hw.
  - destruct ps1 as [|p ps1]; intros E; simplify_eq/=.
    + apply (Hhere x O); [done|].
      change (pieces_text (Keep c :: pieces (whole m) rest 0))
        with (c :: pieces_text (pieces (whole m) rest 0)).
      by rewrite pieces_cover.
    + destruct ps1 as [|p' ps1]; simplify_eq/=. by eapply IH.
  - destruct ps1 as [|p ps1]; intros E; simplify_eq/=.
    + apply (Hhere x (S n)); [done|]. by rewrite pieces_cover.
    + by eapply IH.
  - destruct ps1 as [|p ps1]; intros E; simplify_eq/=. by eapply IH.
Qed.

(** A unit that a search keeps is one at which the pattern fails, when
    the pattern never matches the empty string. *)
Lemma pieces_keep_inv (m : cont) (text : jsstring) (skip : nat) ps1 c ps2 :
  (∀ t, m t ≠ Some O) →
  pieces (whole m) text skip = ps1 ++ Keep c :: ps2 →
  m (c :: pieces_text ps2) = None.
Proof.
  intros Hm. revert skip ps1. induction text as [|c0 rest IH]; intros skip ps1.
  { destruct skip, ps1; done. }
  cbn [pieces]. destruct skip as [|k]; [|apply IH].
  unfold whole at 1. destruct (m (c0 :: rest)) as [[|n]|] eqn:E; cbn [mbind option_bind].
  - by destruct (Hm (c0 :: rest)).
  - destruct ps1 as [|p ps1]; intros E'; simplify_eq/=. by eapply IH.
  - destruct ps1 as [|p ps1]; intros E'; simplify_eq/=.
    + by rewrite pieces_cover.
    + by eapply IH.
Qed.

(** ** What a hit of the run pattern is *)

Lemma strip_prefix_Some (p text r : jsstring) :
  strip_prefix N.eqb p text = Some r → text = p ++ r.
Proof.
  revert text. induction p as [|a p IH]; intros text; cbn [strip_prefix].
  - by intros [= ->].
  - destruct text as [|c t]; [done|]. destruct (a =? c) eqn:E; [|done].
    apply N.eqb_eq in E as ->. intros H. by rewrite (IH t H).
Qed.

(** A text that starts with a marker starts with [marker code] for a
    valid code. *)
Lemma match_marker_inv text code n :
  match_marker text = Some (code, n) →
  ∃ rest, text = marker code ++ rest ∧ valid_code code.
Proof.
  intros H. destruct (match_marker_Some_inv _ _ _ H) as (tail & -> & Hne & Hnd & [r Hr]).
  apply strip_prefix_Some in Hr. exists r. split.
  - unfold marker. by rewrite <-app_comm_cons, <-(assoc app), Hr.
  - split; [done|]. intros Hin.
    apply (proj1 (Forall_forall _ _) Hnd) in Hin. by vm_compute in Hin.
Qed.

(** Every text splits into the markers it starts with and a rest that
    starts with none. *)
Lemma leading_markers (text : jsstring) :
  ∃ codes post, Forall valid_code codes ∧ text = markers codes ++ post
                ∧ match_marker post = None.
Proof.
  remember (length text) as n eqn:Hn. revert text Hn.
  induction (lt_wf n) as [n _ IH]. intros text ->.
  destruct (match_marker text) as [[code k]|] eqn:E.
  - destruct (match_marker_inv _ _ _ E) as (rest & -> & Hv).
    destruct (IH (length rest)) with (text := rest) as (codes & post & Hvs & -> & Hp).
    { rewrite !length_app, length_marker. lia. }
    { done. }
    exists (code :: codes), post. split_and!; [by constructor| |done].
    by rewrite markers_cons, <-(assoc app).
  - exists [], text. by split_and!.
Qed.

Lemma match_run_inv text run n :
  match_run text = Some (run, n) →
  ∃ codes post, codes ≠ [] ∧ Forall valid_code codes ∧ run = markers codes
                ∧ n = length run ∧ text = run ++ post ∧ match_marker post = None.
Proof.
  destruct (leading_markers text) as (codes & post & Hv & -> & Hp).
  destruct codes as [|code codes].
  { by rewrite match_run_None. }
  rewrite match_run_markers by done. intros [= <- <-].
  by exists (code :: codes), post.
Qed.

Lemma re_run_pos text : re_run text ≠ Some O.
Proof. unfold re_run. by destruct (run_length text 0). Qed.

(** The hits of the unification pass are the maximal runs of markers, and
    no marker starts at a unit the pass keeps. *)
Lemma run_hit_inv text ps1 run ps2 :
  pieces match_run text 0 = ps1 ++ Hit run :: ps2 →
  text = pieces_text ps1 ++ run ++ pieces_text ps2
  ∧ (∃ codes, codes ≠ [] ∧ Forall valid_code codes ∧ run = markers codes)
  ∧ match_marker (pieces_text ps2) = None.
Proof.
  intros H. split_and!.
  - pose proof (pieces_cover re_run text 0) as Hc. fold match_run in Hc.
    rewrite H, pieces_text_app, pieces_text_hit in Hc. done.
  - apply pieces_hit_inv in H as [H|(n & H & Hn)].
    + destruct (match_run_inv _ _ _ H) as (codes & post & ? & ? & ? & _). by exists codes.
    + destruct (match_run_inv (run ++ pieces_text ps2) (take n (run ++ pieces_text ps2)) n)
        as (codes & post & _ & _ & _ & Hlen & _).
      { unfold match_run, whole. by rewrite H. }
      rewrite length_take in Hlen. lia.
  - apply pieces_hit_inv in H as [H|(n & H & Hn)].
    + destruct (match_run_inv _ _ _ H) as (codes & post & _ & _ & _ & _ & E & Hp).
      by apply app_inv_head in E as ->.
    + destruct (match_run_inv (run ++ pieces_text ps2) (take n (run ++ pieces_text ps2)) n)
        as (codes & post & _ & _ & _ & Hlen & _).
      { unfold match_run, whole. by rewrite H. }
      rewrite length_take in Hlen. lia.
Qed.

Lemma run_keep_inv text ps1 c ps2 :
  pieces match_run text 0 = ps1 ++ Keep c :: ps2 →
  match_marker (c :: pieces_text ps2) = None.
Proof.
  intros H. apply pieces_keep_inv in H; [|apply re_run_pos].
  destruct (match_marker (c :: pieces_text ps2)) eqn:E; [|done].
  destruct (proj2 (re_run_Some (c :: pieces_text ps2))) as [n Hn]; [by eexists|].
  by rewrite H in Hn.
Qed.

(** Two hits are never adjacent: the first would not be maximal. *)
Lemma run_hits_apart text ps0 r run ps2 :
  pieces match_run text 0 ≠ ps0 ++ Hit r :: Hit run :: ps2.
Proof.
  intros H.
  pose proof (run_hit_inv text ps0 r (Hit run :: ps2) H) as (_ & _ & Hp).
  rewrite pieces_text_hit in Hp.
  replace (ps0 ++ Hit r :: Hit run :: ps2) with ((ps0 ++ [Hit r]) ++ Hit run :: ps2) in H
    by by rewrite <-(assoc app).
  destruct (run_hit_inv text _ run ps2 H) as (_ & (codes & Hne & Hv & ->) & _).
  destruct Hv as [|code codes Hc _]; [done|].
  rewrite markers_cons, <-(assoc app), match_marker_marker in Hp by done. done.
Qed.

(** ** Where a linked phrase can end *)

(** What holds of every match of [k]: of the text it is tried on and of
    the number of units it consumes. *)
Definition ends (P : jsstring → nat → Prop) (k : cont) : Prop :=
  ∀ t n, k t = Some n → P t n.

(** [P] still holds when the match starts one unit earlier. *)
Definition extends (P : jsstring → nat → Prop) : Prop :=
  ∀ c t n, P t n → P (c :: t) (S n).

Lemma ends_chr P f k : extends P → ends P k → ends P (re_chr f k).
Proof.
  intros HP Hk [|c t] n; unfold re_chr; [done|].
  destruct (f c); [|done]. destruct (k t) as [n'|] eqn:E; [|done].
  intros [= <-]. by apply HP, Hk.
Qed.

Lemma ends_lit P eqc p k : extends P → ends P k → ends P (re_lit eqc p k).
Proof. intros HP Hk. induction p as [|a p IH]; [done|]. by apply ends_chr. Qed.

Lemma ends_star P f k : extends P → ends P k → ends P (re_star f k).
Proof.
  intros HP Hk t. induction t as [|c t IH]; intros n; cbn [re_star].
  - apply Hk.
  - destruct (f c); [|apply Hk].
    destruct (re_star f k t) as [n'|] eqn:E; [|apply Hk].
    intros [= <-]. by apply HP, IH.
Qed.

Lemma ends_plus P f k : extends P → ends P k → ends P (re_plus f k).
Proof. intros HP Hk. by apply ends_chr, ends_star. Qed.

Lemma ends_alt P (a b : cont → cont) k :
  ends P (a k) → ends P (b k) → ends P (re_alt a b k).
Proof.
  intros Ha Hb t n. unfold re_alt. destruct (a k t) as [n'|] eqn:E.
  - intros [= <-]. by apply Ha.
  - apply Hb.
Qed.

Lemma re_lit_app eqc (p q : jsstring) k :
  re_lit eqc (p ++ q) k = re_lit eqc p (re_lit eqc q k).
Proof. induction p as [|a p IH]; [done|]. cbn [app re_lit]. by rewrite IH. Qed.

(** The match stops in front of [)] or a line feed, or at the end of the
    text. *)
Definition ends_at_break (t : jsstring) (n : nat) : Prop :=
  match drop n t with
  | [] => True
  | c :: _ => c = RPAREN ∨ c = NEWLINE
  end.

(** The match ends with a space and the digits of a page number. *)
Definition ends_in_number (t : jsstring) (n : nat) : Prop :=
  ∃ y ds, take n t = y ++ 32 :: ds ∧ ds ≠ []
          ∧ Forall (λ c, is_digit c = true) ds.

Definition link_end (t : jsstring) (n : nat) : Prop :=
  ends_in_number t n ∨ ends_at_break t n.

Lemma extends_break : extends ends_at_break.
Proof. by intros c t n. Qed.

Lemma extends_link_end : extends link_end.
Proof.
  intros c t n [(y & ds & E & ? & ?)|H]; [left | by right].
  exists (c :: y), ds. split_and!; [|done..]. cbn [take]. by rewrite E.
Qed.

Definition not_break (c : N) : bool := negb ((c =? RPAREN) || (c =? NEWLINE)).

(** The section part of a linked phrase, [,\s*Section [^)\n]+]. *)
Definition re_section (k : cont) : cont :=
  re_chr (is_chr COMMA)
    (re_star is_space (re_lit eq_ci (lit "Section ") (re_plus not_break k))).

Lemma re_link_unfold :
  re_link =
  re_alt (re_lit eq_ci (lit "Refer to"))
    (re_alt (re_lit eq_ci (lit "See")) (re_lit eq_ci (lit "For")))
    (re_plus (is_not DASH)
      (re_lit eq_ci (lit " - Page ")
        (re_plus is_digit (re_opt re_section re_end)))).
Proof. reflexivity. Qed.

Lemma ends_section_run : ends ends_at_break (re_star not_break re_end).
Proof.
  intros t. induction t as [|c t IH]; intros n; cbn [re_star].
  - by intros [= <-].
  - destruct (not_break c) eqn:Hc.
    + destruct (re_star_fallback not_break re_end t) as [n' E]; [by eexists|].
      rewrite E. intros [= <-]. by apply extends_break, IH.
    + intros [= <-]. unfold ends_at_break. cbn [drop]. unfold not_break in Hc.
      apply negb_false_iff, orb_true_iff in Hc as [?%N.eqb_eq|?%N.eqb_eq]; auto.
Qed.

Lemma ends_section : ends ends_at_break (re_section re_end).
Proof.
  unfold re_section.
  apply ends_chr, ends_star, ends_lit, ends_chr, ends_section_run;
    apply extends_break.
Qed.

Definition digits_or_break (t : jsstring) (n : nat) : Prop :=
  Forall (λ c, is_digit c = true) (take n t) ∨ ends_at_break t n.

Lemma ends_page_tail : ends digits_or_break (re_opt re_section re_end).
Proof.
  apply ends_alt.
  - intros t n H. right. by apply ends_section.
  - intros t n [= <-]. left. constructor.
Qed.

Lemma ends_page_digits : ends digits_or_break (re_star is_digit (re_opt re_section re_end)).
Proof.
  intros t. induction t as [|c t IH]; intros n; cbn [re_star].
  - apply ends_page_tail.
  - destruct (is_digit c) eqn:Hc; [|apply ends_page_tail].
    destruct (re_star is_digit _ t) as [n'|] eqn:E; [|apply ends_page_tail].
    intros [= <-]. destruct (IH n' eq_refl) as [H|H].
    + left. cbn [take]. by constructor.
    + right. by apply extends_break.
Qed.

Lemma eq_ci_space c : eq_ci 32 c = true → c = 32.
Proof.
  unfold eq_ci, upcase. change ((97 <=? 32) && (32 <=? 122)) with false. cbv iota.
  destruct ((97 <=? c) && (c <=? 122)) eqn:E; intros H%N.eqb_eq; [|done].
  apply andb_prop in E as [?%N.leb_le ?%N.leb_le]. lia.
Qed.

Lemma ends_page :
  ends link_end
    (re_chr (eq_ci 32) (re_plus is_digit (re_opt re_section re_end))).
Proof.
  intros [|c [|d t]] n; unfold re_plus, re_chr; try done.
  { by destruct (eq_ci 32 c). }
  destruct (eq_ci 32 c) eqn:Hc; [|done]. apply eq_ci_space in Hc as ->.
  destruct (is_digit d) eqn:Hd; [|done].
  destruct (re_star is_digit _ t) as [n'|] eqn:E; [|done].
  intros [= <-]. destruct (ends_page_digits t n' E) as [H|H].
  - left. exists [], (d :: take n' t). split_and!; [done..|]. by constructor.
  - right. by apply extends_break, extends_break.
Qed.

(** A linked phrase ends with the digits of its page number, or it runs
    to the next [)], line feed or end of the text. *)
Lemma ends_link : ends link_end re_link.
Proof.
  rewrite re_link_unfold.
  assert (ends link_end
    (re_plus (is_not DASH)
      (re_lit eq_ci (lit " - Page ")
        (re_plus is_digit (re_opt re_section re_end))))) as Hk.
  { apply ends_plus; [apply extends_link_end|].
    change (lit " - Page ") with (lit " - Page" ++ [32]).
    rewrite re_lit_app. apply ends_lit; [apply extends_link_end|].
    apply ends_page. }
  repeat apply ends_alt; by apply ends_lit; [apply extends_link_end|].
Qed.

(** A linked phrase starts with one of the three words. *)
Lemma re_link_head c t :
  is_Some (re_link (c :: t)) →
  upcase c = 82 ∨ upcase c = 70
  ∨ (upcase c = 83 ∧ ∃ d t', t = d :: t' ∧ upcase d = 69).
Proof.
  rewrite re_link_unfold. unfold re_alt.
  set (k := re_plus _ _).
  change (lit "Refer to") with (82 :: lit "efer to").
  change (lit "See") with (83 :: 101 :: lit "e").
  change (lit "For") with (70 :: lit "or").
  cbn [re_lit]. unfold re_chr at 1.
  destruct (eq_ci 82 c) eqn:E1.
  { intros _. left. unfold eq_ci in E1. by apply N.eqb_eq in E1 as <-. }
  unfold re_chr at 1.
  destruct (eq_ci 83 c) eqn:E2.
  { unfold eq_ci in E2. apply N.eqb_eq in E2.
    destruct t as [|d t'].
    - unfold re_chr at 1. unfold re_chr at 1.
      destruct (eq_ci 70 c) eqn:E3; [|by intros [? ?]].
      intros _. right. left. unfold eq_ci in E3. by apply N.eqb_eq in E3 as <-.
    - unfold re_chr at 1. destruct (eq_ci 101 d) eqn:E4.
      + intros _. right. right. split; [done|]. exists d, t'. split; [done|].
        unfold eq_ci in E4. by apply N.eqb_eq in E4 as <-.
      + unfold re_chr at 1. destruct (eq_ci 70 c) eqn:E3; [|by intros [? ?]].
        intros _. right. left. unfold eq_ci in E3. by apply N.eqb_eq in E3 as <-. }
  unfold re_chr at 1. destruct (eq_ci 70 c) eqn:E3; [|by intros [? ?]].
  intros _. right. left. unfold eq_ci in E3. by apply N.eqb_eq in E3 as <-.
Qed.

Lemma lit_small s x : x ∈ lit s → x < 256.
Proof.
  induction s as [|a s IH]; cbn [lit]; [by intros ?%elem_of_nil|].
  intros [->|?]%elem_of_cons; [apply N_ascii_bounded | auto].
Qed.

Lemma join_small sep parts x :
  x ∈ join sep parts → x ∈ sep ∨ ∃ p, p ∈ parts ∧ x ∈ p.
Proof.
  induction parts as [|p [|q parts] IH]; cbn [join].
  - by intros ?%elem_of_nil.
  - intros H. right. exists p. split; [by left | done].
  - intros [?|[?|H]%elem_of_app]%elem_of_app.
    + right. exists p. split; [by left | done].
    + by left.
    + destruct (IH H) as [?|(p' & Hp' & ?)]; [by left|].
      right. exists p'. split; [by right | done].
Qed.


(** ** The units of a footnote block *)

Lemma pretty_N_char_digit (y : N) : is_digit (N_of_ascii (pretty_N_char y)) = true.
Proof. unfold pretty_N_char. by repeat case_match. Qed.

Lemma pretty_N_go_units (x : N) (s : string) (c : N) :
  c ∈ lit (pretty_N_go x s) → c ∈ lit s ∨ is_digit c = true.
Proof.
  revert s. induction (N.lt_wf_0 x) as [x _ IH]; intros s.
  destruct (decide (x = 0)) as [->|Hx].
  - rewrite pretty_N_go_0. by left.
  - rewrite pretty_N_go_step by lia. intros H.
    apply IH in H as [H|H]; [|by right|apply N.div_lt; lia].
    cbn [lit] in H. apply elem_of_cons in H as [->|H]; [|by left].
    right. apply pretty_N_char_digit.
Qed.

Lemma pretty_N_units (x : N) (c : N) : c ∈ lit (pretty x) → is_digit c = true.
Proof.
  unfold pretty, pretty_N. case_decide as Hx.
  - by intros ->%list_elem_of_singleton.
  - intros [Hc|Hc]%pretty_N_go_units; [|done]. by apply elem_of_nil in Hc.
Qed.

(** A decimal numeral consists of digits, after a possible sign. *)
Lemma decimal_units (z : Z) (c : N) : c ∈ decimal z → is_digit c = true ∨ c = DASH.
Proof.
  unfold decimal. destruct z as [|p|p].
  - intros ->%list_elem_of_singleton. by left.
  - intros H. left. by apply (pretty_N_units (Npos p)).
  - change (pretty (Z.neg p)) with (String "-" (pretty (Npos p))). cbn [lit].
    intros [->|H]%elem_of_cons; [by right|]. left. by apply (pretty_N_units (Npos p)).
Qed.

(** The units between the brackets of a block. *)
Definition plain (c : N) : bool := is_digit c || (c =? COMMA) || (c =? DASH).

Lemma join_decimal_plain (l : list Z) :
  Forall (λ c, plain c = true) (join (lit ",") (decimal <$> l)).
Proof.
  apply Forall_forall. intros c Hc. unfold plain.
  apply join_small in Hc as [Hc|(p & (z & -> & _)%list_elem_of_fmap & Hc)].
  - apply list_elem_of_singleton in Hc as ->. done.
  - apply decimal_units in Hc as [->| ->]; [done|]. by rewrite orb_true_r.
Qed.

(** ** A footnote block survives the linking pass *)

(** A unit at which no linked phrase can start, whatever follows. *)
Definition inert_unit (c : N) : bool :=
  negb (upcase c =? 82) && negb (upcase c =? 70) && negb (upcase c =? 83).

(** No linked phrase starts inside the text: no unit is an [R] or an [F],
    and an [S] is followed, inside the text, by a unit that is no [E]. *)
Fixpoint inert (s : jsstring) : bool :=
  match s with
  | [] => true
  | c :: t =>
    (inert_unit c
     || ((upcase c =? 83)
         && match t with d :: _ => negb (upcase d =? 69) | [] => false end))
    && inert t
  end.

Lemma inert_skip c t : inert_unit c = true → inert (c :: t) = inert t.
Proof. intros H. cbn [inert]. by rewrite H. Qed.

Lemma inert_s d t : (upcase d =? 69) = false → inert (115 :: d :: t) = inert (d :: t).
Proof.
  intros H. cbn [inert]. rewrite H.
  change (inert_unit 115) with false. change (upcase 115 =? 83) with true. done.
Qed.

Lemma plain_inert_unit c : plain c = true → inert_unit c = true.
Proof.
  unfold plain, is_digit, inert_unit, upcase. intros H.
  assert (c ≤ 57) as Hc.
  { apply orb_prop in H as [[H|H]%orb_prop|H].
    - apply andb_prop in H as [_ H]. by apply N.leb_le in H.
    - apply N.eqb_eq in H as ->. by vm_compute.
    - apply N.eqb_eq in H as ->. by vm_compute. }
  assert ((97 <=? c) = false) as -> by (apply N.leb_gt; lia). cbn [andb].
  assert ((c =? 82) = false) as -> by (apply N.eqb_neq; lia).
  assert ((c =? 70) = false) as -> by (apply N.eqb_neq; lia).
  assert ((c =? 83) = false) as -> by (apply N.eqb_neq; lia). done.
Qed.

Lemma inert_plain mid t :
  Forall (λ c, plain c = true) mid → inert (mid ++ t) = inert t.
Proof.
  induction 1 as [|c mid Hc _ IH]; [done|].
  rewrite <-app_comm_cons, inert_skip by by apply plain_inert_unit. done.
Qed.

Lemma inert_suffix s0 s : inert (s0 ++ s) = true → inert s = true.
Proof.
  induction s0 as [|c s0 IH]; [done|]. rewrite <-app_comm_cons. cbn [inert].
  intros [_ H]%andb_prop. by apply IH.
Qed.

Lemma inert_sound s b : inert s = true → s ≠ [] → re_link (s ++ b) = None.
Proof.
  destruct s as [|c s]; [done|]. cbn [inert]. intros [H _]%andb_prop _.
  destruct (re_link ((c :: s) ++ b)) as [n|] eqn:E; [|done]. exfalso.
  rewrite <-app_comm_cons in E.
  destruct (re_link_head c (s ++ b)) as [Hc|[Hc|(Hc & d & t' & Hd & He)]];
    [by eexists|..].
  - unfold inert_unit in H. rewrite Hc in H. by destruct s as [|? ?].
  - unfold inert_unit in H. rewrite Hc in H.
    change (70 =? 82) with false in H. change (70 =? 70) with true in H.
    change (70 =? 83) with false in H. by destruct s as [|? ?].
  - unfold inert_unit in H. rewrite Hc in H.
    change (83 =? 82) with false in H. change (83 =? 70) with false in H.
    change (83 =? 83) with true in H. cbn [negb andb orb] in H.
    destruct s as [|d' s]; [done|]. rewrite <-app_comm_cons in Hd.
    injection Hd as -> _. rewrite He in H. done.
Qed.

(** A unit that ends no page number and no section of a linked phrase. *)
Definition tight (c : N) : bool :=
  negb (c =? 32) && negb (c =? RPAREN) && negb (c =? NEWLINE).

(** The blocks of the unification pass. *)
Definition is_footnote (blk : jsstring) : Prop :=
  ∃ mid, blk = lit "<sup>[" ++ mid ++ lit "]</sup>"
         ∧ Forall (λ c, plain c = true) mid.

Lemma footnote_is_footnote collected ds : is_footnote (footnote collected ds).
Proof. eexists. split; [done|]. apply join_decimal_plain. Qed.

Lemma footnote_inert blk : is_footnote blk → inert blk = true.
Proof.
  intros (mid & -> & Hmid).
  change (lit "<sup>[") with [60; 115; 117; 112; 62; 91].
  cbn [app]. rewrite inert_skip, inert_s, !inert_skip by reflexivity.
  rewrite inert_plain by done. by vm_compute.
Qed.

Lemma plain_tight c : plain c = true → tight c = true.
Proof.
  unfold plain, is_digit, tight, RPAREN, NEWLINE, COMMA, DASH. intros H.
  assert (44 ≤ c) as Hc.
  { apply orb_prop in H as [[H|H]%orb_prop|H].
    - apply andb_prop in H as [H _]. apply N.leb_le in H. lia.
    - apply N.eqb_eq in H as ->. by vm_compute.
    - apply N.eqb_eq in H as ->. by vm_compute. }
  assert ((c =? 32) = false) as -> by (apply N.eqb_neq; lia).
  assert ((c =? 41) = false) as -> by (apply N.eqb_neq; lia).
  assert ((c =? 10) = false) as -> by (apply N.eqb_neq; lia). done.
Qed.

Lemma footnote_tight blk : is_footnote blk → Forall (λ c, tight c = true) blk.
Proof.
  intros (mid & -> & Hmid). apply Forall_app. split; [|apply Forall_app; split].
  - by repeat constructor.
  - eapply Forall_impl; [done|]. apply plain_tight.
  - by repeat constructor.
Qed.

Lemma footnote_head blk : is_footnote blk → ∃ t, blk = 60 :: t.
Proof. intros (mid & -> & _). by eexists. Qed.

Lemma footnote_last blk : is_footnote blk → ∃ t, reverse blk = 62 :: t.
Proof.
  intros (mid & -> & _). rewrite !reverse_app.
  change (reverse (lit "]</sup>")) with (62 :: reverse (lit "]</sup")).
  rewrite <-app_comm_cons. by eexists.
Qed.

(** No match of the link pattern ends inside a block. *)
Lemma link_end_outside blk a b n :
  is_footnote blk → link_end (a ++ blk ++ b) n →
  (n ≤ length a ∨ length a + length blk ≤ n)%nat.
Proof.
  intros Hblk Hend.
  destruct (decide (n ≤ length a)%nat) as [|Ha]; [by left|].
  destruct (decide (length a + length blk ≤ n)%nat) as [|Hb]; [by right|].
  exfalso. pose proof (footnote_tight blk Hblk) as Htight.
  destruct (footnote_head blk Hblk) as [t0 Ht0].
  assert (∀ i c, (length a ≤ i < length a + length blk)%nat →
                 (a ++ blk ++ b) !! i = Some c → tight c = true) as Hin.
  { intros i c Hi. rewrite lookup_app_r by lia. rewrite lookup_app_l by lia.
    intros Hc. by apply (Forall_lookup_1 _ _ _ _ Htight Hc). }
  destruct Hend as [(y & ds & E & Hne & Hds)|Hbreak].
  - assert (length (take n (a ++ blk ++ b)) = n) as Hlen.
    { rewrite length_take, !length_app. lia. }
    rewrite E, length_app in Hlen. cbn [length] in Hlen.
    assert (∀ i, (i < n)%nat → (a ++ blk ++ b) !! i = (y ++ 32 :: ds) !! i) as Hsame.
    { intros i Hi. by rewrite <-E, lookup_take_lt. }
    destruct (decide (length a ≤ length y)%nat) as [Hy|Hy].
    + specialize (Hin (length y) 32). rewrite Hsame in Hin by lia.
      rewrite list_lookup_middle in Hin by done.
      by specialize (Hin ltac:(lia) eq_refl).
    + specialize (Hsame (length a) ltac:(lia)).
      rewrite lookup_app_r, Nat.sub_diag, Ht0 in Hsame by lia. cbn in Hsame.
      rewrite lookup_app_r in Hsame by lia.
      destruct (length a - length y)%nat as [|j] eqn:Ej; [lia|]. cbn in Hsame.
      symmetry in Hsame. apply (Forall_lookup_1 _ _ _ _ Hds) in Hsame. done.
  - unfold ends_at_break in Hbreak.
    destruct (drop n (a ++ blk ++ b)) as [|c rest] eqn:Ed.
    { apply (f_equal length) in Ed. rewrite length_drop, !length_app in Ed.
      cbn [length] in Ed. lia. }
    assert ((a ++ blk ++ b) !! n = Some c) as Hc.
    { rewrite <-(Nat.add_0_r n), <-lookup_drop, Ed. done. }
    apply Hin in Hc; [|lia]. unfold tight in Hc.
    destruct Hbreak as [-> | ->]; by vm_compute in Hc.
Qed.

Lemma substitute_pure_join (f : jsstring → jsstring) ps :
  (substitute (λ x (_ : unit), (f x, tt)) ps tt).1
  = mjoin ((λ p, match p with Keep c => [c] | Hit x => f x end) <$> ps).
Proof.
  induction ps as [|[c|x] ps IH]; [done|..]; cbn [substitute];
    destruct (substitute _ ps tt) as [out []]; csimpl; cbn [fst] in IH; by rewrite IH.
Qed.

Lemma mjoin_cons {A} (x : list A) (l : list (list A)) : mjoin (x :: l) = x ++ mjoin l.
Proof. done. Qed.

(** A replacement that wraps what it replaces keeps a stretch of the text
    in one piece, when no match starts or ends inside the stretch. *)
Lemma replace_pure_keeps (m : cont) (f : jsstring → jsstring) (blk : jsstring) :
  (∀ x, ∃ u v, f x = u ++ x ++ v) →
  (∀ s0 s b, blk = s0 ++ s → s ≠ [] → m (s ++ b) = None) →
  (∀ a b n, m (a ++ blk ++ b) = Some n →
            (n ≤ length a ∨ length a + length blk ≤ n)%nat) →
  ∀ a b, ∃ a' b', replace_pure (whole m) f (a ++ blk ++ b) = a' ++ blk ++ b'.
Proof.
  intros Hf Hstart Hend a b. unfold replace_pure, replace_all.
  rewrite substitute_pure_join.
  remember (λ p : piece jsstring, match p with Keep c => [c] | Hit x => f x end)
    as out eqn:Hout.
  assert (∀ c, out (Keep c) = [c]) as Hk by (by rewrite Hout).
  assert (∀ x, out (Hit x) = f x) as Hh by (by rewrite Hout).
  clear Hout.
  assert (∀ s0 s, blk = s0 ++ s →
            mjoin (out <$> pieces (whole m) (s ++ b) 0)
            = s ++ mjoin (out <$> pieces (whole m) b 0)) as Hblk.
  { intros s0 s. revert s0. induction s as [|c s IH]; intros s0 E; [done|].
    rewrite <-app_comm_cons, pieces_miss.
    - rewrite fmap_cons, mjoin_cons, Hk. cbn [app]. f_equal.
      apply (IH (s0 ++ [c])). by rewrite <-(assoc app).
    - apply whole_None. rewrite app_comm_cons. by apply (Hstart s0). }
  assert (∀ skip, (skip ≤ length a)%nat →
            ∃ a' b', mjoin (out <$> pieces (whole m) (a ++ blk ++ b) skip)
                     = a' ++ blk ++ b') as H; [|by apply (H O), Nat.le_0_l].
  induction a as [|c a IH]; intros skip Hskip.
  - destruct skip; [|cbn in Hskip; lia].
    exists [], (mjoin (out <$> pieces (whole m) b 0)). by apply (Hblk []).
  - rewrite <-app_comm_cons. cbn [pieces]. destruct skip as [|k].
    2:{ apply IH. cbn in Hskip. lia. }
    unfold whole at 1.
    destruct (m (c :: a ++ blk ++ b)) as [[|n]|] eqn:E; cbn [mbind option_bind].
    + destruct (IH O (Nat.le_0_l _)) as (a' & b' & Hn).
      rewrite !fmap_cons, !mjoin_cons, Hk, Hh, Hn.
      exists (f (take 0 (c :: a ++ blk ++ b)) ++ c :: a'), b'.
      by rewrite <-(assoc app).
    + rewrite fmap_cons, mjoin_cons, Hh.
      destruct (Hend (c :: a) b (S n) E) as [Hle|Hge].
      * destruct (IH n) as (a' & b' & Hn); [cbn in Hle; lia|]. rewrite Hn.
        exists (f (take (S n) (c :: a ++ blk ++ b)) ++ a'), b'.
        by rewrite <-(assoc app).
      * destruct (Hf (take (S n) (c :: a ++ blk ++ b))) as (u & v & Hx).
        assert (take (S n) (c :: a ++ blk ++ b)
                = (c :: a) ++ blk ++ take (S n - length (c :: a) - length blk) b) as Ht.
        { rewrite app_comm_cons, take_app_ge by lia.
          rewrite take_app_ge by lia. done. }
        rewrite Hx, Ht.
        eexists (u ++ c :: a), _. rewrite <-!(assoc app). done.
    + destruct (IH O (Nat.le_0_l _)) as (a' & b' & Hn).
      rewrite fmap_cons, mjoin_cons, Hk, Hn. by exists (c :: a'), b'.
Qed.

Lemma link_anchor_wraps x : ∃ u v, link_anchor x = u ++ x ++ v.
Proof. unfold link_anchor. eexists _, _. rewrite !(assoc app). done. Qed.

(** The linking pass leaves every block as it is, inside or outside a
    link. *)
Lemma linkReferences_keeps_block blk a b :
  is_footnote blk → ∃ a' b', linkReferences (a ++ blk ++ b) = a' ++ blk ++ b'.
Proof.
  intros Hblk. unfold linkReferences.
  refine (replace_pure_keeps re_link link_anchor blk _ _ _ a b).
  - apply link_anchor_wraps.
  - intros s0 s b0 E Hs. apply inert_sound; [|done].
    apply (inert_suffix s0). rewrite <-E. by apply footnote_inert.
  - intros a0 b0 n E. apply (link_end_outside blk a0 b0 n); [done|].
    by apply ends_link.
Qed.

(** ** A footnote block survives the trimming *)

Lemma trim_start_keeps a c t b :
  is_space c = false → ∃ a', trim_start (a ++ (c :: t) ++ b) = a' ++ (c :: t) ++ b.
Proof.
  intros Hc. induction a as [|x a [a' IH]].
  - exists []. unfold trim_start. cbn [app span]. by rewrite Hc.
  - unfold trim_start in *. rewrite <-app_comm_cons. cbn [span].
    destruct (is_space x).
    + destruct (span is_space (a ++ (c :: t) ++ b)) as [ws rest]. by exists a'.
    + by exists (x :: a).
Qed.

Lemma trim_keeps_block blk a b :
  is_footnote blk → ∃ a' b', trim (a ++ blk ++ b) = a' ++ blk ++ b'.
Proof.
  intros Hblk. destruct (footnote_head blk Hblk) as [t Ht].
  destruct (footnote_last blk Hblk) as [t' Ht']. unfold trim.
  destruct (trim_start_keeps a 60 t b eq_refl) as [a' Ea]. rewrite <-Ht in Ea.
  rewrite Ea.
  assert (reverse (a' ++ blk ++ b) = reverse b ++ (62 :: t') ++ reverse a') as ->.
  { by rewrite !reverse_app, Ht', <-(assoc app). }
  destruct (trim_start_keeps (reverse b) 62 t' (reverse a') eq_refl) as [b' ->].
  exists a', (reverse b'). rewrite <-Ht'.
  by rewrite !reverse_app, !reverse_involutive, <-(assoc app).
Qed.

Lemma numbered_app final ps1 ps2 :
  numbered final (ps1 ++ ps2) = numbered final ps1 ++ numbered final ps2.
Proof.
  induction ps1 as [|[c|x] ps1 IH]; [done|..].
  - rewrite <-app_comm_cons, !numbered_keep, IH. done.
  - rewrite <-app_comm_cons, !numbered_hit, IH. by rewrite (assoc app).
Qed.

(** ** The runs of a text and their blocks *)

Lemma cited_app ps1 ps2 : cited (ps1 ++ ps2) = cited ps1 ++ cited ps2.
Proof.
  induction ps1 as [|[c|x] ps1 IH]; [done|..].
  - by rewrite <-app_comm_cons, !cited_keep.
  - by rewrite <-app_comm_cons, !cited_hit, IH, (assoc app).
Qed.

(** The claim fails on the text as it is given: the markdown passes run
    before the markers are searched.  A run inside square brackets is
    deleted with them and leaves neither a block nor a reference; two
    runs that only a bold sign separates are replaced by one block. *)
Lemma C1_counterexample :
  hits (pieces match_run (lit "x [" ++ marker (lit "4:8") ++ lit "] y") 0)
  = [marker (lit "4:8")]
  ∧ sanitizeAssistantResponse (lit "x [" ++ marker (lit "4:8") ++ lit "] y") []
    = (lit "x  y", [])
  ∧ hits (pieces match_run (marker (lit "4:8") ++ lit "**" ++ marker (lit "4:14")) 0)
    = [marker (lit "4:8"); marker (lit "4:14")]
  ∧ sanitizeAssistantResponse (marker (lit "4:8") ++ lit "**" ++ marker (lit "4:14")) []
    = (lit "<sup>[1,2]</sup>",
       [Text (lit "Page 12, Section 4.8"); Text (lit "Page 18, Section 2")]).
Proof. split_and!; by vm_compute. Qed.

(** C1 (amended): the runs are those of the text as it stands after the
    markdown and header passes.  Each hit [run] of the run pattern in
    that text is a maximal run of markers: it is the markers of its codes,
    no marker follows it, no other hit stands right before it, and no
    marker starts at a unit outside the hits.  The annotator replaces the
    run by one block [<sup>[...]</sup>] that lists, separated by commas,
    without duplicates and in strictly ascending order, the 1-based
    positions in [collectedReferences] of the citations its codes resolve
    to; the linking and trimming passes leave the block as it is.  On the
    sample text the two adjacent markers 4:8 and 4:14 become
    [<sup>[1,2]</sup>] and the collected references are the two citations
    in that order. *)
Theorem C1_run_becomes_footnote (text : jsstring) (before : list detail)
    (ps1 ps2 : list (piece jsstring)) (run : jsstring) :
  pieces match_run (prepare text) 0 = ps1 ++ Hit run :: ps2 →
  let final := (sanitizeAssistantResponse text before).2 in
  let codes := exec_all run in
  let ds := lookup_detail <$> codes in
  let shown := sort_ascending (remove_dups (number final <$> ds)) in
  let block := lit "<sup>[" ++ join (lit ",") (decimal <$> shown) ++ lit "]</sup>" in
  prepare text = pieces_text ps1 ++ run ++ pieces_text ps2
  ∧ codes ≠ [] ∧ Forall valid_code codes ∧ run = markers codes
  ∧ match_marker (pieces_text ps2) = None
  ∧ (∀ ps0 r, ps1 ≠ ps0 ++ [Hit r])
  ∧ (∀ q1 c q2, pieces match_run (prepare text) 0 = q1 ++ Keep c :: q2 →
                match_marker (c :: pieces_text q2) = None)
  ∧ (sanitizeAssistantResponse text before).1
    = trim (linkReferences (numbered final ps1 ++ block ++ numbered final ps2))
  ∧ (∃ a b, (sanitizeAssistantResponse text before).1 = a ++ block ++ b)
  ∧ StronglySorted Z.lt shown
  ∧ (∀ n, n ∈ shown ↔ ∃ d, d ∈ ds ∧ n = number final d)
  ∧ (∀ d, d ∈ ds → ∃ i : nat, number final d = (Z.of_nat i + 1)%Z ∧ final !! i = Some d)
  ∧ sanitizeAssistantResponse
      (lit "Labels list ingredients" ++ marker (lit "4:8") ++ marker (lit "4:14") ++ lit ".") []
    = (lit "Labels list ingredients<sup>[1,2]</sup>.",
       [Text (lit "Page 12, Section 4.8"); Text (lit "Page 18, Section 2")]).
Proof.
  intros Hps final codes ds shown block.
  destruct (run_hit_inv _ _ _ _ Hps) as (Htext & (codes' & Hne & Hv & Hrun) & Hpost).
  assert (codes = codes') as Hcodes.
  { unfold codes. by rewrite Hrun, exec_all_markers. }
  assert (sanitizeAssistantResponse text before
          = (trim (linkReferences
                     (numbered (collect [] (cited (pieces match_run (prepare text) 0)))
                        (pieces match_run (prepare text) 0))),
             collect [] (cited (pieces match_run (prepare text) 0)))) as Hsan.
  { unfold sanitizeAssistantResponse. by rewrite unify_numbered. }
  assert (final = collect [] (cited (pieces match_run (prepare text) 0))) as Hfinal.
  { unfold final. by rewrite Hsan. }
  assert (block = footnote final ds) as Hblock by done.
  assert ((sanitizeAssistantResponse text before).1
          = trim (linkReferences (numbered final ps1 ++ block ++ numbered final ps2)))
    as Hout.
  { rewrite Hblock, Hfinal, Hsan. cbn [fst]. rewrite Hps at 2.
    by rewrite numbered_app, numbered_hit. }
  split_and!.
  - done.
  - by rewrite Hcodes.
  - by rewrite Hcodes.
  - by rewrite Hcodes.
  - done.
  - intros ps0 r ->. rewrite <-(assoc app) in Hps.
    by destruct (run_hits_apart (prepare text) ps0 r run ps2).
  - intros q1 c q2. apply run_keep_inv.
  - done.
  - rewrite Hout.
    assert (is_footnote block) as Hblk by apply (footnote_is_footnote final ds).
    destruct (linkReferences_keeps_block block (numbered final ps1) (numbered final ps2) Hblk)
      as (a & b & ->).
    by apply trim_keeps_block.
  - apply sorted_numbers.
  - intros n. unfold shown. rewrite elem_of_sorted_numbers, list_elem_of_fmap.
    split; intros (d & ? & ?); eauto.
  - intros d Hd. apply number_lookup. rewrite Hfinal. apply elem_of_collect. right.
    rewrite Hps, cited_app, cited_hit. apply elem_of_app. right.
    apply elem_of_app. by left.
  - vm_compute. reflexivity.
Qed.

Lemma C1_run_becomes_footnote_witness :
  (sanitizeAssistantResponse
     (lit "**a**" ++ markers [lit "4:14"; lit "9:9"; lit "4:14"] ++ lit "b [c]"
      ++ marker (lit "4:8"))
     [Text (lit "stale")]).1
  = lit "a<sup>[1,2]</sup>b <sup>[3]</sup>".
Proof.
  refine (eq_trans (proj1 (proj2 (proj2 (proj2 (proj2 (proj2 (proj2 (proj2
    (C1_run_becomes_footnote
       (lit "**a**" ++ markers [lit "4:14"; lit "9:9"; lit "4:14"] ++ lit "b [c]"
        ++ marker (lit "4:8"))
       [Text (lit "stale")]
       [Keep 97] [Keep 98; Keep 32; Hit (marker (lit "4:8"))]
       (markers [lit "4:14"; lit "9:9"; lit "4:14"]) _))))))))) _).
  - vm_compute. reflexivity.
  - vm_compute. reflexivity.
Defined.

(** * The client [createThreadWithMessage]

    ** Values

    What [response.json()] can produce, plus [undefined], which reading a
    missing property yields.  Of a number the client uses the truth value
    and the text it becomes in a template literal, nothing else.  [VNum]
    is an integer; any number that is no integer (a fraction, an
    infinity) is a [VFloat], which is never zero and is given by the text
    it is shown as. *)

#[warnings="-register-all"]
Inductive value : Type :=
| VUndefined
| VNull
| VBool (b : bool)
| VNum (z : Z)
| VStr (s : jsstring)
| VArr (items : list value)
| VObj (props : list (jsstring * value))
| VFloat (shown : jsstring).

Definition truthy (v : value) : bool :=
  match v with
  | VUndefined | VNull => false
  | VBool b => b
  | VNum z => negb (z =? 0)%Z
  | VStr s => match s with [] => false | _ => true end
  | VArr _ | VObj _ | VFloat _ => true
  end.

Definition nullish (v : value) : bool :=
  match v with
  | VUndefined | VNull => true
  | _ => false
  end.

(** [v === 'literal'] *)
Definition is_str (v : value) (s : jsstring) : bool :=
  match v with
  | VStr s' => bool_decide (s' = s)
  | _ => false
  end.

(** The own property [key] of a parsed object: the first entry of the
    list carries it. *)
Fixpoint own (props : list (jsstring * value)) (key : jsstring) : value :=
  match props with
  | [] => VUndefined
  | (k, v) :: rest => if decide (k = key) then v else own rest key
  end.

(** The array index a key denotes, if any. *)
Definition index_of_key (n : nat) (key : jsstring) : option nat :=
  fst <$> list_find (λ i, decimal (Z.of_nat i) = key) (seq 0 n).

(** [v[key]] for a value that is neither [undefined] nor [null].  The
    client reads the keys [id], [status], [data], [role], [content], [0],
    [text] and [value] only; no built-in prototype defines one of them, so
    own properties, array elements and string units decide. *)
Definition prop (v : value) (key : jsstring) : value :=
  match v with
  | VObj props => own props key
  | VArr items =>
    match index_of_key (length items) key with
    | Some i => default VUndefined (items !! i)
    | None => VUndefined
    end
  | VStr s =>
    match index_of_key (length s) key with
    | Some i => from_option (λ c, VStr [c]) VUndefined (s !! i)
    | None => VUndefined
    end
  | _ => VUndefined
  end.

(** [v?.[key]] *)
Definition prop_opt (v : value) (key : jsstring) : value :=
  if nullish v then VUndefined else prop v key.

(** ** Exceptions and events *)

Inductive exn (A : Type) : Type :=
| Ok (a : A)
| Throw (message : jsstring).
Arguments Ok {A} a.
Arguments Throw {A} message.

Inductive call_site : Type :=
| CreateThread | AddMessage | StartRun | PollRun | ListMessages.

Global Instance call_site_eq_dec : EqDecision call_site.
Proof. solve_decision. Defined.

(** A call of [fetch]; the three headers are the same on every call. *)
Record request : Type := Request {
  site : call_site;
  method : jsstring;
  url : jsstring;
  body : option jsstring;
}.

Inductive event : Type :=
| Sleep (ms : Z)
| Fetch (r : request).

(** A computation between two suspensions: the events it emits, and its
    result or the error it throws. *)
Definition M (A : Type) : Type := list event * exn A.

Definition ret {A} (a : A) : M A := ([], Ok a).
Definition throw {A} (message : jsstring) : M A := ([], Throw message).
Definition emit (e : event) : M unit := ([e], Ok tt).
Definition lift {A} (r : exn A) : M A := ([], r).

Definition bind {A B} (m : M A) (f : A → M B) : M B :=
  match m with
  | (evs, Ok a) => let '(evs', r) := f a in (evs ++ evs', r)
  | (evs, Throw message) => (evs, Throw message)
  end.

Global Instance M_bind : MBind M := λ A B f m, bind m f.

(** What the environment answers to a call: [fetch] or [json()] rejects
    with an error carrying a message, or a response arrives with its
    [ok] flag, its status and its parsed body. *)
Inductive outcome : Type :=
| Rejected (message : jsstring)
| Response (ok : bool) (status : Z) (data : value).

Definition received (o : outcome) : M (bool * Z * value) :=
  match o with
  | Rejected message => throw message
  | Response ok status data => ret (ok, status, data)
  end.

(** The points where the function is suspended on a call, and its end. *)
Inductive state : Type :=
| AwaitThread (userInput : jsstring)
| AwaitMessage (threadId : value)
| AwaitRun (threadId : value)
| AwaitPoll (threadId runId : value)
| AwaitMessages
| Returned (v : value).

Definition baseUrl : jsstring := lit "https://api.openai.com/v1/".
Definition assistantId : jsstring := lit "######".

Definition RUN_FAILED : jsstring := lit "Assistant failed to process the thread.".
Definition NO_STATUS : jsstring := lit "Failed to retrieve run status.".
Definition NO_RESPONSE : jsstring := lit "No response from assistant.".
Definition NO_MESSAGES : jsstring :=
  lit "No messages found or the response structure is unexpected. ".
Definition CAUGHT : jsstring := lit "An error occurred while processing your request: ".

(** Four renderings are left to the host: the message of the TypeError
    raised when a property of [undefined] or [null] is read, the text of
    [JSON.stringify], the string an array or an object becomes inside
    a template literal (which can raise a TypeError of its own), and the
    exponent form in which a number of magnitude 10^21 or more is shown. *)
Record host : Type := Host {
  type_error_message : value → jsstring → jsstring;
  JSON_stringify : value → jsstring;
  object_to_string : value → exn jsstring;
  exponent_form : Z → jsstring;
}.

Section Client.
Context (h : host).

(** [v.key] *)
Definition get (v : value) (key : jsstring) : exn value :=
  if nullish v then Throw (type_error_message h v key) else Ok (prop v key).

(** [`${v}`]: an integer is shown by its decimal digits below 10^21 and
    in exponent form from there on. *)
Definition to_string (v : value) : exn jsstring :=
  match v with
  | VUndefined => Ok (lit "undefined")
  | VNull => Ok (lit "null")
  | VBool true => Ok (lit "true")
  | VBool false => Ok (lit "false")
  | VNum z =>
    Ok (if (Z.abs z <? 10 ^ 21)%Z then decimal z else exponent_form h z)
  | VFloat shown => Ok shown
  | VStr s => Ok s
  | VArr _ | VObj _ => object_to_string h v
  end.

Definition thread_request : request :=
  Request CreateThread (lit "POST") (baseUrl ++ lit "/threads")
    (Some (JSON_stringify h (VObj []))).

Definition message_request (threadId userInput : jsstring) : request :=
  Request AddMessage (lit "POST")
    (baseUrl ++ lit "/threads/" ++ threadId ++ lit "/messages")
    (Some (JSON_stringify h
       (VObj [(lit "role", VStr (lit "user")); (lit "content", VStr userInput)]))).

Definition run_request (threadId : jsstring) : request :=
  Request StartRun (lit "POST")
    (baseUrl ++ lit "/threads/" ++ threadId ++ lit "/runs")
    (Some (JSON_stringify h (VObj [(lit "assistant_id", VStr assistantId)]))).

Definition poll_request (threadId runId : jsstring) : request :=
  Request PollRun (lit "GET")
    (baseUrl ++ lit "/threads/" ++ threadId ++ lit "/runs/" ++ runId) None.

Definition messages_request (threadId : jsstring) : request :=
  Request ListMessages (lit "GET")
    (baseUrl ++ lit "/threads/" ++ threadId ++ lit "/messages") None.

(** The head of the [while] loop and what follows the loop. *)
Definition poll_or_finish (threadId runId runStatus : value) : M state :=
  if negb (is_str runStatus (lit "completed")) && negb (is_str runStatus (lit "failed")) then
    emit (Sleep 1000) ;;
    tid ← lift (to_string threadId);
    rid ← lift (to_string runId);
    emit (Fetch (poll_request tid rid)) ;;
    ret (AwaitPoll threadId runId)
  else if is_str runStatus (lit "failed") then
    ret (Returned (VStr RUN_FAILED))
  else
    tid ← lift (to_string threadId);
    emit (Fetch (messages_request tid)) ;;
    ret AwaitMessages.

Definition on_thread (userInput : jsstring) (o : outcome) : M state :=
  '(ok, _, threadData) ← received o;
  if negb ok then
    details ← lift (to_string threadData);
    ret (Returned (VStr (lit "Failed to create thread. Details: " ++ details)))
  else
    threadId ← lift (get threadData (lit "id"));
    tid ← lift (to_string threadId);
    emit (Fetch (message_request tid userInput)) ;;
    ret (AwaitMessage threadId).

Definition on_message (threadId : value) (o : outcome) : M state :=
  '(ok, _, messageData) ← received o;
  if negb ok then
    ret (Returned (VStr (lit "Failed to add message to thread. Details: "
                         ++ JSON_stringify h messageData)))
  else
    tid ← lift (to_string threadId);
    emit (Fetch (run_request tid)) ;;
    ret (AwaitRun threadId).

Definition on_run (threadId : value) (o : outcome) : M state :=
  '(ok, _, runData) ← received o;
  if negb ok then
    ret (Returned (VStr (lit "Failed to run assistant on thread. Details: "
                         ++ JSON_stringify h runData)))
  else
    runId ← lift (get runData (lit "id"));
    runStatus ← lift (get runData (lit "status"));
    poll_or_finish threadId runId runStatus.

Definition on_poll (threadId runId : value) (o : outcome) : M state :=
  '(_, _, pollData) ← received o;
  status ← lift (get pollData (lit "status"));
  if negb (truthy status) then ret (Returned (VStr NO_STATUS))
  else poll_or_finish threadId runId status.

(** [messagesData.data.find((msg) => msg.role === 'assistant')] *)
Fixpoint find_assistant (data : list value) : exn value :=
  match data with
  | [] => Ok VUndefined
  | msg :: rest =>
    match get msg (lit "role") with
    | Ok role => if is_str role (lit "assistant") then Ok msg else find_assistant rest
    | Throw message => Throw message
    end
  end.

(** [m.content[0]?.text?.value] *)
Definition text_value (m : value) : value :=
  prop_opt (prop_opt (prop (prop m (lit "content")) (lit "0")) (lit "text")) (lit "value").

Definition on_messages (o : outcome) : M state :=
  '(ok, status, messagesData) ← received o;
  if negb ok then
    ret (Returned (VStr (lit "Failed to fetch assistant response. Status: "
                         ++ decimal status ++ lit ", Details: "
                         ++ JSON_stringify h messagesData)))
  else
    match (if truthy messagesData then prop messagesData (lit "data") else VUndefined) with
    | VArr ((_ :: _) as data) =>
      assistantMessage ← lift (find_assistant data);
      if truthy assistantMessage
         && truthy (prop assistantMessage (lit "content"))
         && truthy (text_value assistantMessage)
      then
        ret (Returned (if truthy (text_value assistantMessage)
                       then text_value assistantMessage
                       else VStr NO_RESPONSE))
      else ret (Returned (VStr NO_RESPONSE))
    | _ => ret (Returned (VStr (NO_MESSAGES ++ JSON_stringify h messagesData)))
    end.

(** The body of the [try] block from one suspension to the next. *)
Definition step_body (s : state) (o : outcome) : M state :=
  match s with
  | AwaitThread userInput => on_thread userInput o
  | AwaitMessage threadId => on_message threadId o
  | AwaitRun threadId => on_run threadId o
  | AwaitPoll threadId runId => on_poll threadId runId o
  | AwaitMessages => on_messages o
  | Returned v => ret (Returned v)
  end.

(** The [catch] clause turns what the body throws into a returned string. *)
Definition step (s : state) (o : outcome) : state * list event :=
  match step_body s o with
  | (evs, Ok s') => (s', evs)
  | (evs, Throw message) => (Returned (VStr (CAUGHT ++ message)), evs)
  end.

Definition is_returned (s : state) : bool :=
  match s with
  | Returned _ => true
  | _ => false
  end.

(** The function run against the answers of the environment, in order; an
    answer is consumed only while the function is suspended on a call. *)
Fixpoint run (s : state) (os : list outcome) : state * list event :=
  match os with
  | [] => (s, [])
  | o :: os' =>
    if is_returned s then (s, [])
    else
      let '(s1, evs1) := step s o in
      let '(s2, evs2) := run s1 os' in
      (s2, evs1 ++ evs2)
  end.

Definition createThreadWithMessage (userInput : jsstring) (os : list outcome)
    : state * list event :=
  let '(s, evs) := run (AwaitThread userInput) os in
  (s, Fetch thread_request :: evs).

(** ** The caller [sendMessage] *)

Inductive bubble : Type :=
| UserBubble (content : jsstring)
| ThinkingBubble
| BotBubble (content : jsstring) (isError : bool).

Global Instance bubble_eq_dec : EqDecision bubble.
Proof. solve_decision. Defined.

Record page : Type := Page {
  chat : list bubble;
  collectedReferences : list detail;
}.

Definition SORRY : jsstring := lit "Sorry, there was an error processing your request.".

(** The children of [chatMessagesContainer] during one call: the node
    [thinkingMessage] of the call is told apart from every other node,
    the indicator of another call included. *)
Inductive child : Type :=
| Node (b : bubble)
| Thinking.

Global Instance child_eq_dec : EqDecision child.
Proof. solve_decision. Defined.

Definition show (c : child) : bubble :=
  match c with
  | Node b => b
  | Thinking => ThinkingBubble
  end.

(** An exception of [sendMessage] is told by its name: no code reads its
    message. *)
Definition NOT_FOUND_ERROR : jsstring := lit "NotFoundError".
Definition TYPE_ERROR : jsstring := lit "TypeError".

(** [chatMessagesContainer.removeChild(thinkingMessage)]: a node that is
    no child of the container cannot be removed. *)
Definition removeThinking (children : list child) : exn (list child) :=
  if decide (Thinking ∈ children)
  then Ok (filter (λ c, c ≠ Thinking) children)
  else Throw NOT_FOUND_ERROR.

(** [sanitizeAssistantResponse(response)] on any value: the global is
    reset first, and a value that is no string has no [replace] method. *)
Definition sanitized (response : value) (collectedReferences : list detail)
    : exn jsstring * list detail :=
  match response with
  | VStr text =>
    let '(html, collectedReferences) :=
      sanitizeAssistantResponse text collectedReferences in
    (Ok html, collectedReferences)
  | _ => (Throw TYPE_ERROR, [])
  end.

(** The [try] block after the [await], and the [catch] clause.  What a
    statement changed stays changed when a later one throws. *)
Definition try_block (response : value) (children : list child)
    (collectedReferences : list detail) : list child * list detail * exn unit :=
  match removeThinking children with
  | Throw e => (children, collectedReferences, Throw e)
  | Ok children =>
    match sanitized response collectedReferences with
    | (Throw e, collectedReferences) => (children, collectedReferences, Throw e)
    | (Ok html, collectedReferences) =>
      (children ++ [Node (BotBubble html false)], collectedReferences, Ok tt)
    end
  end.

Definition catch_clause (children : list child) (collectedReferences : list detail)
    : list child * list detail * exn unit :=
  match removeThinking children with
  | Throw e => (children, collectedReferences, Throw e)
  | Ok children =>
    (children ++ [Node (BotBubble SORRY true)], collectedReferences, Ok tt)
  end.

(** The promise an [async] function hands to its caller. *)
Inductive promise : Type :=
| Pending
| Fulfilled
| Failed (error : jsstring).

(** [sendMessage] once the answers [os] were received: the page, the
    events, and the promise of the call. *)
Definition sendMessage_run (inputValue : jsstring) (os : list outcome) (pg : page)
    : page * list event * promise :=
  match trim inputValue with
  | [] => (pg, [], Fulfilled)
  | _ :: _ =>
    let children := (Node <$> chat pg) ++ [Node (UserBubble inputValue); Thinking] in
    match createThreadWithMessage inputValue os with
    | (Returned response, evs) =>
      let '(children, refs, r) := try_block response children (collectedReferences pg) in
      let '(children, refs, r) :=
        match r with
        | Ok _ => (children, refs, r)
        | Throw _ => catch_clause children refs
        end in
      (Page (show <$> children) refs, evs,
       match r with Ok _ => Fulfilled | Throw e => Failed e end)
    | (_, evs) => (Page (show <$> children) (collectedReferences pg), evs, Pending)
    end
  end.

(** The page and the events of [sendMessage]. *)
Definition sendMessage (inputValue : jsstring) (os : list outcome) (pg : page)
    : page * list event :=
  (sendMessage_run inputValue os pg).1.

End Client.

(** ** Statuses and failures *)

(** The status field an answer carries, when its body can be read. *)
Definition status_of (o : outcome) : option value :=
  match o with
  | Rejected _ => None
  | Response _ _ data => if nullish data then None else Some (prop data (lit "status"))
  end.

(** An answer that keeps the loop going: it carries a status, and the
    status is none of the two terminal ones. *)
Definition pending (o : outcome) : bool :=
  match status_of o with
  | Some v => truthy v && negb (is_str v (lit "completed")) && negb (is_str v (lit "failed"))
  | None => false
  end.

(** The call a state is suspended on. *)
Definition awaited (s : state) : option call_site :=
  match s with
  | AwaitThread _ => Some CreateThread
  | AwaitMessage _ => Some AddMessage
  | AwaitRun _ => Some StartRun
  | AwaitPoll _ _ => Some PollRun
  | AwaitMessages => Some ListMessages
  | Returned _ => None
  end.

(** Position of a call in the chain. *)
Definition rank (c : call_site) : nat :=
  match c with
  | CreateThread => 0
  | AddMessage => 1
  | StartRun => 2
  | PollRun => 3
  | ListMessages => 4
  end.

(** The calls an event list holds, in order. *)
Definition sites (evs : list event) : list call_site :=
  omap (λ e, match e with Fetch r => Some (site r) | Sleep _ => None end) evs.

(** The failure of a step: the call is rejected, the answer of one of the
    four plain calls is not [ok], or the answer of a poll carries no
    status or the status [failed]. *)
Definition failed_step (s : state) (o : outcome) : bool :=
  match s, o with
  | Returned _, _ => false
  | _, Rejected _ => true
  | AwaitPoll _ _, Response _ _ _ =>
    match status_of o with
    | Some v => negb (truthy v) || is_str v (lit "failed")
    | None => true
    end
  | _, Response ok _ _ => negb ok
  end.

(** The string each failure is reported with. *)
Definition failure_message (h : host) (s : state) (o : outcome) : jsstring :=
  match o with
  | Rejected message => CAUGHT ++ message
  | Response _ status data =>
    match s with
    | AwaitThread _ =>
      match to_string h data with
      | Ok details => lit "Failed to create thread. Details: " ++ details
      | Throw message => CAUGHT ++ message
      end
    | AwaitMessage _ =>
      lit "Failed to add message to thread. Details: " ++ JSON_stringify h data
    | AwaitRun _ =>
      lit "Failed to run assistant on thread. Details: " ++ JSON_stringify h data
    | AwaitPoll _ _ =>
      match status_of o with
      | None => CAUGHT ++ type_error_message h data (lit "status")
      | Some v => if truthy v then RUN_FAILED else NO_STATUS
      end
    | AwaitMessages =>
      lit "Failed to fetch assistant response. Status: " ++ decimal status
      ++ lit ", Details: " ++ JSON_stringify h data
    | Returned _ => []
    end
  end.

Section ClientFacts.
Context (h : host).

Lemma run_returned v os : run h (Returned v) os = (Returned v, []).
Proof. by destruct os. Qed.

Lemma run_cons s o os :
  is_returned s = false →
  run h s (o :: os) =
  let '(s1, evs1) := step h s o in
  let '(s2, evs2) := run h s1 os in (s2, evs1 ++ evs2).
Proof. intros H. cbn [run]. by rewrite H. Qed.

Lemma run_app s os1 os2 :
  run h s (os1 ++ os2) =
  let '(s1, evs1) := run h s os1 in
  let '(s2, evs2) := run h s1 os2 in (s2, evs1 ++ evs2).
Proof.
  revert s. induction os1 as [|o os1 IH]; intros s.
  - cbn [run app]. by destruct (run h s os2).
  - rewrite <-app_comm_cons. cbn [run]. destruct (is_returned s) eqn:E.
    + destruct s; try done. by rewrite run_returned.
    + destruct (step h s o) as [s1 evs1]. rewrite IH.
      destruct (run h s1 os1) as [s2 evs2].
      destruct (run h s2 os2) as [s3 evs3]. by rewrite (assoc app).
Qed.

Lemma status_of_get o v :
  status_of o = Some v →
  ∃ ok st data, o = Response ok st data ∧ nullish data = false
                ∧ ∀ key, get h data key = Ok (prop data key).
Proof.
  destruct o as [m|ok st data]; [done|]. cbn [status_of].
  destruct (nullish data) eqn:E; [done|]. intros _.
  exists ok, st, data. split_and!; [done..|]. intros key. unfold get. by rewrite E.
Qed.

(** One more turn of the loop. *)
Lemma step_poll_pending tid rid tids rids o :
  to_string h tid = Ok tids → to_string h rid = Ok rids → pending o = true →
  step h (AwaitPoll tid rid) o
  = (AwaitPoll tid rid, [Sleep 1000; Fetch (poll_request tids rids)]).
Proof.
  intros Ht Hr Hp. unfold pending in Hp.
  destruct (status_of o) as [v|] eqn:Hs; [|done].
  destruct (status_of_get o v Hs) as (ok & st & data & -> & Hn & Hget).
  cbn [status_of] in Hs. rewrite Hn in Hs. injection Hs as <-.
  apply andb_prop in Hp as [[Htr Hc]%andb_prop Hf].
  unfold step, step_body, on_poll, poll_or_finish. cbn [received ret bind mbind M_bind].
  rewrite Hget. cbn [lift bind mbind M_bind]. rewrite Htr, Hc, Hf. cbn [negb andb].
  rewrite Ht, Hr. done.
Qed.

Lemma run_poll_pending tid rid tids rids os :
  to_string h tid = Ok tids → to_string h rid = Ok rids →
  Forall (λ o, pending o = true) os →
  run h (AwaitPoll tid rid) os
  = (AwaitPoll tid rid,
     mjoin (replicate (length os) [Sleep 1000; Fetch (poll_request tids rids)])).
Proof.
  intros Ht Hr. induction 1 as [|o os Ho _ IH]; [done|].
  rewrite run_cons by done. rewrite (step_poll_pending _ _ tids rids) by done.
  by rewrite IH.
Qed.

(** The loop is left exactly when the answer is not a pending one. *)
Lemma step_poll_stays tid rid o :
  (step h (AwaitPoll tid rid) o).1 = AwaitPoll tid rid → pending o = true.
Proof.
  unfold step, step_body, on_poll, poll_or_finish, pending.
  destruct o as [m|ok st data]; [done|]. cbn [received ret bind mbind M_bind status_of].
  unfold get. destruct (nullish data); [done|]. cbn [lift bind mbind M_bind app].
  destruct (truthy (prop data (lit "status"))); [|done]. cbn [negb andb].
  destruct (is_str _ (lit "completed")); cbn [negb andb].
  - destruct (is_str _ (lit "failed")); [done|].
    by destruct (to_string h tid).
  - by destruct (is_str _ (lit "failed")).
Qed.

End ClientFacts.

(** What an array or an object becomes in a template literal: an array
    is the comma-joined texts of its elements, [null] and [undefined]
    counting as empty, and an object is [[object Object]] unless a
    property of its own hides the inherited [toString], which raises a
    TypeError. *)
Fixpoint shown_as (v : value) : exn jsstring :=
  match v with
  | VUndefined => Ok (lit "undefined")
  | VNull => Ok (lit "null")
  | VBool true => Ok (lit "true")
  | VBool false => Ok (lit "false")
  | VNum z => Ok (if (Z.abs z <? 10 ^ 21)%Z then decimal z else lit "1e+21")
  | VFloat shown => Ok shown
  | VStr s => Ok s
  | VArr items =>
    (fix elements (items : list value) : exn jsstring :=
       match items with
       | [] => Ok []
       | x :: rest =>
         match (if nullish x then Ok [] else shown_as x), elements rest with
         | Ok a, Ok b => Ok (match rest with [] => a | _ :: _ => a ++ lit "," ++ b end)
         | Throw message, _ | _, Throw message => Throw message
         end
       end) items
  | VObj props =>
    if bool_decide (lit "toString" ∈ props.*1)
    then Throw (lit "Cannot convert object to primitive value")
    else Ok (lit "[object Object]")
  end.

(** A host for the examples: the messages of the V8 engine, an
    abbreviated JSON text, and [1e+21] for every number that needs the
    exponent form (the examples hold none). *)
Definition sample_host : host :=
  Host
    (λ v key, lit "Cannot read properties of "
              ++ (if v is VNull then lit "null" else lit "undefined")
              ++ lit " (reading '" ++ key ++ lit "')")
    (λ v, match v with
          | VObj [] => lit "{}"
          | VObj _ => lit "{...}"
          | VArr _ => lit "[...]"
          | _ => lit "..."
          end)
    shown_as
    (λ _, lit "1e+21").

Definition in_progress : outcome :=
  Response true 200 (VObj [(lit "status", VStr (lit "in_progress"))]).

(** C5: while every answer to a poll carries a status that is neither
    [completed] nor [failed], the client is still polling after any number
    [n] of answers, and it has then waited 1000 ms before each of the [n]
    further fetches: no count and no clock ends the loop.  A poll answer
    leaves the loop exactly when it is not such an answer; on [completed]
    the messages are fetched, on [failed] the failure text is returned. *)
Theorem C5_polling_is_unbounded (h : host) (net : nat → outcome)
    (threadId runId : value) (tid rid : jsstring) (n : nat) :
  to_string h threadId = Ok tid → to_string h runId = Ok rid →
  (∀ i, pending (net i) = true) →
  run h (AwaitPoll threadId runId) (net <$> seq 0 n)
  = (AwaitPoll threadId runId,
     mjoin (replicate n [Sleep 1000; Fetch (poll_request tid rid)]))
  ∧ (∀ o, (step h (AwaitPoll threadId runId) o).1 = AwaitPoll threadId runId
          ↔ pending o = true)
  ∧ (∀ ok st data,
       status_of (Response ok st data) = Some (VStr (lit "completed")) →
       step h (AwaitPoll threadId runId) (Response ok st data)
       = (AwaitMessages, [Fetch (messages_request tid)]))
  ∧ (∀ ok st data,
       status_of (Response ok st data) = Some (VStr (lit "failed")) →
       step h (AwaitPoll threadId runId) (Response ok st data)
       = (Returned (VStr RUN_FAILED), [])).
Proof.
  intros Ht Hr Hnet. split_and!.
  - rewrite (run_poll_pending h _ _ tid rid) by
      (try done; apply Forall_fmap, Forall_forall; intros i _; apply Hnet).
    by rewrite length_fmap, length_seq.
  - intros o. split; [apply step_poll_stays|].
    intros Hp. by rewrite (step_poll_pending h _ _ tid rid).
  - intros ok st data Hs.
    destruct (status_of_get h _ _ Hs) as (? & ? & ? & [= <- <- <-] & Hn & Hget).
    cbn [status_of] in Hs. rewrite Hn in Hs. injection Hs as Hs.
    unfold step, step_body, on_poll, poll_or_finish. cbn [received ret bind mbind M_bind].
    rewrite Hget, Hs. cbn. by rewrite Ht.
  - intros ok st data Hs.
    destruct (status_of_get h _ _ Hs) as (? & ? & ? & [= <- <- <-] & Hn & Hget).
    cbn [status_of] in Hs. rewrite Hn in Hs. injection Hs as Hs.
    unfold step, step_body, on_poll, poll_or_finish. cbn [received ret bind mbind M_bind].
    rewrite Hget, Hs. done.
Qed.

Lemma C5_polling_is_unbounded_witness :
  run sample_host (AwaitPoll (VStr (lit "thread_1")) (VStr (lit "run_1")))
    [in_progress; in_progress; in_progress]
  = (AwaitPoll (VStr (lit "thread_1")) (VStr (lit "run_1")),
     [Sleep 1000; Fetch (poll_request (lit "thread_1") (lit "run_1"));
      Sleep 1000; Fetch (poll_request (lit "thread_1") (lit "run_1"));
      Sleep 1000; Fetch (poll_request (lit "thread_1") (lit "run_1"))]).
Proof.
  exact (proj1 (C5_polling_is_unbounded sample_host (λ _, in_progress)
    (VStr (lit "thread_1")) (VStr (lit "run_1")) (lit "thread_1") (lit "run_1") 3
    eq_refl eq_refl (λ _, eq_refl))).
Defined.

(** * The shape of a run *)

Ltac step_cases :=
  unfold step, step_body, on_thread, on_message, on_run, on_poll, on_messages,
    poll_or_finish, received, get, lift, ret, throw, emit, mbind, M_bind, bind in *;
  repeat case_match; simplify_eq/=.

(** [c'] may follow [c] in the chain: it is a later call, or both are
    polls. *)
Definition advances (c c' : call_site) : Prop :=
  (rank c < rank c')%nat ∨ (c = PollRun ∧ c' = PollRun).

Global Instance advances_trans : Transitive advances.
Proof.
  intros a b c [?|[? ?]] [?|[? ?]]; subst; unfold advances;
    first [left; lia | right; done].
Qed.

(** The first message of the list whose role is [assistant]. *)
Definition first_assistant (data : list value) : option value :=
  List.find (λ m, is_str (prop m (lit "role")) (lit "assistant")) data.

(** What the client returns for the body of a successful listing: the
    text value of the first assistant message when it has one, and else
    one of the two strings that report an empty response. *)
Definition answer_of (h : host) (messagesData : value) : value :=
  match (if truthy messagesData then prop messagesData (lit "data") else VUndefined) with
  | VArr ((_ :: _) as data) =>
    match first_assistant data with
    | Some m =>
      if truthy (prop m (lit "content")) && truthy (text_value m)
      then text_value m
      else VStr NO_RESPONSE
    | None => VStr NO_RESPONSE
    end
  | _ => VStr (NO_MESSAGES ++ JSON_stringify h messagesData)
  end.

Definition is_empty_response (v : value) : Prop :=
  v = VStr NO_RESPONSE ∨ ∃ details, v = VStr (NO_MESSAGES ++ details).

(** The entries of the message list can be read: none is [null]. *)
Definition readable (messagesData : value) : Prop :=
  ∀ data, prop messagesData (lit "data") = VArr data →
          Forall (λ m, nullish m = false) data.

(** [v] is the text value of the first assistant message of the listing
    [o], and it is truthy. *)
Definition listed_text (o : outcome) (v : value) : Prop :=
  ∃ st messagesData data m,
    o = Response true st messagesData
    ∧ prop messagesData (lit "data") = VArr data
    ∧ first_assistant data = Some m
    ∧ v = text_value m
    ∧ truthy v = true.

(** What a finished call can hand back after the answer [o]: a string,
    or the text value the listing [o] holds. *)
Definition is_result (o : outcome) (v : value) : Prop :=
  (∃ s, v = VStr s) ∨ listed_text o v.

Section RunFacts.
Context (h : host).

Lemma is_result_str o s : is_result o (VStr s).
Proof. left. by eexists. Qed.

(** What [find] returns, when it returns an entry, is the first entry of
    the list with the role [assistant]. *)
Lemma find_assistant_first data m :
  find_assistant h data = Ok m → truthy m = true → first_assistant data = Some m.
Proof.
  induction data as [|msg data IH]; cbn [find_assistant first_assistant List.find].
  { by intros [= <-]. }
  unfold get. destruct (nullish msg); [done|].
  destruct (is_str (prop msg (lit "role")) (lit "assistant")); [by intros [= <-]|].
  apply IH.
Qed.

(** The listing is the last call: whatever its answer, the function
    returns without a further event. *)
Lemma step_messages_returns o :
  ∃ v, step h AwaitMessages o = (Returned v, []) ∧ is_result o v.
Proof.
  unfold step, step_body, on_messages.
  destruct o as [m|ok st data]; cbn [received ret throw bind mbind M_bind].
  { eexists. split; [done | apply is_result_str]. }
  destruct ok; cbn [negb]; [|eexists; split; [done | apply is_result_str]].
  destruct (truthy data) eqn:Hdata;
    [|eexists; split; [done | apply is_result_str]].
  destruct (prop data (lit "data")) as [| | | | |[|m0 items]| |] eqn:Hprop;
    try (eexists; split; [done | apply is_result_str]).
  destruct (find_assistant h (m0 :: items)) as [am|m] eqn:Hfind;
    cbn [lift bind mbind M_bind app];
    [|eexists; split; [done | apply is_result_str]].
  destruct (truthy am) eqn:Ham; cbn [andb];
    [|eexists; split; [done | apply is_result_str]].
  destruct (truthy (prop am (lit "content"))); cbn [andb];
    [|eexists; split; [done | apply is_result_str]].
  destruct (truthy (text_value am)) eqn:Hv; cbn [ret app];
    [|eexists; split; [done | apply is_result_str]].
  eexists. split; [done|]. right.
  exists st, data, (m0 :: items), am. split_and!; try done.
  by apply find_assistant_first.
Qed.

(** A step issues the call its next state is suspended on, and no other. *)
Lemma step_sites s o :
  is_returned s = false →
  sites (step h s o).2 = option_list (awaited (step h s o).1).
Proof.
  intros Hs. destruct s; try done.
  1-4: (step_cases; done).
  by destruct (step_messages_returns o) as (v & -> & _).
Qed.

(** A step moves forward in the chain; it stays in place only on a poll
    whose answer is no failure. *)
Lemma step_advances s o c c' :
  awaited s = Some c → awaited (step h s o).1 = Some c' →
  (rank c < rank c')%nat ∨ (c = PollRun ∧ c' = PollRun ∧ failed_step s o = false).
Proof.
  intros Hc Hc'. destruct s; simplify_eq/=.
  - step_cases; left; lia.
  - step_cases; left; lia.
  - step_cases; left; lia.
  - destruct o as [m|ok st data]; [by step_cases|].
    cbn [status_of]. step_cases; try (left; lia). right. split_and!; try done.
    repeat match goal with
    | H : negb _ = false |- _ => rewrite H
    | H : _ && _ = true |- _ => apply andb_prop in H as [_ H]
    | H : negb _ = true |- _ => apply negb_true_iff in H; rewrite H
    end. done.
  - destruct (step_messages_returns o) as (v & E & _). by rewrite E in Hc'.
Qed.

(** A failed step returns the message of the failure at once. *)
Lemma step_failed s o :
  failed_step s o = true →
  step h s o = (Returned (VStr (failure_message h s o)), []).
Proof.
  destruct s, o as [m|ok st data]; try done;
    cbn [failed_step failure_message status_of]; intros Hf.
  - by step_cases.
  - by step_cases.
  - by step_cases.
  - unfold step, step_body, on_poll, get. cbn [received ret bind mbind M_bind].
    destruct (nullish data); [done|]. cbn [lift bind mbind M_bind app].
    apply orb_true_iff in Hf as [Hf|Hf].
    + rewrite Hf. apply negb_true_iff in Hf. by rewrite Hf.
    + destruct (truthy (prop data (lit "status"))) eqn:Ht; [|done]. cbn [negb].
      unfold poll_or_finish. rewrite Hf. cbn [negb andb]. by rewrite andb_false_r.
  - unfold step, step_body, on_messages. cbn [received ret bind mbind M_bind].
    by rewrite Hf.
Qed.

Lemma sites_app evs1 evs2 : sites (evs1 ++ evs2) = sites evs1 ++ sites evs2.
Proof. apply omap_app. Qed.

(** Along a run the calls follow the chain: a call is never issued after
    a later one, and only the poll is issued more than once. *)
Lemma run_sorted s os c :
  awaited s = Some c →
  Forall (advances c) (sites (run h s os).2)
  ∧ StronglySorted advances (sites (run h s os).2).
Proof.
  revert s c. induction os as [|o os IH]; intros s c Hc.
  - split; constructor.
  - rewrite run_cons by by destruct s.
    pose proof (step_sites s o) as Hsites.
    pose proof (step_advances s o c) as Hadv.
    destruct (step h s o) as [s1 evs1]. cbn [fst snd] in *.
    destruct (awaited s1) as [c1|] eqn:E1.
    + destruct (IH s1 c1 E1) as [Hall Hsorted].
      destruct (run h s1 os) as [s2 evs2]. cbn [fst snd] in *.
      rewrite sites_app, Hsites by by destruct s. cbn [option_list app].
      assert (advances c c1) as Hcc1.
      { destruct (Hadv c1) as [?|(-> & -> & _)]; [done..|by left|by right]. }
      split; [|by constructor].
      constructor; [done|]. eapply Forall_impl; [done|].
      intros c2 ?. by etrans.
    + destruct s1; try done. rewrite run_returned. cbn [fst snd].
      rewrite app_nil_r, Hsites by by destruct s. split; constructor.
Qed.

(** While the function is suspended on a call, no later call was issued. *)
Lemma run_before s os c c' :
  awaited s = Some c → awaited (run h s os).1 = Some c' →
  (rank c ≤ rank c')%nat ∧ Forall (λ x, (rank x ≤ rank c')%nat) (sites (run h s os).2).
Proof.
  revert s c. induction os as [|o os IH]; intros s c Hc Hc'.
  - cbn [run fst snd] in *. simplify_eq. split; [done | constructor].
  - rewrite run_cons in Hc' |- * by by destruct s.
    pose proof (step_sites s o) as Hsites.
    pose proof (step_advances s o c) as Hadv.
    destruct (step h s o) as [s1 evs1]. cbn [fst snd] in *.
    destruct (awaited s1) as [c1|] eqn:E1.
    + specialize (IH s1 c1 E1).
      destruct (run h s1 os) as [s2 evs2]. cbn [fst snd] in *.
      destruct (IH Hc') as [Hle Hall].
      assert (rank c ≤ rank c1)%nat.
      { destruct (Hadv c1) as [?|(-> & -> & _)]; [done..|lia|done]. }
      split; [lia|].
      rewrite sites_app, Hsites by by destruct s. cbn [option_list app].
      by constructor.
    + destruct s1; try done. by rewrite run_returned in Hc'.
Qed.

End RunFacts.

(** * The end of a query *)

Section EndFacts.
Context (h : host).

Lemma find_assistant_readable data :
  Forall (λ m, nullish m = false) data →
  find_assistant h data = Ok (default VUndefined (first_assistant data)).
Proof.
  induction 1 as [|m data Hm _ IH]; [done|].
  cbn [find_assistant first_assistant List.find]. unfold get. rewrite Hm.
  destruct (is_str (prop m (lit "role")) (lit "assistant")) eqn:E; [done|].
  apply IH.
Qed.

Lemma first_assistant_truthy data m : first_assistant data = Some m → truthy m = true.
Proof.
  intros [_ Hm]%find_some. destruct m as [| | | | s| | |]; try done.
  unfold prop in Hm. destruct (index_of_key (length s) (lit "role")) as [i|] eqn:E.
  - destruct s; [|done]. unfold index_of_key in E. done.
  - done.
Qed.

Lemma step_messages st messagesData :
  readable messagesData →
  step h AwaitMessages (Response true st messagesData)
  = (Returned (answer_of h messagesData), []).
Proof.
  intros Hr. unfold step, step_body, on_messages, answer_of.
  cbn [received ret bind mbind M_bind negb].
  destruct (truthy messagesData) eqn:Ht; [|done].
  destruct (prop messagesData (lit "data")) as [| | | | |[|m0 data]| |] eqn:Hd; try done.
  rewrite find_assistant_readable by by apply Hr. cbn [lift bind mbind M_bind].
  destruct (first_assistant (m0 :: data)) as [m|] eqn:Hf; cbn [from_option id]; [|done].
  rewrite (first_assistant_truthy _ _ Hf). cbn [andb].
  destruct (truthy (prop m (lit "content"))); [|done]. cbn [andb].
  by destruct (truthy (text_value m)) eqn:Hv.
Qed.

Lemma answer_of_cases messagesData :
  is_empty_response (answer_of h messagesData)
  ∨ ∃ data m, prop messagesData (lit "data") = VArr data
              ∧ first_assistant data = Some m
              ∧ truthy (text_value m) = true
              ∧ answer_of h messagesData = text_value m.
Proof.
  unfold answer_of.
  destruct (truthy messagesData); [|left; right; by eexists].
  destruct (prop messagesData (lit "data")) as [| | | | |[|m0 data]| |] eqn:Hd;
    try (left; right; by eexists).
  destruct (first_assistant (m0 :: data)) as [m|] eqn:Hf; [|left; by left].
  destruct (truthy (prop m (lit "content"))); [|left; by left].
  destruct (truthy (text_value m)) eqn:Hv; [|left; by left].
  right. by exists (m0 :: data), m.
Qed.

(** Before the listing, a step returns strings only; the listing returns
    a string or the text value it holds. *)
Lemma step_result s o v :
  (step h s o).1 = Returned v →
  match s with
  | Returned _ => True
  | AwaitMessages => is_result o v
  | _ => ∃ str, v = VStr str
  end.
Proof.
  destruct s; try done.
  1-4: (step_cases; intros; simplify_eq; by eexists).
  destruct (step_messages_returns h o) as (v' & -> & Hv). by intros [= <-].
Qed.

(** A returned value that is no string was read from the listing, the
    answer the call was waiting for when it returned. *)
Lemma run_result s os v :
  is_returned s = false → (run h s os).1 = Returned v →
  (∃ str, v = VStr str)
  ∨ ∃ os' o more, os = os' ++ o :: more
                  ∧ (run h s os').1 = AwaitMessages
                  ∧ listed_text o v.
Proof.
  revert s. induction os as [|o os IH]; intros s Hs.
  - cbn. intros ->. done.
  - rewrite run_cons by done.
    pose proof (step_result s o) as Hstep.
    destruct (step h s o) as [s1 evs1] eqn:Hso. cbn [fst] in Hstep.
    destruct (is_returned s1) eqn:E1.
    + destruct s1 as [| | | | |v1]; try done. rewrite run_returned. cbn [fst].
      intros [= ->]. specialize (Hstep v eq_refl).
      destruct s; try done; try (by left).
      destruct Hstep as [?|Hl]; [by left|]. right. by exists [], o, os.
    + specialize (IH s1 E1). destruct (run h s1 os) as [s2 evs2] eqn:Hrun.
      cbn [fst] in *. intros ->.
      destruct (IH eq_refl) as [?|(os' & o' & more & -> & Hos' & Hl)]; [by left|].
      right. exists (o :: os'), o', more. split_and!; [done| |done].
      rewrite run_cons by done. rewrite Hso.
      by destruct (run h s1 os') as [s3 evs3].
Qed.

(** The ids of a poll were shown as strings when the poll was issued. *)
Lemma step_to_poll s o threadId runId :
  is_returned s = false → (step h s o).1 = AwaitPoll threadId runId →
  ∃ tid rid, to_string h threadId = Ok tid ∧ to_string h runId = Ok rid.
Proof.
  intros Hs. destruct s; try done.
  1-4: (step_cases; intros; simplify_eq; by eexists _, _).
  destruct (step_messages_returns h o) as (v' & -> & Hv). done.
Qed.

Lemma run_to_poll s os threadId runId :
  is_returned s = false →
  (∀ tid rid, s ≠ AwaitPoll tid rid) →
  (run h s os).1 = AwaitPoll threadId runId →
  ∃ tid rid, to_string h threadId = Ok tid ∧ to_string h runId = Ok rid.
Proof.
  intros Hs Hne. 
  assert (s = AwaitPoll threadId runId →
          ∃ tid rid, to_string h threadId = Ok tid ∧ to_string h runId = Ok rid) as H0
    by (intros ->; by destruct (Hne threadId runId)).
  clear Hne. revert s Hs H0. induction os as [|o os IH]; intros s Hs H0.
  - cbn. done.
  - rewrite run_cons by done.
    pose proof (step_to_poll s o threadId runId Hs) as Hstep.
    destruct (step h s o) as [s1 evs1]. cbn [fst] in Hstep.
    destruct (is_returned s1) eqn:E1.
    + destruct s1 as [| | | | |v1]; try done. by rewrite run_returned.
    + specialize (IH s1 E1). destruct (run h s1 os) as [s2 evs2]. cbn [fst] in *.
      intros ->. apply IH; [|done]. intros ->. by apply Hstep.
Qed.

(** While the call has not returned it has used every answer, and it has
    issued one call per answer. *)
Lemma run_pending s os :
  is_returned (run h s os).1 = false → length (sites (run h s os).2) = length os.
Proof.
  revert s. induction os as [|o os IH]; intros s; [done|].
  destruct (is_returned s) eqn:Hs.
  { cbn [run]. rewrite Hs. cbn [fst]. by rewrite Hs. }
  rewrite run_cons by done.
  pose proof (step_sites h s o Hs) as Hsites.
  destruct (step h s o) as [s1 evs1]. cbn [fst snd] in *.
  specialize (IH s1). destruct (run h s1 os) as [s2 evs2] eqn:Hrun. cbn [fst snd] in *.
  intros H2. rewrite sites_app, length_app, IH, Hsites by done.
  destruct s1; try done.
  rewrite run_returned in Hrun. by simplify_eq.
Qed.

End EndFacts.

(** * The whole query *)

Section QueryFacts.
Context (h : host).

(** One more answer after a suspended query. *)
Lemma create_snoc input os s evs o more :
  createThreadWithMessage h input os = (s, evs) → is_returned s = false →
  createThreadWithMessage h input (os ++ o :: more) =
  let '(s1, evs1) := step h s o in
  let '(s2, evs2) := run h s1 more in
  (s2, evs ++ evs1 ++ evs2).
Proof.
  unfold createThreadWithMessage. intros H Hs. rewrite run_app.
  destruct (run h (AwaitThread input) os) as [s0 evs0]. injection H as -> <-.
  rewrite run_cons by done.
  destruct (step h s o) as [s1 evs1]. by destruct (run h s1 more) as [s2 evs2].
Qed.

Lemma create_snoc_returned input os s evs o more v :
  createThreadWithMessage h input os = (s, evs) →
  step h s o = (Returned v, []) → is_returned s = false →
  createThreadWithMessage h input (os ++ o :: more) = (Returned v, evs).
Proof.
  intros H Hstep Hs. rewrite (create_snoc _ _ s evs) by done.
  rewrite Hstep, run_returned. by rewrite !app_nil_r.
Qed.

(** The calls of a query follow the chain. *)
Lemma create_sorted input os :
  StronglySorted advances (sites (createThreadWithMessage h input os).2).
Proof.
  unfold createThreadWithMessage.
  destruct (run_sorted h (AwaitThread input) os CreateThread eq_refl) as [Hall Hs].
  destruct (run h (AwaitThread input) os) as [s evs]. by constructor.
Qed.

(** While a query is suspended on a call, it has issued no later call. *)
Lemma create_before input os c :
  awaited (createThreadWithMessage h input os).1 = Some c →
  Forall (λ x, (rank x ≤ rank c)%nat) (sites (createThreadWithMessage h input os).2).
Proof.
  unfold createThreadWithMessage.
  pose proof (run_before h (AwaitThread input) os CreateThread c eq_refl) as H.
  destruct (run h (AwaitThread input) os) as [s evs]. cbn [fst snd] in *.
  intros Hc. destruct (H Hc) as [Hle Hall]. by constructor.
Qed.

Lemma step_run_failed tid ok st data :
  status_of (Response ok st data) = Some (VStr (lit "failed")) →
  step h (AwaitRun tid) (Response true st data) = (Returned (VStr RUN_FAILED), []).
Proof.
  intros Hs.
  destruct (status_of_get h _ _ Hs) as (? & ? & ? & [= <- <- <-] & Hn & Hget).
  cbn [status_of] in Hs. rewrite Hn in Hs. injection Hs as Hs.
  unfold step, step_body, on_run, poll_or_finish. cbn [received ret bind mbind M_bind negb].
  rewrite !Hget, Hs. done.
Qed.

Lemma step_poll_failed tid rid ok st data :
  status_of (Response ok st data) = Some (VStr (lit "failed")) →
  step h (AwaitPoll tid rid) (Response ok st data) = (Returned (VStr RUN_FAILED), []).
Proof.
  intros Hs.
  destruct (status_of_get h _ _ Hs) as (? & ? & ? & [= <- <- <-] & Hn & Hget).
  cbn [status_of] in Hs. rewrite Hn in Hs. injection Hs as Hs.
  unfold step, step_body, on_poll, poll_or_finish. cbn [received ret bind mbind M_bind].
  rewrite Hget, Hs. done.
Qed.

Lemma show_nodes (l : list bubble) : show <$> (Node <$> l) = l.
Proof. rewrite <-list_fmap_compose. apply list_fmap_id. Qed.

Lemma Thinking_not_node (l : list bubble) : Thinking ∉ Node <$> l.
Proof. by intros (b & ? & _)%list_elem_of_fmap. Qed.

Lemma filter_nodes (l : list bubble) :
  filter (λ c, c ≠ Thinking) (Node <$> l) = Node <$> l.
Proof.
  induction l as [|b l IH]; [done|]. rewrite fmap_cons, filter_cons_True by done.
  by rewrite IH.
Qed.

(** The indicator is removed while it is attached, and only then. *)
Lemma removeThinking_attached (l : list bubble) :
  removeThinking ((Node <$> l) ++ [Thinking]) = Ok (Node <$> l).
Proof.
  unfold removeThinking. rewrite decide_True by set_solver.
  rewrite filter_app, filter_nodes, filter_cons_False, filter_nil by (by intros ?).
  by rewrite app_nil_r.
Qed.

Lemma removeThinking_detached (l : list bubble) :
  removeThinking (Node <$> l) = Throw NOT_FOUND_ERROR.
Proof. unfold removeThinking. rewrite decide_False; [done|]. apply Thinking_not_node. Qed.

(** The three ends of [sendMessage] for an input that is not blank: a
    returned string is shown; any other returned value makes the [try]
    block throw after the indicator was removed, so the [catch] clause
    throws in its first statement; a call that has not returned leaves
    the indicator. *)
Lemma sendMessage_run_eq input os pg :
  trim input ≠ [] →
  sendMessage_run h input os pg =
  match createThreadWithMessage h input os with
  | (Returned (VStr response), evs) =>
    (Page (chat pg ++ [UserBubble input;
             BotBubble (sanitizeAssistantResponse response (collectedReferences pg)).1 false])
          (sanitizeAssistantResponse response (collectedReferences pg)).2,
     evs, Fulfilled)
  | (Returned _, evs) =>
    (Page (chat pg ++ [UserBubble input]) [], evs, Failed NOT_FOUND_ERROR)
  | (_, evs) =>
    (Page (chat pg ++ [UserBubble input; ThinkingBubble]) (collectedReferences pg),
     evs, Pending)
  end.
Proof.
  intros Hne. unfold sendMessage_run. destruct (trim input); [done|]. cbv zeta.
  assert ((Node <$> chat pg) ++ [Node (UserBubble input); Thinking]
          = (Node <$> chat pg ++ [UserBubble input]) ++ [Thinking]) as ->
    by (by rewrite fmap_app, <-(assoc app)).
  destruct (createThreadWithMessage h input os) as [s evs].
  assert (show <$> (Node <$> chat pg ++ [UserBubble input]) ++ [Thinking]
          = chat pg ++ [UserBubble input; ThinkingBubble]) as Hshown.
  { rewrite fmap_app, show_nodes, <-(assoc app). done. }
  destruct s as [| | | | |v]; try by rewrite Hshown.
  unfold try_block. rewrite removeThinking_attached.
  destruct v as [| | | |response| | |]; cbn [sanitized];
    try (unfold catch_clause; rewrite removeThinking_detached; by rewrite show_nodes).
  destruct (sanitizeAssistantResponse response (collectedReferences pg)) as [html refs].
  cbn [fst snd].
  change [Node (BotBubble html false)] with (Node <$> [BotBubble html false]).
  by rewrite <-fmap_app, show_nodes, <-(assoc app).
Qed.

(** What [sendMessage] shows for a returned string. *)
Lemma sendMessage_returned input os pg response evs :
  trim input ≠ [] →
  createThreadWithMessage h input os = (Returned (VStr response), evs) →
  sendMessage h input os pg =
  (Page (chat pg ++ [UserBubble input;
                     BotBubble (sanitizeAssistantResponse response (collectedReferences pg)).1 false])
        (sanitizeAssistantResponse response (collectedReferences pg)).2,
   evs).
Proof.
  intros Hne H. unfold sendMessage. rewrite sendMessage_run_eq by done. by rewrite H.
Qed.

(** The chat only grows. *)
Lemma sendMessage_keeps_chat input os pg :
  chat pg `prefix_of` chat (sendMessage h input os pg).1.
Proof.
  unfold sendMessage. destruct (trim input) as [|c t] eqn:Ht.
  { unfold sendMessage_run. by rewrite Ht. }
  rewrite sendMessage_run_eq by by rewrite Ht.
  destruct (createThreadWithMessage h input os) as [s evs].
  destruct s as [| | | | |v]; cbn [fst chat]; try by apply prefix_app_r.
  destruct v; cbn [fst chat]; by apply prefix_app_r.
Qed.

End QueryFacts.

Lemma sanitize_RUN_FAILED before :
  sanitizeAssistantResponse RUN_FAILED before = (RUN_FAILED, []).
Proof. by vm_compute. Qed.

(** C6: when the answer that ends the run carries the status [failed]
    (the answer to a poll, or the answer that started the run), the call
    returns the string of the failed run and issues nothing more, whatever
    the service would answer next; the messages of the thread were never
    listed, and the chat gains the user's bubble and one bubble with that
    string: no text of the assistant is shown. *)
Theorem C6_failed_run (h : host) (input : jsstring) (os more : list outcome)
    (s : state) (evs : list event) (ok : bool) (st : Z) (data : value) (pg : page) :
  createThreadWithMessage h input os = (s, evs) →
  ((∃ tid rid, s = AwaitPoll tid rid) ∨ (∃ tid, s = AwaitRun tid ∧ ok = true)) →
  status_of (Response ok st data) = Some (VStr (lit "failed")) →
  trim input ≠ [] →
  createThreadWithMessage h input (os ++ Response ok st data :: more)
  = (Returned (VStr RUN_FAILED), evs)
  ∧ (ListMessages ∉ sites evs)
  ∧ sendMessage h input (os ++ Response ok st data :: more) pg
    = (Page (chat pg ++ [UserBubble input; BotBubble RUN_FAILED false]) [], evs).
Proof.
  intros H Hs Hst Hne.
  assert (createThreadWithMessage h input (os ++ Response ok st data :: more)
          = (Returned (VStr RUN_FAILED), evs)) as Hret.
  { destruct Hs as [(tid & rid & ->)|(tid & -> & ->)].
    - eapply create_snoc_returned; [done| |done]. by apply step_poll_failed.
    - eapply create_snoc_returned; [done| |done]. by eapply step_run_failed. }
  split_and!; [done| |].
  - assert (∃ c, awaited s = Some c ∧ (rank c ≤ 3)%nat) as (c & Hc & Hle).
    { destruct Hs as [(tid & rid & ->)|(tid & -> & ->)];
        [exists PollRun | exists StartRun]; split; [done | cbn; lia | done | cbn; lia]. }
    pose proof (create_before h input os c) as Hb. rewrite H in Hb.
    specialize (Hb Hc). cbn [snd] in Hb.
    intros Hin. apply (proj1 (Forall_forall _ _) Hb) in Hin. simpl in Hin. lia.
  - rewrite (sendMessage_returned h _ _ _ RUN_FAILED evs) by done.
    by rewrite sanitize_RUN_FAILED.
Qed.

Definition thread_created : outcome :=
  Response true 200 (VObj [(lit "id", VStr (lit "thread_1"))]).
Definition message_added : outcome :=
  Response true 200 (VObj [(lit "id", VStr (lit "msg_1"))]).
Definition run_started (status : string) : outcome :=
  Response true 200 (VObj [(lit "id", VStr (lit "run_1")); (lit "status", VStr (lit status))]).
Definition run_status (status : string) : outcome :=
  Response true 200 (VObj [(lit "status", VStr (lit status))]).
Definition question : jsstring := lit "Is talc allowed?".

Lemma C6_failed_run_witness :
  createThreadWithMessage sample_host question
    ([thread_created; message_added; run_started "queued"; in_progress]
     ++ run_status "failed" :: [in_progress])
  = (Returned (VStr RUN_FAILED),
     (createThreadWithMessage sample_host question
        [thread_created; message_added; run_started "queued"; in_progress]).2).
Proof.
  refine (proj1 (C6_failed_run sample_host question
    [thread_created; message_added; run_started "queued"; in_progress] [in_progress]
    (AwaitPoll (VStr (lit "thread_1")) (VStr (lit "run_1"))) _ true 200
    (VObj [(lit "status", VStr (lit "failed"))]) (Page [] []) _ _ _ _)).
  - vm_compute. reflexivity.
  - left. by eexists _, _.
  - vm_compute. reflexivity.
  - vm_compute. discriminate.
Defined.

(** C7: when a step fails (the call is rejected, the answer of one of the
    four plain calls is not [ok], or a poll answers without status or with
    the status [failed]) the call returns the message of that failure at
    once: the step emits no event, and the events of the whole query are
    those issued before the failing answer, whatever the service would
    answer next.  Those calls follow the chain, each one at most once
    except the poll, so no step was tried again.  The chat keeps every
    earlier bubble and gains the user's bubble and one bubble with the
    message. *)
Theorem C7_failure_is_terminal (h : host) (input : jsstring) (os more : list outcome)
    (s : state) (evs : list event) (o : outcome) (pg : page) :
  createThreadWithMessage h input os = (s, evs) →
  failed_step s o = true →
  step h s o = (Returned (VStr (failure_message h s o)), [])
  ∧ createThreadWithMessage h input (os ++ o :: more)
    = (Returned (VStr (failure_message h s o)), evs)
  ∧ StronglySorted advances (sites evs)
  ∧ chat pg `prefix_of` chat (sendMessage h input (os ++ o :: more) pg).1
  ∧ (trim input ≠ [] →
     sendMessage h input (os ++ o :: more) pg =
     (Page (chat pg ++
            [UserBubble input;
             BotBubble (sanitizeAssistantResponse (failure_message h s o)
                          (collectedReferences pg)).1 false])
           (sanitizeAssistantResponse (failure_message h s o) (collectedReferences pg)).2,
      evs)).
Proof.
  intros H Hf.
  assert (is_returned s = false) as Hs by (by destruct s).
  pose proof (step_failed h s o Hf) as Hstep.
  pose proof (create_snoc_returned h input os s evs o more _ H Hstep Hs) as Hret.
  split_and!; [done..| | |].
  - pose proof (create_sorted h input os) as Hsorted. by rewrite H in Hsorted.
  - apply sendMessage_keeps_chat.
  - intros Hne. by apply sendMessage_returned.
Qed.

Lemma C7_failure_is_terminal_witness :
  createThreadWithMessage sample_host question
    ([thread_created] ++ Response false 401 (VObj []) :: [run_started "queued"])
  = (Returned (VStr (lit "Failed to add message to thread. Details: {}")),
     (createThreadWithMessage sample_host question [thread_created]).2).
Proof.
  refine (proj1 (proj2 (C7_failure_is_terminal sample_host question
    [thread_created] [run_started "queued"]
    (AwaitMessage (VStr (lit "thread_1"))) _ (Response false 401 (VObj []))
    (Page [] []) _ _))).
  - vm_compute. reflexivity.
  - vm_compute. reflexivity.
Defined.

(** When the listing succeeds and no entry of the list is [null], the
    call returns the text value [content[0].text.value] of the first
    entry whose role is [assistant], provided that value is truthy; when
    the body holds no non-empty list, when no entry is an assistant's, or
    when the entry has no such value, it returns one of the two strings
    that report an empty response.  No event follows the listing. *)
Lemma first_assistant_text_returned (h : host) (st : Z) (messagesData : value) :
  readable messagesData →
  step h AwaitMessages (Response true st messagesData)
  = (Returned (answer_of h messagesData), [])
  ∧ (is_empty_response (answer_of h messagesData)
     ∨ ∃ data m, prop messagesData (lit "data") = VArr data
                 ∧ first_assistant data = Some m
                 ∧ truthy (text_value m) = true
                 ∧ answer_of h messagesData = text_value m)
  ∧ (∀ data m,
       truthy messagesData = true →
       prop messagesData (lit "data") = VArr data →
       first_assistant data = Some m →
       truthy (prop m (lit "content")) = true →
       truthy (text_value m) = true →
       answer_of h messagesData = text_value m)
  ∧ (∀ data,
       truthy messagesData = true →
       prop messagesData (lit "data") = VArr data →
       first_assistant data = None →
       is_empty_response (answer_of h messagesData)).
Proof.
  intros Hr. split_and!.
  - by apply step_messages.
  - apply answer_of_cases.
  - intros data m Ht Hd Hf Hc Hv. unfold answer_of. rewrite Ht, Hd.
    destruct data as [|m0 data]; [done|]. by rewrite Hf, Hc, Hv.
  - intros data Ht Hd Hf. unfold answer_of. rewrite Ht, Hd.
    destruct data as [|m0 data]; [right; by eexists|]. rewrite Hf. by left.
Qed.

Definition user_entry : value :=
  VObj [(lit "role", VStr (lit "user"));
        (lit "content", VArr [VObj [(lit "text", VObj [(lit "value", VStr question)])]])].

Definition assistant_entry (answer : value) : value :=
  VObj [(lit "role", VStr (lit "assistant"));
        (lit "content", VArr [VObj [(lit "text", VObj [(lit "value", answer)])]])].

Definition listing (entries : list value) : outcome :=
  Response true 200 (VObj [(lit "data", VArr entries)]).

Example first_assistant_text_sample :
  step sample_host AwaitMessages
    (listing [user_entry; assistant_entry (VStr (lit "Yes.")); assistant_entry (VStr (lit "No."))])
  = (Returned (VStr (lit "Yes.")), []).
Proof.
  refine (proj1 (first_assistant_text_returned sample_host 200
    (VObj [(lit "data", VArr [user_entry; assistant_entry (VStr (lit "Yes."));
                              assistant_entry (VStr (lit "No."))])]) _)).
  intros data [= <-]. repeat constructor.
Qed.

(** [find] stops at the first entry it cannot read. *)
Lemma find_assistant_unreadable (h : host) (before after : list value) (bad : value) :
  Forall (λ m, nullish m = false
               ∧ is_str (prop m (lit "role")) (lit "assistant") = false) before →
  nullish bad = true →
  find_assistant h (before ++ bad :: after)
  = Throw (type_error_message h bad (lit "role")).
Proof.
  intros Hb Hbad. induction Hb as [|m before [Hm Hrole] _ IH].
  - cbn [app find_assistant]. unfold get. by rewrite Hbad.
  - rewrite <-app_comm_cons. cbn [find_assistant]. unfold get. by rewrite Hm, Hrole.
Qed.

Lemma CAUGHT_head (message : jsstring) : head (CAUGHT ++ message) = Some 65.
Proof. reflexivity. Qed.

Lemma caught_is_no_empty_response (message : jsstring) :
  ¬ is_empty_response (VStr (CAUGHT ++ message)).
Proof.
  pose proof (CAUGHT_head message) as Hh.
  intros [[= E]|[details [= E]]]; rewrite E in Hh; discriminate Hh.
Qed.

(** C8: an entry [null] (or [undefined]) of the listing that stands before
    the first assistant message is not skipped: [find] reads its [role],
    the TypeError is caught, and the call returns the string of the
    [catch] clause.  That string is none of the two that report an empty
    response, and it is returned whatever follows the entry: the text of
    an assistant message further down the list is lost, although that
    message is still the first entry whose role is [assistant]. *)
Theorem C8_null_entry_hides_assistant (h : host) (st : Z)
    (props : list (jsstring * value)) (before after : list value) (bad : value) :
  own props (lit "data") = VArr (before ++ bad :: after) →
  Forall (λ m, nullish m = false
               ∧ is_str (prop m (lit "role")) (lit "assistant") = false) before →
  nullish bad = true →
  step h AwaitMessages (Response true st (VObj props))
  = (Returned (VStr (CAUGHT ++ type_error_message h bad (lit "role"))), [])
  ∧ first_assistant (before ++ bad :: after) = first_assistant after
  ∧ ¬ is_empty_response (VStr (CAUGHT ++ type_error_message h bad (lit "role"))).
Proof.
  intros Hdata Hb Hbad.
  assert (step h AwaitMessages (Response true st (VObj props))
          = (Returned (VStr (CAUGHT ++ type_error_message h bad (lit "role"))), []))
    as Hstep.
  { unfold step, step_body, on_messages. cbn [received ret bind mbind M_bind negb truthy prop].
    rewrite Hdata.
    pose proof (find_assistant_unreadable h before after bad Hb Hbad) as Hfind.
    destruct (before ++ bad :: after) as [|m0 data] eqn:E; [by destruct before|].
    by rewrite Hfind. }
  split_and!.
  - done.
  - clear Hdata Hstep. induction Hb as [|m before [Hm Hrole] _ IH].
    + cbn [app first_assistant List.find]. by destruct bad.
    + rewrite <-app_comm_cons. cbn [first_assistant List.find]. by rewrite Hrole.
  - apply caught_is_no_empty_response.
Qed.

Lemma C8_null_entry_hides_assistant_witness :
  step sample_host AwaitMessages
    (listing [user_entry; VNull; assistant_entry (VStr (lit "Yes."))])
  = (Returned (VStr (lit "An error occurred while processing your request: Cannot read properties of null (reading 'role')")),
     [])
  ∧ first_assistant [user_entry; VNull; assistant_entry (VStr (lit "Yes."))]
    = Some (assistant_entry (VStr (lit "Yes.")))
  ∧ text_value (assistant_entry (VStr (lit "Yes."))) = VStr (lit "Yes.").
Proof.
  split; [|by vm_compute].
  refine (eq_trans (proj1 (C8_null_entry_hides_assistant sample_host 200
    [(lit "data", VArr [user_entry; VNull; assistant_entry (VStr (lit "Yes."))])]
    [user_entry] [assistant_entry (VStr (lit "Yes."))] VNull _ _ _)) _).
  - vm_compute. reflexivity.
  - repeat constructor.
  - reflexivity.
  - vm_compute. reflexivity.
Defined.

Lemma sites_fetch r evs : sites (Fetch r :: evs) = site r :: sites evs.
Proof. done. Qed.

(** The claim fails when the service sends a number where the text is
    expected: the number is returned as it is. *)
Lemma C10_counterexample :
  (createThreadWithMessage sample_host question
     [thread_created; message_added; run_started "completed";
      listing [assistant_entry (VNum 42)]]).1
  = Returned (VNum 42)
  ∧ ∀ s, VNum 42 ≠ VStr s.
Proof. split; [by vm_compute | done]. Qed.

(** C10 (amended): whatever the input and the answers, the call ends in
    no exception.  When it has returned, its value is a string, or it is
    the truthy value found at [content[0].text.value] of the first
    assistant message of the listing, the answer the call was waiting
    for when it returned.  When it has not returned, it has used every
    answer and is suspended on one further call.  A call that the
    network rejects is returned as the string of the [catch] clause, at
    once and from every suspension.  While the answers to the polls carry
    a status that is not terminal the call does not return: it is still
    polling after any number of them. *)
Theorem C10_returns_string_or_text_value (h : host) (input : jsstring)
    (os : list outcome) :
  match (createThreadWithMessage h input os).1 with
  | Returned v =>
    (∃ str, v = VStr str)
    ∨ ∃ os' o more, os = os' ++ o :: more
                    ∧ (createThreadWithMessage h input os').1 = AwaitMessages
                    ∧ listed_text o v
  | _ => length (sites (createThreadWithMessage h input os).2) = S (length os)
  end
  ∧ (∀ s message,
       is_returned s = false →
       step h s (Rejected message) = (Returned (VStr (CAUGHT ++ message)), []))
  ∧ (∀ threadId runId polls,
       (createThreadWithMessage h input os).1 = AwaitPoll threadId runId →
       Forall (λ o, pending o = true) polls →
       (createThreadWithMessage h input (os ++ polls)).1 = AwaitPoll threadId runId).
Proof.
  split_and!.
  - unfold createThreadWithMessage.
    pose proof (run_result h (AwaitThread input) os) as Hres.
    pose proof (run_pending h (AwaitThread input) os) as Hpen.
    destruct (run h (AwaitThread input) os) as [s evs] eqn:Hrun. cbn [fst snd] in *.
    destruct s.
    1-5: (rewrite sites_fetch; cbn [length]; by rewrite Hpen).
    destruct (Hres v eq_refl eq_refl) as [?|(os' & o & more & -> & Hos' & Hl)];
      [by left|].
    right. exists os', o, more. split_and!; [done| |done].
    by destruct (run h (AwaitThread input) os') as [s' evs'].
  - intros s message Hs. by destruct s.
  - intros threadId runId polls. unfold createThreadWithMessage. rewrite run_app.
    pose proof (run_to_poll h (AwaitThread input) os threadId runId eq_refl) as Hids.
    destruct (run h (AwaitThread input) os) as [s evs]. cbn [fst] in *.
    intros -> Hp. destruct Hids as (tid & rid & Ht & Hr); [done..|].
    by rewrite (run_poll_pending h _ _ tid rid).
Qed.

(** * Further properties of the annotator *)

(** ** The reference list only grows *)

(** [unifyConsecutiveReferences] never removes or reorders a collected
    reference: the list it is given is a prefix of the list it leaves,
    and a list without duplicate stays so. *)
Theorem unify_extends_references (text : jsstring) (collected : list detail) :
  collected `prefix_of` (unifyConsecutiveReferences text collected).2
  ∧ (NoDup collected → NoDup (unifyConsecutiveReferences text collected).2)
  ∧ (∀ d, d ∈ (unifyConsecutiveReferences text collected).2 ↔
          d ∈ collected ∨ d ∈ cited (pieces match_run text 0)).
Proof.
  rewrite unify_numbered. cbn zeta. cbn [snd]. split_and!.
  - apply collect_prefix.
  - apply NoDup_collect.
  - intros d. apply elem_of_collect.
Qed.

(** ** The result is trimmed *)

Lemma starts_clean_trim text : starts_clean (trim text).
Proof.
  unfold trim.
  destruct (trim_start_suffix (reverse (trim_start text))) as [ws E].
  apply (starts_clean_app_l _ (reverse ws)).
  rewrite <-reverse_app, <-E, reverse_involutive. apply starts_clean_trim_start.
Qed.

Lemma ends_clean_trim text : starts_clean (reverse (trim text)).
Proof. unfold trim. rewrite reverse_involutive. apply starts_clean_trim_start. Qed.

(** The string [sanitizeAssistantResponse] returns neither starts nor
    ends with a white space character, so trimming it again changes
    nothing. *)
Theorem sanitize_is_trimmed (text : jsstring) (before : list detail) :
  starts_clean (sanitizeAssistantResponse text before).1
  ∧ starts_clean (reverse (sanitizeAssistantResponse text before).1)
  ∧ trim (sanitizeAssistantResponse text before).1
    = (sanitizeAssistantResponse text before).1.
Proof.
  unfold sanitizeAssistantResponse.
  destruct (unifyConsecutiveReferences _ _) as [out refs]. cbn [fst].
  split_and!; [apply starts_clean_trim | apply ends_clean_trim | apply trim_idempotent].
Qed.

(** ** What the passes keep *)

(** A replacement that contains what it replaces only inserts. *)
Lemma replace_pure_inserts (m : cont) f text :
  (∀ x, x `sublist_of` f x) → text `sublist_of` replace_pure (whole m) f text.
Proof.
  intros Hf. unfold replace_pure, replace_all. rewrite substitute_pure_join.
  rewrite <-(pieces_cover m text 0) at 1. cbn [drop]. unfold pieces_text.
  induction (pieces (whole m) text 0) as [|[c|x] ps IH]; [done|..]; csimpl.
  - by apply sublist_skip.
  - by apply sublist_app.
Qed.

(** A replacement by nothing only deletes. *)
Lemma strip_deletes (m : cont) text : strip m text `sublist_of` text.
Proof.
  unfold strip, replace_pure, replace_all. rewrite substitute_pure_join.
  rewrite <-(pieces_cover m text 0) at 2. cbn [drop]. unfold pieces_text.
  induction (pieces (whole m) text 0) as [|[c|x] ps IH]; [done|..]; csimpl.
  - by apply sublist_skip.
  - by apply sublist_inserts_l.
Qed.

Lemma link_anchor_keeps m : m `sublist_of` link_anchor m.
Proof.
  unfold link_anchor. rewrite !(assoc app).
  apply sublist_inserts_r, sublist_inserts_r, sublist_inserts_l. done.
Qed.

(** [linkReferences] only inserts: the text it is given is kept, in
    order, inside its result. *)
Theorem linkReferences_only_inserts (text : jsstring) :
  text `sublist_of` linkReferences text.
Proof. apply replace_pure_inserts, link_anchor_keeps. Qed.

Lemma embolden_inserts phrase text : text `sublist_of` embolden phrase text.
Proof.
  apply replace_pure_inserts. intros x.
  apply sublist_inserts_l, sublist_inserts_r. done.
Qed.

(** The markdown passes of [sanitizeAssistantResponse] only delete, and
    the five header passes only insert: between the text and the prepared
    text stands the text without its markdown signs, a part of both. *)
Theorem prepare_deletes_then_inserts (text : jsstring) :
  let stripped := strip re_bracketed (strip re_bold (strip re_heading text)) in
  stripped `sublist_of` text ∧ stripped `sublist_of` prepare text.
Proof.
  cbn zeta. split.
  - etrans; [apply strip_deletes|]. etrans; apply strip_deletes.
  - unfold prepare. repeat (etrans; [|apply embolden_inserts]). done.
Qed.

(** ** No heading sign survives *)

Lemma re_star_total f (k : cont) :
  (∀ t, is_Some (k t)) → ∀ t, is_Some (re_star f k t).
Proof. intros Hk t. apply re_star_fallback, Hk. Qed.

Lemma re_opt_total (a : cont → cont) t : is_Some (re_opt a re_end t).
Proof. unfold re_opt, re_alt. destruct (a re_end t); by eexists. Qed.

Lemma re_heading_hash rest : is_Some (re_heading (HASH :: rest)).
Proof.
  unfold re_heading, re_plus. unfold re_chr at 1.
  change (is_chr HASH HASH) with true. cbv iota.
  apply fmap_is_Some, re_star_total, re_opt_total.
Qed.

Lemma strip_heading_pieces text skip :
  Forall (λ p, match p with Keep c => c ≠ HASH | Hit _ => True end)
         (pieces (whole re_heading) text skip).
Proof.
  revert skip. induction text as [|c rest IH]; intros skip; [constructor|].
  cbn [pieces]. destruct skip as [|k]; [|apply IH].
  unfold whole at 1. destruct (re_heading (c :: rest)) as [[|n]|] eqn:E;
    cbn [mbind option_bind].
  - constructor; [done|]. constructor; [|apply IH].
    intros ->. destruct (re_heading_hash rest) as [n Hn].
    unfold re_heading, re_plus in E, Hn. unfold re_chr at 1 in E. unfold re_chr at 1 in Hn.
    change (is_chr HASH HASH) with true in E, Hn. cbv iota in E, Hn.
    by destruct (re_star _ _ rest).
  - constructor; [done | apply IH].
  - constructor; [|apply IH]. intros ->.
    destruct (re_heading_hash rest) as [n Hn]. congruence.
Qed.

Lemma hash_not_in_strip_heading text : HASH ∉ strip re_heading text.
Proof.
  unfold strip, replace_pure, replace_all. rewrite substitute_pure_join.
  induction (strip_heading_pieces text 0) as [|[c|x] ps Hp _ IH]; csimpl.
  - by intros ?%elem_of_nil.
  - intros [?|?]%elem_of_cons; [by subst | done].
  - done.
Qed.

(** Every [#] of the text is removed by the first pass and no later pass
    brings one back before references are unified: the prepared text holds
    no [#]. *)
Theorem prepare_has_no_hash (text : jsstring) : HASH ∉ prepare text.
Proof.
  intros Hin. unfold prepare in Hin.
  repeat (apply elem_of_embolden in Hin as [Hin|[Hin|Hin]];
          [|by vm_compute in Hin; repeat (apply elem_of_cons in Hin as [?|Hin]; [done|]);
               apply elem_of_nil in Hin..]).
  do 2 apply elem_of_strip in Hin. by apply hash_not_in_strip_heading in Hin.
Qed.

(** ** A link needs a dash *)

(** [k] can only succeed on a text that holds [c]. *)
Definition needs (c : N) (k : cont) : Prop := ∀ t, is_Some (k t) → c ∈ t.

Lemma needs_chr c f k : needs c k → needs c (re_chr f k).
Proof.
  intros Hk [|x t]; unfold re_chr; [by intros [? ?]|].
  destruct (f x); [|by intros [? ?]]. rewrite fmap_is_Some. intros H. right. by apply Hk.
Qed.

Lemma needs_chr_here c f k : (∀ x, f x = true → x = c) → needs c (re_chr f k).
Proof.
  intros Hf [|x t]; unfold re_chr; [by intros [? ?]|].
  destruct (f x) eqn:E; [|by intros [? ?]]. intros _. rewrite (Hf x E). by left.
Qed.

Lemma needs_lit c eqc p k : needs c k → needs c (re_lit eqc p k).
Proof. intros Hk. induction p as [|a p IH]; [done|]. by apply needs_chr. Qed.

Lemma needs_star c f k : needs c k → needs c (re_star f k).
Proof.
  intros Hk t. induction t as [|x t IH]; cbn [re_star]; [apply Hk|].
  destruct (f x); [|apply Hk]. destruct (re_star f k t) eqn:E.
  - intros _. right. apply IH. by eexists.
  - apply Hk.
Qed.

Lemma needs_plus c f k : needs c k → needs c (re_plus f k).
Proof. intros. by apply needs_chr, needs_star. Qed.

Lemma needs_alt c (a b : cont → cont) k :
  needs c (a k) → needs c (b k) → needs c (re_alt a b k).
Proof.
  intros Ha Hb t. unfold re_alt. destruct (a k t) eqn:E.
  - intros _. apply Ha. by eexists.
  - apply Hb.
Qed.

Lemma eq_ci_dash x : eq_ci DASH x = true → x = DASH.
Proof.
  unfold eq_ci. change (upcase DASH) with DASH. unfold upcase, DASH.
  intros H%N.eqb_eq.
  destruct ((97 <=? x) && (x <=? 122)) eqn:E; [|done].
  apply andb_prop in E as [E1%N.leb_le E2%N.leb_le]. lia.
Qed.

Lemma needs_dash_page k : needs DASH (re_lit eq_ci (lit " - Page ") k).
Proof.
  change (lit " - Page ") with (32 :: DASH :: lit " Page ").
  cbn [re_lit]. apply needs_chr, needs_chr_here, eq_ci_dash.
Qed.

Lemma needs_dash_link : needs DASH re_link.
Proof.
  unfold re_link.
  apply needs_alt; [|apply needs_alt];
    apply needs_lit, needs_plus, needs_dash_page.
Qed.

Lemma occurs_needs c m text : needs c m → occurs m text = true → c ∈ text.
Proof.
  intros Hm. induction text as [|x t IH]; cbn [occurs].
  - destruct (m []) eqn:E; [|done]. intros _. apply Hm. rewrite E. by eexists.
  - destruct (m (x :: t)) eqn:E.
    + intros _. apply Hm. rewrite E. by eexists.
    + intros H. right. by apply IH.
Qed.

(** A text without the character [-] is returned as it is by
    [linkReferences]: every linkable phrase holds " - Page ". *)
Theorem linkReferences_needs_dash (text : jsstring) :
  DASH ∉ text → linkReferences text = text.
Proof.
  intros H. apply linkReferences_unmatched. unfold has_linkable_phrase.
  apply not_true_is_false. intros Ho. apply H.
  apply (occurs_needs DASH re_link); [apply needs_dash_link | done].
Qed.

Lemma linkReferences_needs_dash_witness :
  linkReferences (lit "See the guidance on Page 12, Section 4.8")
  = lit "See the guidance on Page 12, Section 4.8".
Proof.
  apply linkReferences_needs_dash. vm_compute.
  intros H. repeat (apply elem_of_cons in H as [H|H]; [discriminate H|]).
  by apply elem_of_nil in H.
Defined.

(** * The reference list of the Explain section *)

Section Explanation.

(** The text a template literal gives an inherited property (the source
    text of a built-in function) is left to the host. *)
Variable inherited_text : jsstring → jsstring.

(** [`${ref}`] *)
Definition detail_text (d : detail) : jsstring :=
  match d with
  | Text s => s
  | Inherited name => inherited_text name
  end.

Definition NO_REFERENCES : jsstring := lit "<em>No references found.</em>".
Definition REFERENCES_HEAD : jsstring := lit "<strong>References</strong><br>".

(** The closing template of [getReferenceDetails]. *)
Definition REFERENCES_FOOT : jsstring :=
  [NEWLINE] ++ lit "    <br>" ++ [NEWLINE]
  ++ lit "    <a href=" ++ [DQUOTE]
  ++ lit "https://drive.google.com/file/d/1OGt3QP7K94-P6sJFO61NodgHknDiHsXa/edit"
  ++ [DQUOTE; NEWLINE]
  ++ lit "       target=" ++ [DQUOTE] ++ lit "_blank" ++ [DQUOTE; NEWLINE]
  ++ lit "       style=" ++ [DQUOTE] ++ lit "text-decoration: none; color: "
  ++ PRIMARY_COLOR ++ lit ";" ++ [DQUOTE] ++ lit ">" ++ [NEWLINE]
  ++ lit "       View FDA Guidance (PDF)" ++ [NEWLINE]
  ++ lit "    </a>" ++ [NEWLINE]
  ++ lit "  ".

(** [`[${i + 1}] ${ref}<br>`] *)
Definition reference_line (n : Z) (ref : detail) : jsstring :=
  lit "[" ++ decimal n ++ lit "] " ++ detail_text ref ++ lit "<br>".

Definition getReferenceDetails (collectedReferences : list detail) : jsstring :=
  match collectedReferences with
  | [] => NO_REFERENCES
  | _ :: _ =>
    REFERENCES_HEAD
    ++ mjoin (imap (λ i ref, reference_line (Z.of_nat i + 1) ref) collectedReferences)
    ++ REFERENCES_FOOT
  end.

(** In a list without duplicate the position of a reference is the one
    [indexOf] finds. *)
Lemma number_at (l : list detail) (i : nat) (d : detail) :
  NoDup l → l !! i = Some d → number l d = (Z.of_nat i + 1)%Z.
Proof.
  intros Hnd Hi. unfold number, indexOf.
  assert (list_find (λ y, y = d) l = Some (i, d)) as ->; [|done].
  apply list_find_Some. split_and!; [done..|].
  intros j y Hj Hlt ->. pose proof (NoDup_lookup l i j d Hnd Hi Hj). lia.
Qed.

Lemma getReferenceDetails_numbers (l : list detail) :
  NoDup l →
  getReferenceDetails l =
  match l with
  | [] => NO_REFERENCES
  | _ :: _ =>
    REFERENCES_HEAD ++ mjoin ((λ d, reference_line (number l d) d) <$> l)
    ++ REFERENCES_FOOT
  end.
Proof.
  intros Hnd. unfold getReferenceDetails.
  assert (imap (λ i ref, reference_line (Z.of_nat i + 1) ref) l
          = (λ d, reference_line (number l d) d) <$> l) as E.
  { rewrite <-(imap_const (λ d, reference_line (number l d) d)).
    apply imap_ext. intros i d Hi. unfold const. by rewrite (number_at l i d). }
  destruct l; [done|]. by rewrite E.
Qed.

(** After [sanitizeAssistantResponse] the reference list [getReferenceDetails]
    builds shows every collected citation once, under the number its
    footnotes carry in the text ([number] of the final list, the one the
    superscript blocks display); without citation it is the fixed notice. *)
Theorem explanation_matches_footnotes (text : jsstring) (before : list detail) :
  let final := (sanitizeAssistantResponse text before).2 in
  getReferenceDetails final =
  match final with
  | [] => NO_REFERENCES
  | _ :: _ =>
    REFERENCES_HEAD ++ mjoin ((λ d, reference_line (number final d) d) <$> final)
    ++ REFERENCES_FOOT
  end.
Proof.
  cbn zeta. apply getReferenceDetails_numbers.
  unfold sanitizeAssistantResponse. rewrite unify_numbered. cbn zeta. cbn [snd].
  apply NoDup_collect, NoDup_nil_2.
Qed.

End Explanation.

(** * No marker survives the unification *)

(** A replacement block: it opens with [<] and holds no [【]. *)
Definition is_block (b : jsstring) : Prop :=
  (∃ b', b = 60 :: b') ∧ LBRACKET ∉ b.

Section Rendered.
Variable block : jsstring → jsstring.
Hypothesis block_ok : ∀ x, is_block (block x).

Definition rendered (text : jsstring) (skip : nat) : jsstring :=
  mjoin ((λ p, match p with Keep c => [c] | Hit x => block x end)
         <$> pieces match_run text skip).

Lemma rendered_nil skip : rendered [] skip = [].
Proof. done. Qed.

Lemma rendered_skip c rest k : rendered (c :: rest) (S k) = rendered rest k.
Proof. done. Qed.

Lemma match_run_Some_pos text x n : match_run text = Some (x, n) → n ≠ O.
Proof.
  unfold match_run, whole, re_run. destruct (run_length text 0) eqn:E; [done|].
  cbn. by intros [= <- <-].
Qed.

Lemma rendered_keep c rest :
  match_marker (c :: rest) = None → rendered (c :: rest) 0 = c :: rendered rest 0.
Proof.
  intros H. unfold rendered. by rewrite pieces_miss by by apply match_run_None.
Qed.

Lemma rendered_hit c rest code n :
  match_marker (c :: rest) = Some (code, n) →
  ∃ x k, rendered (c :: rest) 0 = block x ++ rendered rest k.
Proof.
  intros E. unfold rendered. cbn [pieces].
  destruct (match_run (c :: rest)) as [[x [|k]]|] eqn:Er.
  - by apply match_run_Some_pos in Er.
  - by exists x, k.
  - unfold match_run, whole, re_run in Er. cbn [run_length] in Er. by rewrite E in Er.
Qed.

Lemma rendered_cases c rest :
  rendered (c :: rest) 0 = c :: rendered rest 0
  ∨ (c = LBRACKET ∧ ∃ x k, rendered (c :: rest) 0 = block x ++ rendered rest k).
Proof.
  destruct (match_marker (c :: rest)) as [[code n]|] eqn:E; [|left; by apply rendered_keep].
  right. split; [|by eapply rendered_hit].
  apply match_marker_Some_inv in E as (tail & [= -> _] & _). done.
Qed.

Lemma match_marker_not_bracket c rest : c ≠ LBRACKET → match_marker (c :: rest) = None.
Proof.
  intros H. unfold match_marker. by apply N.eqb_neq in H as ->.
Qed.

Lemma re_run_not_bracket c rest : c ≠ LBRACKET → re_run (c :: rest) = None.
Proof.
  intros H. unfold re_run. by rewrite run_length_None by by apply match_marker_not_bracket.
Qed.

(** Nothing starts inside a block. *)
Lemma occurs_block b w :
  LBRACKET ∉ b → occurs re_run w = false → occurs re_run (b ++ w) = false.
Proof.
  intros Hb Hw. induction b as [|x b IH]; [done|].
  rewrite <-app_comm_cons. cbn [occurs].
  rewrite re_run_not_bracket by (intros ->; apply Hb; by left).
  apply IH. intros ?. apply Hb. by right.
Qed.

(** A literal that fails on the text fails on the rendered text, when
    the literal holds neither [【] nor [<]. *)
Lemma strip_prefix_rendered p w :
  LBRACKET ∉ p → 60 ∉ p →
  strip_prefix N.eqb p w = None → strip_prefix N.eqb p (rendered w 0) = None.
Proof using block_ok.
  revert w. induction p as [|x p IH]; intros w Hb Hlt; [done|].
  assert (x ≠ LBRACKET) as Hx by (intros ->; apply Hb; by left).
  assert (x ≠ 60) as Hx' by (intros ->; apply Hlt; by left).
  assert (LBRACKET ∉ p) as Hb' by (intros ?; apply Hb; by right).
  assert (60 ∉ p) as Hlt' by (intros ?; apply Hlt; by right).
  destruct w as [|y w]; [done|]. cbn [strip_prefix].
  destruct (x =? y) eqn:E.
  - apply N.eqb_eq in E as <-. intros H.
    rewrite rendered_keep by by apply match_marker_not_bracket.
    cbn [strip_prefix]. rewrite N.eqb_refl. by apply IH.
  - intros _. destruct (rendered_cases y w) as [->|(-> & x0 & k & ->)].
    + cbn [strip_prefix]. by rewrite E.
    + destruct (block_ok x0) as [[b' ->] _]. rewrite <-app_comm_cons.
      cbn [strip_prefix]. by apply N.eqb_neq in Hx' as ->.
Qed.

(** No marker starts inside a stretch without dagger that is followed by
    something else than the tail of a marker. *)
Lemma quiet_stretch a r :
  Forall (λ x, not_dagger x = true) a →
  (r = [] ∨ ∃ r', r = DAGGER :: r') →
  strip_prefix N.eqb MARKER_TAIL r = None →
  quiet a r = true.
Proof.
  intros Ha Hr Ht. induction Ha as [|x a Hx Ha IH]; [done|].
  cbn [quiet]. rewrite <-app_comm_cons.
  assert (match_marker (x :: a ++ r) = None) as ->; [|done].
  unfold match_marker. destruct (x =? LBRACKET); [|done].
  assert (span not_dagger (a ++ r) = (a, r)) as ->.
  { destruct Hr as [->|[r' ->]].
    - rewrite app_nil_r. by apply span_all.
    - by apply span_stop. }
  destruct a; [done|]. by rewrite Ht.
Qed.

Lemma rendered_quiet pre rest :
  quiet pre rest = true → rendered (pre ++ rest) 0 = pre ++ rendered rest 0.
Proof.
  intros H. unfold rendered. rewrite pieces_quiet by done.
  rewrite fmap_app, join_app. f_equal.
  induction pre as [|c pre IH]; [done|]. csimpl. f_equal. apply IH.
  cbn [quiet] in H. by destruct (match_marker _).
Qed.

Lemma span_split f (text : jsstring) :
  ∃ a r, span f text = (a, r) ∧ text = a ++ r
         ∧ Forall (λ x, f x = true) a
         ∧ (r = [] ∨ ∃ x r', r = x :: r' ∧ f x = false).
Proof.
  induction text as [|c t (a & r & E & -> & Ha & Hr)]; cbn [span].
  - exists [], []. split_and!; [done..|constructor|by left].
  - destruct (f c) eqn:Ec.
    + rewrite E. exists (c :: a), r. split_and!; [done..|by constructor|done].
    + exists [], (c :: a ++ r). split_and!; [done..|constructor|right; by eexists _, _].
Qed.

(** A kept character at which no marker starts in the text starts none
    in the rendered text. *)
Lemma match_marker_rendered c rest :
  match_marker (c :: rest) = None → match_marker (c :: rendered rest 0) = None.
Proof using block_ok.
  intros H. destruct (decide (c = LBRACKET)) as [->|Hc];
    [|by apply match_marker_not_bracket].
  destruct (span_split not_dagger rest) as (a & r & Es & -> & Ha & Hr).
  assert (r = [] ∨ ∃ r', r = DAGGER :: r') as Hr'.
  { destruct Hr as [->|(x & r' & -> & Hx)]; [by left|right]. exists r'. f_equal.
    unfold not_dagger in Hx. by apply negb_false_iff, N.eqb_eq in Hx. }
  unfold match_marker in H. rewrite N.eqb_refl, Es in H.
  destruct a as [|x a].
  { (* an empty code *)
    cbn [app] in *. destruct Hr' as [->|[r' ->]].
    - rewrite rendered_nil. done.
    - rewrite rendered_keep by (by apply match_marker_not_bracket).
      unfold match_marker. rewrite N.eqb_refl. cbn [span].
      by change (not_dagger DAGGER) with false. }
  assert (strip_prefix N.eqb MARKER_TAIL r = None) as Ht
    by (by destruct (strip_prefix N.eqb MARKER_TAIL r)).
  rewrite rendered_quiet by by apply quiet_stretch.
  unfold match_marker. rewrite N.eqb_refl.
  destruct Hr' as [->|[r' ->]].
  - rewrite rendered_nil, app_nil_r, span_all by done. done.
  - rewrite rendered_keep by (by apply match_marker_not_bracket).
    rewrite span_stop by done.
    unfold MARKER_TAIL in Ht |- *. cbn [strip_prefix] in Ht |- *.
    rewrite N.eqb_refl in Ht |- *.
    rewrite strip_prefix_rendered; [done| | |done];
      vm_compute; intros Hin;
      repeat (apply elem_of_cons in Hin as [Hin|Hin]; [discriminate Hin|]);
      by apply elem_of_nil in Hin.
Qed.

Lemma rendered_no_marker text skip : occurs re_run (rendered text skip) = false.
Proof using block_ok.
  revert skip. induction text as [|c rest IH]; intros skip; [by destruct skip|].
  destruct skip as [|k]; [|rewrite rendered_skip; apply IH].
  destruct (match_marker (c :: rest)) as [[code n]|] eqn:E.
  - destruct (rendered_hit c rest code n E) as (x & k & ->).
    apply occurs_block; [by destruct (block_ok x) | apply IH].
  - rewrite rendered_keep by done. cbn [occurs].
    assert (re_run (c :: rendered rest 0) = None) as ->.
    { unfold re_run. by rewrite run_length_None by by apply match_marker_rendered. }
    apply IH.
Qed.

End Rendered.

Lemma footnote_is_block collected ds : is_block (footnote collected ds).
Proof.
  split.
  - unfold footnote. by eexists.
  - unfold footnote. intros [H|[H|H]%elem_of_app]%elem_of_app.
    + apply lit_small in H. unfold LBRACKET in H. lia.
    + apply join_small in H as [H|(p & (z & -> & _)%list_elem_of_fmap & H)];
        apply lit_small in H; unfold LBRACKET in H; lia.
    + apply lit_small in H. unfold LBRACKET in H. lia.
Qed.

(** The result of [unifyConsecutiveReferences] holds no reference marker:
    every marker of the text is replaced and the replacement creates no
    new one, so a second pass returns the text and the list it is given. *)
Theorem unify_leaves_no_marker (text : jsstring) (collected collected' : list detail) :
  has_marker (unifyConsecutiveReferences text collected).1 = false
  ∧ unifyConsecutiveReferences (unifyConsecutiveReferences text collected).1 collected'
    = ((unifyConsecutiveReferences text collected).1, collected').
Proof.
  assert (has_marker (unifyConsecutiveReferences text collected).1 = false) as H.
  { rewrite unify_numbered. cbn zeta. cbn [fst]. unfold has_marker.
    apply (rendered_no_marker
             (λ x, footnote (collect collected (cited (pieces match_run text 0)))
                            (lookup_detail <$> exec_all x))).
    intros x. apply footnote_is_block. }
  split; [done | by apply unify_unmatched].
Qed.

(** * Further properties of the client *)

Section ClientExtras.
Context (h : host).

(** ** The successful query *)

Lemma step_thread_ok input st threadData tid :
  nullish threadData = false → prop threadData (lit "id") = VStr tid →
  step h (AwaitThread input) (Response true st threadData)
  = (AwaitMessage (VStr tid), [Fetch (message_request h tid input)]).
Proof.
  intros Hn Hid. unfold step, step_body, on_thread, get.
  cbn [received ret bind mbind M_bind negb]. rewrite Hn, Hid. done.
Qed.

Lemma step_message_ok threadId tid st messageData :
  to_string h threadId = Ok tid →
  step h (AwaitMessage threadId) (Response true st messageData)
  = (AwaitRun threadId, [Fetch (run_request h tid)]).
Proof.
  intros Ht. unfold step, step_body, on_message.
  cbn [received ret bind mbind M_bind negb]. by rewrite Ht.
Qed.

(** The status of the answer that starts the run enters the loop unless
    it is one of the two terminal strings; it may even be missing. *)
Definition keeps_waiting (v : value) : bool :=
  negb (is_str v (lit "completed")) && negb (is_str v (lit "failed")).

Lemma step_run_waiting threadId runId tid rid st runData :
  to_string h threadId = Ok tid → to_string h runId = Ok rid →
  nullish runData = false → prop runData (lit "id") = runId →
  keeps_waiting (prop runData (lit "status")) = true →
  step h (AwaitRun threadId) (Response true st runData)
  = (AwaitPoll threadId runId, [Sleep 1000; Fetch (poll_request tid rid)]).
Proof.
  intros Ht Hr Hn Hid Hw. unfold step, step_body, on_run, poll_or_finish, get.
  cbn [received ret bind mbind M_bind negb]. rewrite Hn. cbn [lift bind mbind M_bind app].
  rewrite Hid. unfold keeps_waiting in Hw. rewrite Hw, Ht, Hr. done.
Qed.

Lemma step_run_completed threadId tid st runData :
  to_string h threadId = Ok tid →
  nullish runData = false →
  prop runData (lit "status") = VStr (lit "completed") →
  step h (AwaitRun threadId) (Response true st runData)
  = (AwaitMessages, [Fetch (messages_request tid)]).
Proof.
  intros Ht Hn Hs. unfold step, step_body, on_run, poll_or_finish, get.
  cbn [received ret bind mbind M_bind negb]. rewrite Hn. cbn [lift bind mbind M_bind app].
  rewrite Hs. cbn. by rewrite Ht.
Qed.


End ClientExtras.



(** ** One call per answer *)

Lemma run_calls_le (h : host) s os : (length (sites (run h s os).2) ≤ length os)%nat.
Proof.
  revert s. induction os as [|o os IH]; intros s; [done|].
  destruct (is_returned s) eqn:Hs.
  { cbn [run]. rewrite Hs. cbn. lia. }
  rewrite run_cons by done.
  pose proof (step_sites h s o Hs) as Hsites.
  destruct (step h s o) as [s1 evs1]. cbn [fst snd] in *.
  specialize (IH s1). destruct (run h s1 os) as [s2 evs2]. cbn [fst snd] in *.
  rewrite sites_app, length_app, Hsites.
  destruct (awaited s1); simpl; lia.
Qed.

(** The function never issues two calls without an answer in between:
    after [n] answers it has issued at most [n + 1] calls, and exactly
    that many while it has not returned. *)
Theorem one_call_per_answer (h : host) (input : jsstring) (os : list outcome) :
  (length (sites (createThreadWithMessage h input os).2) ≤ S (length os))%nat
  ∧ (is_returned (createThreadWithMessage h input os).1 = false →
     length (sites (createThreadWithMessage h input os).2) = S (length os)).
Proof.
  unfold createThreadWithMessage.
  pose proof (run_calls_le h (AwaitThread input) os) as Hle.
  pose proof (run_pending h (AwaitThread input) os) as Hpen.
  destruct (run h (AwaitThread input) os) as [s evs]. cbn [fst snd] in *.
  rewrite sites_fetch. cbn [length]. split; [lia|]. intros Hs. by rewrite Hpen.
Qed.

(** ** Every poll waits first *)

(** The events of a query: calls other than polls, polls right after a
    wait of 1000 ms, and a wait that no call follows (the poll address
    could not be built). *)
Inductive paced : list event → Prop :=
| paced_nil : paced []
| paced_call r evs : site r ≠ PollRun → paced evs → paced (Fetch r :: evs)
| paced_poll r evs : site r = PollRun → paced evs → paced (Sleep 1000 :: Fetch r :: evs)
| paced_wait evs : paced evs → paced (Sleep 1000 :: evs).

Lemma paced_app evs1 evs2 : paced evs1 → paced evs2 → paced (evs1 ++ evs2).
Proof.
  induction 1 as [|r evs Hr H IH|r evs Hr H IH|evs H IH]; intros H2; cbn [app].
  - done.
  - apply paced_call; auto.
  - apply paced_poll; auto.
  - apply paced_wait; auto.
Qed.

Lemma step_paced (h : host) s o : paced (step h s o).2.
Proof.
  destruct s.
  1-4: (step_cases; repeat (constructor; try done)).
  - destruct (step_messages_returns h o) as (v & -> & _). constructor.
  - constructor.
Qed.

Lemma run_paced (h : host) s os : paced (run h s os).2.
Proof.
  revert s. induction os as [|o os IH]; intros s; [constructor|].
  cbn [run]. destruct (is_returned s); [constructor|].
  pose proof (step_paced h s o) as H1.
  destruct (step h s o) as [s1 evs1]. specialize (IH s1).
  destruct (run h s1 os) as [s2 evs2]. cbn [snd] in *. by apply paced_app.
Qed.

Lemma paced_head_call r evs : paced (Fetch r :: evs) → site r ≠ PollRun.
Proof. by inversion 1. Qed.

Lemma paced_poll_after_wait evs i r :
  paced evs → evs !! S i = Some (Fetch r) → site r = PollRun →
  evs !! i = Some (Sleep 1000).
Proof.
  intros H. revert i.
  induction H as [|r0 evs Hr0 H IH|r0 evs Hr0 H IH|evs H IH]; intros i Hi Hr.
  - done.
  - destruct i as [|i]; [|by apply IH]. cbn in Hi.
    destruct evs as [|e evs]; [done|]. cbn in Hi. injection Hi as ->.
    by apply paced_head_call in H.
  - destruct i as [|[|i]]; [done| |by apply IH]. cbn in Hi.
    destruct evs as [|e evs]; [done|]. cbn in Hi. injection Hi as ->.
    by apply paced_head_call in H.
  - destruct i as [|i]; [|by apply IH]. cbn in Hi.
    destruct evs as [|e evs]; [done|]. cbn in Hi. injection Hi as ->.
    by apply paced_head_call in H.
Qed.

(** Every poll comes right after a wait of 1000 ms, and nothing else is
    ever waited for: each wait is of 1000 ms. *)
Theorem polls_wait_first (h : host) (input : jsstring) (os : list outcome) :
  let evs := (createThreadWithMessage h input os).2 in
  (∀ i r, evs !! S i = Some (Fetch r) → site r = PollRun → evs !! i = Some (Sleep 1000))
  ∧ (∀ r, evs !! 0%nat = Some (Fetch r) → site r = CreateThread)
  ∧ (∀ ms, Sleep ms ∈ evs → ms = 1000%Z).
Proof.
  cbn zeta. unfold createThreadWithMessage.
  pose proof (run_paced h (AwaitThread input) os) as Hp.
  destruct (run h (AwaitThread input) os) as [s evs]. cbn [snd] in *.
  assert (paced (Fetch (thread_request h) :: evs)) as Hp' by (by constructor).
  split_and!.
  - intros i r. by apply paced_poll_after_wait.
  - by intros r [= <-].
  - intros ms [?|Hin]%elem_of_cons; [done|]. clear Hp'.
    induction Hp; [by apply elem_of_nil in Hin|..].
    + apply elem_of_cons in Hin as [?|?]; [done | auto].
    + apply elem_of_cons in Hin as [[= ->]|Hin]; [done|].
      apply elem_of_cons in Hin as [?|?]; [done | auto].
    + apply elem_of_cons in Hin as [[= ->]|?]; [done | auto].
Qed.

(** ** Missing fields *)

(** An [ok] answer to the thread creation whose body has no [id] is not
    refused: the message and then the run are posted to the thread named
    [undefined]. *)
Theorem missing_thread_id_is_used (h : host) (input : jsstring) (st st' : Z)
    (props : list (jsstring * value)) (messageData : value) :
  own props (lit "id") = VUndefined →
  createThreadWithMessage h input
    [Response true st (VObj props); Response true st' messageData]
  = (AwaitRun VUndefined,
     [Fetch (thread_request h);
      Fetch (message_request h (lit "undefined") input);
      Fetch (run_request h (lit "undefined"))])
  ∧ url (message_request h (lit "undefined") input)
    = lit "https://api.openai.com/v1//threads/undefined/messages".
Proof.
  intros Hid. split; [|done]. unfold createThreadWithMessage.
  rewrite run_cons by done.
  assert (step h (AwaitThread input) (Response true st (VObj props))
          = (AwaitMessage VUndefined, [Fetch (message_request h (lit "undefined") input)])) as ->.
  { unfold step, step_body, on_thread, get. cbn [received ret bind mbind M_bind negb nullish].
    cbn [lift bind mbind M_bind app prop]. rewrite Hid. done. }
  rewrite run_cons by done.
  by rewrite (step_message_ok h VUndefined (lit "undefined")).
Qed.

Lemma missing_thread_id_is_used_witness :
  (createThreadWithMessage sample_host question
     [Response true 200 (VObj [(lit "object", VStr (lit "thread"))]); message_added]).1
  = AwaitRun VUndefined.
Proof.
  exact (f_equal fst (proj1 (missing_thread_id_is_used sample_host question 200 200
    [(lit "object", VStr (lit "thread"))] (VObj [(lit "id", VStr (lit "msg_1"))]) eq_refl))).
Defined.

(** A missing status is treated in two ways: in the answer that starts
    the run it lets the client poll, in the answer to a poll it ends the
    query with the message of the missing status. *)
Theorem missing_status_start_and_poll (h : host) (threadId runId : value)
    (tid rid : jsstring) (ok : bool) (st : Z) (props : list (jsstring * value)) :
  to_string h threadId = Ok tid → to_string h runId = Ok rid →
  own props (lit "status") = VUndefined → own props (lit "id") = runId →
  step h (AwaitRun threadId) (Response true st (VObj props))
  = (AwaitPoll threadId runId, [Sleep 1000; Fetch (poll_request tid rid)])
  ∧ step h (AwaitPoll threadId runId) (Response ok st (VObj props))
    = (Returned (VStr NO_STATUS), []).
Proof.
  intros Ht Hr Hs Hid. split.
  - apply step_run_waiting; try done. cbn [prop]. by rewrite Hs.
  - unfold step, step_body, on_poll, get. cbn [received ret bind mbind M_bind nullish].
    cbn [lift bind mbind M_bind app prop]. by rewrite Hs.
Qed.

Lemma missing_status_start_and_poll_witness :
  step sample_host (AwaitPoll (VStr (lit "thread_1")) (VStr (lit "run_1")))
    (Response true 200 (VObj [(lit "id", VStr (lit "run_1"))]))
  = (Returned (VStr NO_STATUS), []).
Proof.
  exact (proj2 (missing_status_start_and_poll sample_host
    (VStr (lit "thread_1")) (VStr (lit "run_1")) (lit "thread_1") (lit "run_1")
    true 200 [(lit "id", VStr (lit "run_1"))] eq_refl eq_refl eq_refl eq_refl)).
Defined.

(** A run that is already over when it starts is never polled: on
    [completed] the listing follows the start at once, on [failed] the
    query ends; no wait occurs in either case. *)
Theorem finished_run_is_not_polled (h : host) (input tid : jsstring)
    (st1 st2 st3 : Z) (threadData messageData runData : value) :
  nullish threadData = false → prop threadData (lit "id") = VStr tid →
  nullish runData = false →
  (prop runData (lit "status") = VStr (lit "completed") →
   createThreadWithMessage h input
     [Response true st1 threadData; Response true st2 messageData;
      Response true st3 runData]
   = (AwaitMessages,
      [Fetch (thread_request h); Fetch (message_request h tid input);
       Fetch (run_request h tid); Fetch (messages_request tid)]))
  ∧ (prop runData (lit "status") = VStr (lit "failed") →
     createThreadWithMessage h input
       [Response true st1 threadData; Response true st2 messageData;
        Response true st3 runData]
     = (Returned (VStr RUN_FAILED),
        [Fetch (thread_request h); Fetch (message_request h tid input);
         Fetch (run_request h tid)])).
Proof.
  intros Hn1 Hid1 Hn3.
  assert (∀ s3 evs3,
    step h (AwaitRun (VStr tid)) (Response true st3 runData) = (s3, evs3) →
    is_returned s3 = true ∨ s3 = AwaitMessages →
    createThreadWithMessage h input
      [Response true st1 threadData; Response true st2 messageData;
       Response true st3 runData]
    = (s3, [Fetch (thread_request h); Fetch (message_request h tid input);
            Fetch (run_request h tid)] ++ evs3)) as Hrun.
  { intros s3 evs3 Hstep Hs3. unfold createThreadWithMessage.
    rewrite run_cons by done.
    rewrite (step_thread_ok h input st1 threadData tid) by done.
    rewrite run_cons by done.
    rewrite (step_message_ok h (VStr tid) tid) by done.
    rewrite run_cons by done. rewrite Hstep. cbn [run app]. by rewrite app_nil_r. }
  split; intros Hs.
  - rewrite (Hrun AwaitMessages [Fetch (messages_request tid)]); [done| |by right].
    by apply step_run_completed.
  - rewrite (Hrun (Returned (VStr RUN_FAILED)) []); [done| |by left].
    apply (step_run_failed h (VStr tid) true st3 runData).
    cbn [status_of]. by rewrite Hn3, Hs.
Qed.

Lemma finished_run_is_not_polled_witness :
  createThreadWithMessage sample_host question
    [thread_created; message_added; run_started "completed"]
  = (AwaitMessages,
     [Fetch (thread_request sample_host);
      Fetch (message_request sample_host (lit "thread_1") question);
      Fetch (run_request sample_host (lit "thread_1"));
      Fetch (messages_request (lit "thread_1"))]).
Proof.
  exact (proj1 (finished_run_is_not_polled sample_host question (lit "thread_1")
    200 200 200 (VObj [(lit "id", VStr (lit "thread_1"))])
    (VObj [(lit "id", VStr (lit "msg_1"))])
    (VObj [(lit "id", VStr (lit "run_1")); (lit "status", VStr (lit "completed"))])
    eq_refl eq_refl eq_refl) eq_refl).
Defined.

(** A [null] body of an [ok] answer: reading [id] or [status] from it
    throws, and the [catch] clause returns the message of the host; the
    body of the answer to the posted message is never read; a [null]
    listing is reported as an empty response. *)
Theorem null_body (h : host) (input : jsstring) (threadId runId : value)
    (tid : jsstring) (ok : bool) (st : Z) :
  to_string h threadId = Ok tid →
  step h (AwaitThread input) (Response true st VNull)
  = (Returned (VStr (CAUGHT ++ type_error_message h VNull (lit "id"))), [])
  ∧ step h (AwaitMessage threadId) (Response true st VNull)
    = (AwaitRun threadId, [Fetch (run_request h tid)])
  ∧ step h (AwaitRun threadId) (Response true st VNull)
    = (Returned (VStr (CAUGHT ++ type_error_message h VNull (lit "id"))), [])
  ∧ step h (AwaitPoll threadId runId) (Response ok st VNull)
    = (Returned (VStr (CAUGHT ++ type_error_message h VNull (lit "status"))), [])
  ∧ step h AwaitMessages (Response true st VNull)
    = (Returned (VStr (NO_MESSAGES ++ JSON_stringify h VNull)), []).
Proof.
  intros Ht. split_and!; try done.
  by apply step_message_ok.
Qed.

Lemma null_body_witness :
  step sample_host (AwaitThread question) (Response true 200 VNull)
  = (Returned (VStr (lit "An error occurred while processing your request: Cannot read properties of null (reading 'id')")), []).
Proof.
  exact (proj1 (null_body sample_host question (VStr (lit "thread_1"))
    (VStr (lit "run_1")) (lit "thread_1") true 200 eq_refl)).
Defined.

(** * Further properties of [sendMessage] *)

(** A blank input changes nothing and issues no call.  Any other input
    issues the calls of [createThreadWithMessage] and adds the user's
    bubble.  What follows that bubble is the indicator while the call is
    suspended, and one bubble with the sanitized text once a string is
    returned.  When a value that is no string is returned nothing follows
    it: the [catch] clause fails on the indicator, which the [try] block
    has removed already, and the promise of [sendMessage] is rejected.
    The apology of the [catch] clause is therefore never shown. *)
Theorem sendMessage_never_apologises (h : host) (input : jsstring)
    (os : list outcome) (pg : page) :
  (trim input = [] → sendMessage_run h input os pg = (pg, [], Fulfilled))
  ∧ (trim input ≠ [] →
     (sendMessage h input os pg).2 = (createThreadWithMessage h input os).2
     ∧ match (createThreadWithMessage h input os).1 with
       | Returned (VStr response) =>
         chat (sendMessage h input os pg).1
         = chat pg ++ [UserBubble input;
                       BotBubble (sanitizeAssistantResponse response
                                    (collectedReferences pg)).1 false]
         ∧ (sendMessage_run h input os pg).2 = Fulfilled
       | Returned _ =>
         chat (sendMessage h input os pg).1 = chat pg ++ [UserBubble input]
         ∧ collectedReferences (sendMessage h input os pg).1 = []
         ∧ (sendMessage_run h input os pg).2 = Failed NOT_FOUND_ERROR
       | _ =>
         chat (sendMessage h input os pg).1
         = chat pg ++ [UserBubble input; ThinkingBubble]
         ∧ (sendMessage_run h input os pg).2 = Pending
       end)
  ∧ (BotBubble SORRY true ∈ chat (sendMessage h input os pg).1 →
     BotBubble SORRY true ∈ chat pg).
Proof.
  split_and!.
  - intros E. unfold sendMessage_run. by rewrite E.
  - intros Hne. unfold sendMessage. rewrite sendMessage_run_eq by done.
    destruct (createThreadWithMessage h input os) as [s evs].
    destruct s as [| | | | |v]; try done. by destruct v.
  - unfold sendMessage. destruct (trim input) as [|c t] eqn:Ht.
    { unfold sendMessage_run. by rewrite Ht. }
    rewrite sendMessage_run_eq by by rewrite Ht.
    destruct (createThreadWithMessage h input os) as [s evs].
    assert (∀ tail, Forall (λ b, b ≠ BotBubble SORRY true) tail →
              BotBubble SORRY true ∈ chat pg ++ tail →
              BotBubble SORRY true ∈ chat pg) as Hold.
    { intros tail Htail [?|Hin]%elem_of_app; [done|].
      by destruct (proj1 (Forall_forall _ _) Htail _ Hin). }
    destruct s as [| | | | |v]; cbn [fst chat];
      try (apply Hold; by repeat constructor).
    destruct v; cbn [fst chat]; apply Hold; by repeat constructor.
Qed.

(** The list of references of the page never holds a citation twice: a
    list without duplicate stays so through [sendMessage], whatever the
    input and the answers. *)
Theorem sendMessage_keeps_references_distinct (h : host) (input : jsstring)
    (os : list outcome) (pg : page) :
  NoDup (collectedReferences pg) →
  NoDup (collectedReferences (sendMessage h input os pg).1).
Proof.
  intros Hnd. unfold sendMessage. destruct (trim input) as [|c t] eqn:Ht.
  { unfold sendMessage_run. by rewrite Ht. }
  rewrite sendMessage_run_eq by by rewrite Ht.
  destruct (createThreadWithMessage h input os) as [s evs].
  destruct s as [| | | | |v]; cbn [fst collectedReferences]; try done.
  destruct v; cbn [fst collectedReferences]; try apply NoDup_nil_2.
  unfold sanitizeAssistantResponse. rewrite unify_numbered. cbn zeta.
  cbn [fst snd collectedReferences]. apply NoDup_collect, NoDup_nil_2.
Qed.

Lemma sendMessage_keeps_references_distinct_witness :
  NoDup (collectedReferences
    (sendMessage sample_host question
       [thread_created; message_added; run_started "completed";
        listing [assistant_entry (VStr (marker (lit "4:8") ++ marker (lit "4:8")))]]
       (Page [] [Text (lit "Page 18, Section 2")])).1).
Proof.
  apply sendMessage_keeps_references_distinct. cbn [collectedReferences].
  apply NoDup_singleton.
Defined.

(** * The time label *)

(** [getTimeString], on the hours and minutes the clock gives.  The
    remainder of the language truncates ([Z.rem]); [hours % 12 || 12]
    turns a remainder of zero into 12. *)
Definition getTimeString (hours minutes : Z) : jsstring :=
  let ampm := if (12 <=? hours)%Z then lit "PM" else lit "AM" in
  let hours := if (Z.rem hours 12 =? 0)%Z then 12%Z else Z.rem hours 12 in
  let minutes :=
    if (minutes <? 10)%Z then lit "0" ++ decimal minutes else decimal minutes in
  decimal hours ++ lit ":" ++ minutes ++ lit " " ++ ampm.

(** Reading a label back (used to compare labels only). *)
Definition digits_value (ds : jsstring) : Z :=
  foldl (λ acc d, (10 * acc + (Z.of_N d - 48))%Z) 0%Z ds.

Definition read_time (label : jsstring) : option (Z * Z) :=
  let '(hs, rest) := span is_digit label in
  match rest with
  | [_; m1; m2; _; half; _] =>
    let h12 := digits_value hs in
    let m := digits_value [m1; m2] in
    let h := if (h12 =? 12)%Z then 0%Z else h12 in
    Some (if half =? 80 then (h + 12)%Z else h, m)
  | _ => None
  end.

Definition day_minutes : list (Z * Z) :=
  h ← seqZ 0 24; m ← seqZ 0 60; [(h, m)].

Lemma read_time_day :
  forallb (λ '(h, m), bool_decide (read_time (getTimeString h m) = Some (h, m)))
          day_minutes = true.
Proof. vm_compute. reflexivity. Qed.

Lemma read_getTimeString h m :
  (0 ≤ h < 24)%Z → (0 ≤ m < 60)%Z → read_time (getTimeString h m) = Some (h, m).
Proof.
  intros Hh Hm.
  assert ((h, m) ∈ day_minutes) as Hin.
  { unfold day_minutes. apply list_elem_of_bind. exists h. split; [|apply elem_of_seqZ; lia].
    apply list_elem_of_bind. exists m. split; [by left | apply elem_of_seqZ; lia]. }
  pose proof read_time_day as Hall. rewrite forallb_forall in Hall.
  apply list_elem_of_In in Hin. specialize (Hall _ Hin). cbn beta iota in Hall.
  by apply bool_decide_eq_true in Hall.
Qed.

(** Within a day two different minutes get two different labels: the
    twelve-hour form with its AM or PM mark loses nothing. *)
Theorem getTimeString_distinct (h m h' m' : Z) :
  (0 ≤ h < 24)%Z → (0 ≤ m < 60)%Z → (0 ≤ h' < 24)%Z → (0 ≤ m' < 60)%Z →
  getTimeString h m = getTimeString h' m' → h = h' ∧ m = m'.
Proof.
  intros Hh Hm Hh' Hm' E.
  pose proof (read_getTimeString h m Hh Hm) as R.
  rewrite E, (read_getTimeString h' m' Hh' Hm') in R. by injection R as -> ->.
Qed.

Lemma getTimeString_distinct_witness :
  getTimeString 0 5 = lit "12:05 AM" ∧ getTimeString 12 5 = lit "12:05 PM"
  ∧ (getTimeString 0 5 = getTimeString 12 5 → (0 = 12 ∧ 5 = 5)%Z).
Proof.
  split_and!; [reflexivity..|].
  apply getTimeString_distinct; lia.
Defined.

(** * The chat bubble: click and drag *)

(** The variables the handlers of the bubble share: the two flags of the
    file, the third flag [chatboxVisible], whether the two document
    listeners are installed, the drag origin and the translation of the
    bubble, and whether the chat box is displayed.  Pointer positions are
    whole pixels. *)
Record bubble_state : Type := BubbleState {
  chatboxVisible : bool;
  isDragging : bool;
  preventClick : bool;
  listening : bool;
  initialX : Z;
  initialY : Z;
  offsetX : Z;
  offsetY : Z;
  boxDisplayed : bool;
}.

(** [btn.onclick] *)
Definition on_click (w : bubble_state) : bubble_state :=
  if preventClick w then
    BubbleState (chatboxVisible w) (isDragging w) false (listening w)
      (initialX w) (initialY w) (offsetX w) (offsetY w) (boxDisplayed w)
  else if negb (isDragging w) then
    BubbleState (negb (chatboxVisible w)) (isDragging w) (preventClick w) (listening w)
      (initialX w) (initialY w) (offsetX w) (offsetY w) (negb (chatboxVisible w))
  else w.

(** [btn.onmousedown] *)
Definition on_mousedown (clientX clientY : Z) (w : bubble_state) : bubble_state :=
  if negb (chatboxVisible w) then
    BubbleState (chatboxVisible w) false (preventClick w) true
      (clientX - offsetX w) (clientY - offsetY w) (offsetX w) (offsetY w) (boxDisplayed w)
  else w.

(** [handleDrag], called while it is installed. *)
Definition on_mousemove (clientX clientY : Z) (w : bubble_state) : bubble_state :=
  if listening w then
    BubbleState (chatboxVisible w) true (preventClick w) (listening w)
      (initialX w) (initialY w) (clientX - initialX w) (clientY - initialY w)
      (boxDisplayed w)
  else w.

(** [stopDrag], called while it is installed. *)
Definition on_mouseup (w : bubble_state) : bubble_state :=
  if listening w then
    BubbleState (chatboxVisible w) false
      (if isDragging w then true else preventClick w) false
      (initialX w) (initialY w) (offsetX w) (offsetY w) (boxDisplayed w)
  else w.

Inductive pointer : Type :=
| Click
| MouseDown (x y : Z)
| MouseMove (x y : Z)
| MouseUp.

Definition handle (w : bubble_state) (e : pointer) : bubble_state :=
  match e with
  | Click => on_click w
  | MouseDown x y => on_mousedown x y w
  | MouseMove x y => on_mousemove x y w
  | MouseUp => on_mouseup w
  end.

(** Nothing is going on: no drag, no listener, no click to swallow. *)
Definition at_rest (w : bubble_state) : Prop :=
  isDragging w = false ∧ preventClick w = false ∧ listening w = false.

Definition moves (path : list (Z * Z)) : list pointer :=
  (λ '(x, y), MouseMove x y) <$> path.

Lemma moves_end w path x y :
  listening w = true →
  let w' := foldl handle w (moves (path ++ [(x, y)])) in
  chatboxVisible w' = chatboxVisible w ∧ isDragging w' = true
  ∧ preventClick w' = preventClick w ∧ listening w' = true
  ∧ initialX w' = initialX w ∧ initialY w' = initialY w
  ∧ offsetX w' = (x - initialX w)%Z ∧ offsetY w' = (y - initialY w)%Z
  ∧ boxDisplayed w' = boxDisplayed w.
Proof.
  revert w. induction path as [|[x1 y1] path IH]; intros w Hl.
  - cbn. unfold on_mousemove. rewrite Hl. done.
  - cbn [app moves fmap list_fmap foldl handle]. cbn zeta in IH.
    set (w1 := on_mousemove x1 y1 w).
    assert (listening w1 = true ∧ chatboxVisible w1 = chatboxVisible w
            ∧ preventClick w1 = preventClick w ∧ initialX w1 = initialX w
            ∧ initialY w1 = initialY w ∧ boxDisplayed w1 = boxDisplayed w)
      as (H1 & H2 & H3 & H4 & H5 & H6)
      by (unfold w1, on_mousemove; by rewrite Hl).
    specialize (IH w1 H1). unfold moves in IH.
    rewrite H2, H3, H4, H5, H6 in IH. exact IH.
Qed.

(** A drag is no click: from rest with the chat box closed, pressing the
    bubble at one point, moving at least once and releasing leaves the
    bubble translated by the way of the pointer, and the click the
    browser sends next is swallowed; the chat box stays closed and the
    bubble is at rest again. *)
Theorem drag_is_not_a_click (w : bubble_state) (x0 y0 x y : Z) (path : list (Z * Z)) :
  at_rest w → chatboxVisible w = false →
  foldl handle w
    ([MouseDown x0 y0] ++ moves (path ++ [(x, y)]) ++ [MouseUp; Click])
  = BubbleState false false false false
      (x0 - offsetX w) (y0 - offsetY w)
      (offsetX w + (x - x0)) (offsetY w + (y - y0)) (boxDisplayed w).
Proof.
  intros (Hd & Hp & Hl) Hv.
  rewrite !foldl_app. cbn [foldl handle].
  set (w0 := on_mousedown x0 y0 w).
  assert (listening w0 = true ∧ chatboxVisible w0 = false ∧ preventClick w0 = false
          ∧ initialX w0 = (x0 - offsetX w)%Z ∧ initialY w0 = (y0 - offsetY w)%Z
          ∧ boxDisplayed w0 = boxDisplayed w) as (H1 & H2 & H3 & H4 & H5 & H6)
    by (unfold w0, on_mousedown; by rewrite Hv, Hp).
  destruct (moves_end w0 path x y H1) as (M1 & M2 & M3 & M4 & M5 & M6 & M7 & M8 & M9).
  set (w1 := foldl handle w0 (moves (path ++ [(x, y)]))) in *.
  unfold on_click, on_mouseup. rewrite M4, M2. cbn.
  rewrite M1, M5, M6, M7, M8, M9, H2, H4, H5, H6. f_equal; lia.
Qed.

Definition resting : bubble_state := BubbleState false false false false 0 0 0 0 false.

Lemma drag_is_not_a_click_witness :
  foldl handle resting
    ([MouseDown 10 10] ++ moves ([(12%Z, 11%Z)] ++ [(40%Z, 25%Z)]) ++ [MouseUp; Click])
  = BubbleState false false false false 10 10 30 15 false.
Proof.
  exact (drag_is_not_a_click resting 10 10 40 25 [(12%Z, 11%Z)]
           (conj eq_refl (conj eq_refl eq_refl)) eq_refl).
Defined.

(** A press and a release without move are a click: from rest the chat
    box opens or closes, and is displayed exactly when it is open.  While
    it is open the bubble cannot be dragged: presses, moves and releases
    change nothing. *)
Theorem click_toggles_and_open_box_pins (w : bubble_state) (x0 y0 : Z)
    (es : list pointer) :
  at_rest w →
  let w' := foldl handle w [MouseDown x0 y0; MouseUp; Click] in
  chatboxVisible w' = negb (chatboxVisible w)
  ∧ boxDisplayed w' = negb (chatboxVisible w)
  ∧ at_rest w'
  ∧ offsetX w' = offsetX w ∧ offsetY w' = offsetY w
  ∧ (chatboxVisible w = true → Forall (λ e, e ≠ Click) es → foldl handle w es = w).
Proof.
  intros (Hd & Hp & Hl). cbn zeta. cbn [foldl handle].
  split_and!.
  1-5: (unfold on_click, on_mouseup, on_mousedown, at_rest;
        destruct (chatboxVisible w) eqn:Hv; cbn; rewrite ?Hl, ?Hp, ?Hd; cbn;
        rewrite ?Hp, ?Hd; cbn; rewrite ?Hv; done).
  intros Hv Hes. induction Hes as [|e es He _ IH]; [done|].
  cbn [foldl]. assert (handle w e = w) as ->; [|done].
  destruct e as [|x y|x y|]; [done|..]; cbn [handle].
  - unfold on_mousedown. by rewrite Hv.
  - unfold on_mousemove. by rewrite Hl.
  - unfold on_mouseup. by rewrite Hl.
Qed.

Lemma click_toggles_and_open_box_pins_witness :
  chatboxVisible (foldl handle resting [MouseDown 5 5; MouseUp; Click]) = true.
Proof.
  exact (proj1 (click_toggles_and_open_box_pins resting 5 5 []
                  (conj eq_refl (conj eq_refl eq_refl)))).
Defined.
